(** * post-to-social: the post-dispatch scheduler, its store and its publishers

    A shallow embedding of [scheduler.js] (class [Scheduler]), of the
  routes of [server.js] and of [services/linkedin.js] and
  [services/twitter.js], followed by the properties of the dispatch loop
  and of the code around it.

  Conventions.
  - Instants are ECMAScript time values: integer milliseconds since the
    epoch, in [Z].  Timestamps kept in the store are the text SQLite
    keeps, and are compared the way SQLite compares text (byte by byte).
  - An [async] function is a state transformer that either returns or
    throws; the state it leaves behind is kept in both cases, since a
    rejected promise undoes nothing.
  - Console output is not part of the model; the log file, the store,
    the clock, the file system and the requests put on the wire are. *)

From Stdlib Require Import ZArith List String Ascii Bool Lia Permutation Sorted.
From Stdlib Require Import DecimalString.
Import ListNotations.

Local Open Scope list_scope.
Local Open Scope string_scope.
Local Open Scope Z_scope.

(** ** Strings, the way the JavaScript code uses them *)

Module Str.

(** [String(n)] for an integral Number. *)
Definition ofZ (n : Z) : string := NilZero.string_of_int (Z.to_int n).

(** The last [w] decimal digits of [n], most significant first
    ([padStart(w, '0')] of a non-negative number below [10^w]). *)
Fixpoint digits (w : nat) (n : Z) : string :=
  match w with
  | O => ""
  | S w' => digits w' (n / 10) ++ String (ascii_of_N (Z.to_N (48 + n mod 10))) ""
  end.

(** [s.split(c)] for a one-character separator: never empty. *)
Fixpoint split (c : ascii) (s : string) : list string :=
  match s with
  | EmptyString => [""]
  | String a rest =>
      if Ascii.eqb a c then "" :: split c rest
      else match split c rest with
           | [] => [String a ""]
           | hd :: tl => String a hd :: tl
           end
  end.

(** White space of [String.prototype.trim] in the ASCII range:
    TAB, LF, VT, FF, CR and SPACE. *)
Definition isSpace (a : ascii) : bool :=
  let n := N_of_ascii a in
  (((9 <=? n) && (n <=? 13)) || (n =? 32))%N.

Fixpoint trimStart (s : string) : string :=
  match s with
  | EmptyString => ""
  | String a rest => if isSpace a then trimStart rest else s
  end.

Fixpoint trimEnd (s : string) : string :=
  match s with
  | EmptyString => ""
  | String a rest =>
      match trimEnd rest with
      | EmptyString => if isSpace a then "" else String a ""
      | r => String a r
      end
  end.

Definition trim (s : string) : string := trimEnd (trimStart s).

Definition lowerChar (a : ascii) : ascii :=
  let n := N_of_ascii a in
  if ((65 <=? n) && (n <=? 90))%N then ascii_of_N (n + 32) else a.

Fixpoint toLowerCase (s : string) : string :=
  match s with
  | EmptyString => ""
  | String a rest => String (lowerChar a) (toLowerCase rest)
  end.

(** [xs.join(sep)]. *)
Definition join (sep : string) (xs : list string) : string := String.concat sep xs.

(** [s.split(c).pop()]. *)
Definition lastPiece (c : ascii) (s : string) : string := last (split c s) "".

(** A string is truthy when it is not empty. *)
Definition truthy (s : string) : bool := negb (String.eqb s "").

End Str.

(** ** Dates *)

Module JSDate.

Definition msPerSecond : Z := 1000.
Definition msPerMinute : Z := 60000.
Definition msPerHour : Z := 3600000.
Definition msPerDay : Z := 86400000.

(** The largest time value a Date object holds (ECMAScript TimeClip). *)
Definition maxTime : Z := 8640000000000000.

(** A Date object: [Some t] holds the time value [t], [None] is
    "Invalid Date" (time value NaN). *)
Definition Date : Type := option Z.

Definition TimeClip (t : Z) : Date :=
  if Z.abs t <=? maxTime then Some t else None.

(** [new Date(t)] for a Number [t]. *)
Definition ofTime (t : Z) : Date := TimeClip t.

Definition Day (t : Z) : Z := t / msPerDay.
Definition HourFromTime (t : Z) : Z := (t / msPerHour) mod 24.
Definition MinFromTime (t : Z) : Z := (t / msPerMinute) mod 60.
Definition SecFromTime (t : Z) : Z := (t / msPerSecond) mod 60.
Definition msFromTime (t : Z) : Z := t mod msPerSecond.

Definition MakeTime (h m s ms : Z) : Z :=
  h * msPerHour + m * msPerMinute + s * msPerSecond + ms.
Definition MakeDate (day time : Z) : Z := day * msPerDay + time.

(** Year, month (1..12) and day of month (1..31) of a day number, in
    the proleptic Gregorian calendar. *)
Definition civil (days : Z) : Z * Z * Z :=
  let z := days + 719468 in
  let era := z / 146097 in
  let doe := z mod 146097 in
  let yoe := (doe - doe / 1460 + doe / 36524 - doe / 146096) / 365 in
  let doy := doe - (365 * yoe + yoe / 4 - yoe / 100) in
  let mp := (5 * doy + 2) / 153 in
  let d := doy - (153 * mp + 2) / 5 + 1 in
  let m := if mp <? 10 then mp + 3 else mp - 9 in
  let y := yoe + era * 400 + (if m <=? 2 then 1 else 0) in
  (y, m, d).

Definition yearString (y : Z) : string :=
  if (0 <=? y) && (y <=? 9999) then Str.digits 4 y
  else (if y <? 0 then "-" else "+") ++ Str.digits 6 (Z.abs y).

(** The text of [toISOString] for a time value:
    [YYYY-MM-DDTHH:mm:ss.sssZ], in UTC. *)
Definition isoText (t : Z) : string :=
  let '(y, m, d) := civil (Day t) in
  yearString y ++ "-" ++ Str.digits 2 m ++ "-" ++ Str.digits 2 d ++ "T" ++
  Str.digits 2 (HourFromTime t) ++ ":" ++ Str.digits 2 (MinFromTime t) ++ ":" ++
  Str.digits 2 (SecFromTime t) ++ "." ++ Str.digits 3 (msFromTime t) ++ "Z".

(** SQLite's [CURRENT_TIMESTAMP]: [YYYY-MM-DD HH:MM:SS], in UTC. *)
Definition sqlText (t : Z) : string :=
  let '(y, m, d) := civil (Day t) in
  Str.digits 4 y ++ "-" ++ Str.digits 2 m ++ "-" ++ Str.digits 2 d ++ " " ++
  Str.digits 2 (HourFromTime t) ++ ":" ++ Str.digits 2 (MinFromTime t) ++ ":" ++
  Str.digits 2 (SecFromTime t).

(** The rules of the time zone of the process: [offsetAt t] is the
    offset from UTC in force at the instant [t] (LocalTZA(t, true)) and
    [offsetOf l] the offset that belongs to the local time value [l]
    (LocalTZA(l, false)); both in milliseconds, east of UTC positive. *)
Record Zone : Type := mkZone {
  offsetAt : Z -> Z;
  offsetOf : Z -> Z
}.

Definition LocalTime (zone : Zone) (t : Z) : Z := t + offsetAt zone t.
Definition UTC (zone : Zone) (l : Z) : Z := l - offsetOf zone l.

(** [d.getMinutes()]; [None] stands for NaN. *)
Definition getMinutes (zone : Zone) (d : Date) : option Z :=
  match d with
  | Some t => Some (MinFromTime (LocalTime zone t))
  | None => None
  end.

(** [d.setMinutes(m)]: the Date after the call. *)
Definition setMinutes (zone : Zone) (d : Date) (m : option Z) : Date :=
  match d, m with
  | Some t, Some m =>
      let l := LocalTime zone t in
      TimeClip (UTC zone (MakeDate (Day l)
                  (MakeTime (HourFromTime l) m (SecFromTime l) (msFromTime l))))
  | _, _ => None
  end.

End JSDate.


(** ** JavaScript values that cross the wire *)

#[local] Set Warnings "-register-all".
Inductive json : Type :=
| JUndefined
| JNull
| JBool (b : bool)
| JNum (n : Z)
| JStr (s : string)
| JArr (xs : list json)
| JObj (fields : list (string * json)).

Module Js.

Fixpoint assoc (k : string) (fields : list (string * json)) : json :=
  match fields with
  | [] => JUndefined
  | (k', v) :: rest => if String.eqb k k' then v else assoc k rest
  end.

(** [v.k] on a value that is neither [undefined] nor [null]. *)
Definition prop (k : string) (v : json) : json :=
  match v with
  | JObj fields => assoc k fields
  | _ => JUndefined
  end.

(** [v[i]] on a value that is neither [undefined] nor [null]. *)
Definition item (i : nat) (v : json) : json :=
  match v with
  | JArr xs => nth i xs JUndefined
  | _ => JUndefined
  end.

Definition nullish (v : json) : bool :=
  match v with
  | JUndefined | JNull => true
  | _ => false
  end.

(** [v?.k] and [v?.[i]]. *)
Definition optProp (k : string) (v : json) : json :=
  if nullish v then JUndefined else prop k v.
Definition optItem (i : nat) (v : json) : json :=
  if nullish v then JUndefined else item i v.

Definition truthy (v : json) : bool :=
  match v with
  | JUndefined | JNull => false
  | JBool b => b
  | JNum n => negb (n =? 0)
  | JStr s => Str.truthy s
  | JArr _ | JObj _ => true
  end.

(** [a || b]. *)
Definition or (a b : json) : json := if truthy a then a else b.

(** The text a template literal gives for [${v}]. *)
Fixpoint toStr (v : json) : string :=
  match v with
  | JUndefined => "undefined"
  | JNull => "null"
  | JBool true => "true"
  | JBool false => "false"
  | JNum n => Str.ofZ n
  | JStr s => s
  | JArr xs =>
      Str.join ","
        ((fix each (l : list json) : list string :=
            match l with
            | [] => []
            | x :: l' => (if nullish x then "" else toStr x) :: each l'
            end) xs)
  | JObj _ => "[object Object]"
  end.

End Js.

(** ** Errors and asynchronous effects *)

(** What axios keeps of an HTTP response. *)
Record Response : Type := mkResponse {
  status : Z;
  data : json
}.

(** A thrown Error; [response] is set on the errors axios throws for a
    reply outside 2xx, and absent on every other error. *)
Record Error : Type := mkError {
  message : string;
  response : option Response
}.

Definition newError (msg : string) : Error := mkError msg None.

(** [error.response?.status === code]. *)
Definition statusIs (code : Z) (e : Error) : bool :=
  match response e with
  | Some r => status r =? code
  | None => false
  end.

(** [error.response?.data]. *)
Definition responseData (e : Error) : json :=
  match response e with
  | Some r => data r
  | None => JUndefined
  end.

Inductive outcome (A : Type) : Type :=
| Ok (a : A)
| Thrown (e : Error).
Arguments Ok {A} a.
Arguments Thrown {A} e.

(** A computation over a state [S] that returns an [A] or throws. *)
Definition Eff (S A : Type) : Type := S -> outcome A * S.

Definition ret {S A : Type} (a : A) : Eff S A := fun s => (Ok a, s).

Definition throw {S A : Type} (e : Error) : Eff S A := fun s => (Thrown e, s).

Definition bind {S A B : Type} (m : Eff S A) (k : A -> Eff S B) : Eff S B :=
  fun s =>
    match m s with
    | (Ok a, s') => k a s'
    | (Thrown e, s') => (Thrown e, s')
    end.

(** [try { m } catch (error) { h error }]. *)
Definition tryCatch {S A : Type} (m : Eff S A) (h : Error -> Eff S A) : Eff S A :=
  fun s =>
    match m s with
    | (Ok a, s') => (Ok a, s')
    | (Thrown e, s') => h e s'
    end.

Definition gets {S A : Type} (f : S -> A) : Eff S A := fun s => (Ok (f s), s).

Declare Scope eff_scope.
Delimit Scope eff_scope with eff.
Notation "x <- m ;; k" := (bind m (fun x => k))
  (at level 61, m at next level, right associativity) : eff_scope.
Notation "m ;; k" := (bind m (fun _ => k))
  (at level 61, right associativity) : eff_scope.
Local Open Scope eff_scope.

(** Property reads that throw a TypeError on [undefined] and [null]. *)
Definition getProp {S : Type} (k : string) (v : json) : Eff S json :=
  if Js.nullish v
  then throw (newError ("Cannot read properties of " ++ Js.toStr v ++
                        " (reading '" ++ k ++ "')"))
  else ret (Js.prop k v).

(** ** The world outside the process: clock, files and network *)

Inductive Body : Type :=
| NoBody
| JsonBody (j : json)
| RawBody (bytes : string)
| FormBody (name bytes filename contentType : string).

Record Request : Type := mkRequest {
  method : string;
  url : string;
  headers : list (string * string);
  body : Body
}.

(** What comes back for one request: a reply with a status, or no reply
    at all (connection refused, reset, timed out). *)
Inductive Reply : Type :=
| Replied (status : Z) (data : json)
| NoReply (reason : string).

(** One request-reply exchange, with the time it takes. *)
Record Exchange : Type := mkExchange {
  elapsed : N;
  reply : Reply
}.

Record Net : Type := mkNet {
  (** the system clock, a valid time value *)
  clock : Z;
  (** what the network will answer, request after request; once it is
      used up the network is unreachable *)
  net_script : list Exchange;
  (** the requests put on the wire so far, oldest first *)
  sent : list Request;
  (** the files on disk: path and content *)
  files : list (string * string);
  (** the [Authorization] value [createAuthHeader(generateOAuthSignature
      (method, url, {}))] yields; it depends on a random nonce, on the
      time and on HMAC-SHA1, which stay outside *)
  oauth1 : string -> string -> string
}.

Definition Net_with (n : Net) (c : Z) (script : list Exchange) (s : list Request) : Net :=
  mkNet c script s (files n) (oauth1 n).

(** [Date.now()]. *)
Definition Date_now : Eff Net Z := gets clock.

(** [fs.existsSync(path)]. *)
Definition existsSync (path : string) : Eff Net bool :=
  gets (fun n => existsb (fun f => String.eqb (fst f) path) (files n)).

(** [fs.readFileSync(path)]. *)
Definition readFileSync (path : string) : Eff Net string :=
  fun n =>
    match find (fun f => String.eqb (fst f) path) (files n) with
    | Some f => (Ok (snd f), n)
    | None => (Thrown (newError ("ENOENT: no such file or directory, open '"
                                 ++ path ++ "'")), n)
    end.

(** One axios call: resolves with the response on a 2xx status, throws
    otherwise.  The request is on the wire in every case. *)
Definition axios (req : Request) : Eff Net Response :=
  fun n =>
    match net_script n with
    | [] => (Thrown (newError "Network Error"),
             Net_with n (clock n) [] (sent n ++ [req])%list)
    | x :: rest =>
        let n' := Net_with n (clock n + Z.of_N (elapsed x)) rest (sent n ++ [req])%list in
        match reply x with
        | Replied st d =>
            if (200 <=? st) && (st <? 300)
            then (Ok (mkResponse st d), n')
            else (Thrown (mkError ("Request failed with status code " ++ Str.ofZ st)
                                  (Some (mkResponse st d))), n')
        | NoReply reason => (Thrown (newError reason), n')
        end
    end.

(** A configured credential: set and not empty. *)
Definition configured (v : option string) : bool :=
  match v with
  | Some s => Str.truthy s
  | None => false
  end.

Definition credential (v : option string) : string :=
  match v with
  | Some s => s
  | None => "null"
  end.

(** ** services/linkedin.js *)

Module LinkedIn.

Record LinkedInService : Type := mkService {
  clientId : option string;
  clientSecret : option string;
  redirectUri : option string;
  accessToken : option string
}.

Definition bearer (self : LinkedInService) : string * string :=
  ("Authorization", "Bearer " ++ credential (accessToken self)).

(** [getProfile()]. *)
Definition getProfile (self : LinkedInService) : Eff Net json :=
  if negb (configured (accessToken self))
  then throw (newError "LinkedIn access token not available. Please authenticate first.")
  else
    tryCatch
      (response <- axios (mkRequest "GET" "https://api.linkedin.com/v2/people/~"
                            [bearer self] NoBody) ;;
       id <- getProp "id" (data response) ;;
       firstName <- getProp "firstName" (data response) ;;
       lastName <- getProp "lastName" (data response) ;;
       profilePicture <- getProp "profilePicture" (data response) ;;
       ret (JObj [("id", id);
                  ("firstName", Js.optProp "en_US" (Js.optProp "localized" firstName));
                  ("lastName", Js.optProp "en_US" (Js.optProp "localized" lastName));
                  ("profilePicture",
                    Js.optProp "identifier"
                      (Js.optItem 0
                        (Js.optProp "identifiers"
                          (Js.optItem 0
                            (Js.optProp "elements"
                              (Js.optProp "displayImage~" profilePicture))))))]))
      (fun error =>
         throw (newError ("Failed to get LinkedIn profile: " ++
                          Js.toStr (Js.or (Js.optProp "message" (responseData error))
                                          (JStr (message error)))))).

Definition registerUploadRequest (owner : json) : json :=
  JObj [("registerUploadRequest",
         JObj [("recipes", JArr [JStr "urn:li:digitalmediaRecipe:feedshare-image"]);
               ("owner", JStr ("urn:li:person:" ++ Js.toStr owner));
               ("serviceRelationships",
                JArr [JObj [("relationshipType", JStr "OWNER");
                            ("identifier", JStr "urn:li:userGeneratedContent")]])])].

(** [uploadImage(imagePath)]. *)
Definition uploadImage (self : LinkedInService) (imagePath : string) : Eff Net json :=
  if negb (configured (accessToken self))
  then throw (newError "LinkedIn access token not available")
  else
    tryCatch
      (profile <- getProfile self ;;
       uploadResponse <-
         axios (mkRequest "POST" "https://api.linkedin.com/v2/assets?action=registerUpload"
                  [bearer self; ("Content-Type", "application/json")]
                  (JsonBody (registerUploadRequest (Js.prop "id" profile)))) ;;
       value <- getProp "value" (data uploadResponse) ;;
       uploadMechanism <- getProp "uploadMechanism" value ;;
       request <- getProp "com.linkedin.digitalmedia.uploading.MediaUploadHttpRequest"
                    uploadMechanism ;;
       uploadUrl <- getProp "uploadUrl" request ;;
       asset <- getProp "asset" value ;;
       imageData <- readFileSync imagePath ;;
       axios (mkRequest "PUT" (Js.toStr uploadUrl)
                [("Content-Type", "application/octet-stream")] (RawBody imageData)) ;;
       ret asset)
      (fun error =>
         throw (newError ("Failed to upload image to LinkedIn: " ++
                          Js.toStr (Js.or (Js.optProp "message" (responseData error))
                                          (JStr (message error)))))).

(** The [postData] object of [postUpdate]: without media it keeps
    [shareMediaCategory: 'NONE'] and has no [media] member. *)
Definition ugcPost (author : json) (content : string) (media : option json) : json :=
  JObj [("author", JStr ("urn:li:person:" ++ Js.toStr author));
        ("lifecycleState", JStr "PUBLISHED");
        ("specificContent",
         JObj [("com.linkedin.ugc.ShareContent",
                JObj ([("shareCommentary", JObj [("text", JStr content)])] ++
                      match media with
                      | None => [("shareMediaCategory", JStr "NONE")]
                      | Some mediaAsset =>
                          [("shareMediaCategory", JStr "IMAGE");
                           ("media",
                            JArr [JObj [("status", JStr "READY");
                                        ("description", JObj [("text", JStr "Shared image")]);
                                        ("media", mediaAsset);
                                        ("title", JObj [("text", JStr "Image")])]])]
                      end)%list)]);
        ("visibility",
         JObj [("com.linkedin.ugc.MemberNetworkVisibility", JStr "PUBLIC")])].

Definition ugcPostRequest (self : LinkedInService) (postData : json) : Request :=
  mkRequest "POST" "https://api.linkedin.com/v2/ugcPosts"
    [bearer self; ("Content-Type", "application/json");
     ("X-Restli-Protocol-Version", "2.0.0")]
    (JsonBody postData).

(** [postUpdate(content, mediaPath = null)]. *)
Definition postUpdate (self : LinkedInService) (content : string)
    (mediaPath : option string) : Eff Net json :=
  if negb (configured (accessToken self))
  then throw (newError "LinkedIn access token not available. Please authenticate first.")
  else
    tryCatch
      (profile <- getProfile self ;;
       postData <-
         match mediaPath with
         | Some path =>
             if Str.truthy path
             then
               onDisk <- existsSync path ;;
               if onDisk
               then
                 mediaAsset <- uploadImage self path ;;
                 ret (ugcPost (Js.prop "id" profile) content (Some mediaAsset))
               else ret (ugcPost (Js.prop "id" profile) content None)
             else ret (ugcPost (Js.prop "id" profile) content None)
         | None => ret (ugcPost (Js.prop "id" profile) content None)
         end ;;
       response <- axios (ugcPostRequest self postData) ;;
       postId <- getProp "id" (data response) ;;
       ret (JObj [("success", JBool true);
                  ("postId", postId);
                  ("response", data response)]))
      (fun error =>
         if statusIs 401 error
         then throw (newError "LinkedIn authentication failed. Please re-authenticate.")
         else if statusIs 403 error
         then throw (newError "LinkedIn posting forbidden. Check your app permissions.")
         else if statusIs 429 error
         then throw (newError "LinkedIn rate limit exceeded. Please try again later.")
         else throw (newError ("Failed to post to LinkedIn: " ++
                               Js.toStr (Js.or (Js.optProp "message" (responseData error))
                                               (JStr (message error)))))).

End LinkedIn.

(** ** services/twitter.js *)

Module Twitter.

Record TwitterService : Type := mkService {
  apiKey : option string;
  apiSecret : option string;
  accessToken : option string;
  accessTokenSecret : option string
}.

(** [createAuthHeader(generateOAuthSignature(method, url, {}))]. *)
Definition authHeader (method url : string) : Eff Net string :=
  gets (fun n => oauth1 n method url).

(** The own members of the [mimeTypes] table. *)
Definition mimeTypes : list (string * string) :=
  [("jpg", "image/jpeg"); ("jpeg", "image/jpeg"); ("png", "image/png");
   ("gif", "image/gif"); ("mp4", "video/mp4"); ("mov", "video/quicktime")].

(** [getMediaType(filePath)]. *)
Definition getMediaType (filePath : string) : string :=
  let ext := Str.toLowerCase (Str.lastPiece "." filePath) in
  match find (fun e => String.eqb (fst e) ext) mimeTypes with
  | Some e => snd e
  | None => "application/octet-stream"
  end.

(** The first message of [error.response?.data?.errors], or the
    error's own message. *)
Definition firstApiMessage (error : Error) : string :=
  Js.toStr (Js.or (Js.optProp "message"
                     (Js.optItem 0 (Js.optProp "errors" (responseData error))))
                  (JStr (message error))).

(** [uploadMedia(mediaPath)]. *)
Definition uploadMedia (self : TwitterService) (mediaPath : string) : Eff Net json :=
  onDisk <- existsSync mediaPath ;;
  if negb onDisk
  then throw (newError ("Media file not found: " ++ mediaPath))
  else
    let url := "https://upload.twitter.com/1.1/media/upload.json" in
    mediaData <- readFileSync mediaPath ;;
    header <- authHeader "POST" url ;;
    tryCatch
      (response <-
         axios (mkRequest "POST" url
                  [("content-type", "multipart/form-data"); ("Authorization", header)]
                  (FormBody "media" mediaData (Str.lastPiece "/" mediaPath)
                            (getMediaType mediaPath))) ;;
       getProp "media_id_string" (data response))
      (fun error =>
         throw (newError ("Failed to upload media to Twitter: " ++ firstApiMessage error))).

Definition tweetData (content : string) (mediaId : json) : json :=
  JObj ([("text", JStr content)] ++
        if Js.truthy mediaId
        then [("media", JObj [("media_ids", JArr [mediaId])])]
        else [])%list.

(** [postTweet(content, mediaPath = null)]. *)
Definition postTweet (self : TwitterService) (content : string)
    (mediaPath : option string) : Eff Net json :=
  if negb (configured (apiKey self))
  then throw (newError "Twitter API credentials not configured")
  else
    tryCatch
      (mediaId <-
         match mediaPath with
         | Some path =>
             if Str.truthy path then uploadMedia self path else ret JNull
         | None => ret JNull
         end ;;
       let url := "https://api.twitter.com/2/tweets" in
       header <- authHeader "POST" url ;;
       response <-
         axios (mkRequest "POST" url
                  [("Authorization", header); ("Content-Type", "application/json")]
                  (JsonBody (tweetData content mediaId))) ;;
       inner <- getProp "data" (data response) ;;
       tweetId <- getProp "id" inner ;;
       ret (JObj [("success", JBool true);
                  ("tweetId", tweetId);
                  ("response", data response)]))
      (fun error =>
         if statusIs 401 error
         then throw (newError "Twitter authentication failed. Please check your API credentials.")
         else if statusIs 403 error
         then throw (newError
                "Twitter posting forbidden. Check your app permissions and account status.")
         else if statusIs 429 error
         then throw (newError "Twitter rate limit exceeded. Please try again later.")
         else throw (newError ("Failed to post to Twitter: " ++ firstApiMessage error))).

End Twitter.

(** ** The store: the SQLite tables of server.js *)

Inductive Status : Type :=
| scheduled
| posting
| posted
| partial
| failed.

Definition Status_eqb (a b : Status) : bool :=
  match a, b with
  | scheduled, scheduled | posting, posting | posted, posted
  | partial, partial | failed, failed => true
  | _, _ => false
  end.

(** A row of [posts]. *)
Record Post : Type := mkPost {
  id : Z;
  content : string;
  platforms : string;
  scheduled_time : string;
  post_status : Status;
  series_id : option Z;
  series_order : option Z;
  media_path : option string;
  created_at : string;
  posted_at : option string;
  error_message : option string;
  retry_count : Z
}.

(** A row of [series]. *)
Record Series : Type := mkSeries {
  sr_id : Z;
  sr_name : string;
  sr_platforms : string;
  sr_interval_minutes : Z;
  sr_start_time : string;
  sr_status : Status;
  sr_created_at : string
}.

(** A row of [posting_history]. *)
Record History : Type := mkHistory {
  h_id : Z;
  h_post_id : Z;
  h_platform : string;
  h_status : Status;
  h_response_data : option string;
  h_error_message : option string;
  h_posted_at : string
}.

(** The tables, each in rowid order, and the last rowid each
    AUTOINCREMENT key has given out. *)
Record Store : Type := mkStore {
  posts : list Post;
  series : list Series;
  posting_history : list History;
  posts_seq : Z;
  series_seq : Z;
  history_seq : Z
}.

Module Sql.

(** [ORDER BY scheduled_time ASC]: text, compared byte by byte. *)
Fixpoint insert_by_time (p : Post) (rows : list Post) : list Post :=
  match rows with
  | [] => [p]
  | q :: rest =>
      if String.leb (scheduled_time p) (scheduled_time q)
      then p :: q :: rest
      else q :: insert_by_time p rest
  end.

Fixpoint order_by_time (rows : list Post) : list Post :=
  match rows with
  | [] => []
  | p :: rest => insert_by_time p (order_by_time rest)
  end.

(** [WHERE status = 'scheduled' AND scheduled_time <= ?]. *)
Definition is_due (currentTime : string) (p : Post) : bool :=
  Status_eqb (post_status p) scheduled && String.leb (scheduled_time p) currentTime.

(** [SELECT * FROM posts WHERE status = 'scheduled' AND scheduled_time <= ?
    ORDER BY scheduled_time ASC]. *)
Definition select_due (currentTime : string) (s : Store) : list Post :=
  order_by_time (filter (is_due currentTime) (posts s)).

Definition set_posts (s : Store) (rows : list Post) : Store :=
  mkStore rows (series s) (posting_history s) (posts_seq s) (series_seq s) (history_seq s).

Definition count_id (postId : Z) (rows : list Post) : Z :=
  Z.of_nat (List.length (filter (fun p => id p =? postId) rows)).

(** [UPDATE posts SET status = ?, posted_at = ?, error_message = ?
    WHERE id = ?]; gives the number of rows changed. *)
Definition update_status (st : Status) (postedAt errorMessage : option string)
    (postId : Z) (s : Store) : Z * Store :=
  (count_id postId (posts s),
   set_posts s
     (map (fun p =>
             if id p =? postId
             then mkPost (id p) (content p) (platforms p) (scheduled_time p) st
                         (series_id p) (series_order p) (media_path p) (created_at p)
                         postedAt errorMessage (retry_count p)
             else p)
          (posts s))).

(** [UPDATE posts SET status = 'scheduled', scheduled_time = ?,
    retry_count = retry_count + 1, error_message = ? WHERE id = ?]. *)
Definition update_retry (newScheduledTime errorMessage : string) (postId : Z)
    (s : Store) : Z * Store :=
  (count_id postId (posts s),
   set_posts s
     (map (fun p =>
             if id p =? postId
             then mkPost (id p) (content p) (platforms p) newScheduledTime scheduled
                         (series_id p) (series_order p) (media_path p) (created_at p)
                         (posted_at p) (Some errorMessage) (retry_count p + 1)
             else p)
          (posts s))).

(** [INSERT INTO posting_history (post_id, platform, status,
    response_data, error_message) VALUES (?, ?, ?, ?, ?)] at clock time
    [now]; gives the new rowid. *)
Definition insert_history (now : Z) (postId : Z) (platform : string) (st : Status)
    (responseData errorMessage : option string) (s : Store) : Z * Store :=
  let rowid := history_seq s + 1 in
  (rowid,
   mkStore (posts s) (series s)
     (posting_history s ++
      [mkHistory rowid postId platform st responseData errorMessage (JSDate.sqlText now)])%list
     (posts_seq s) (series_seq s) rowid).

(** [INSERT INTO series (name, platforms, interval_minutes, start_time)
    VALUES (?, ?, ?, ?)]. *)
Definition insert_series (now : Z) (name platforms : string) (interval_minutes : Z)
    (start_time : string) (s : Store) : Z * Store :=
  let rowid := series_seq s + 1 in
  (rowid,
   mkStore (posts s)
     (series s ++
      [mkSeries rowid name platforms interval_minutes start_time scheduled
                (JSDate.sqlText now)])%list
     (posting_history s) (posts_seq s) rowid (history_seq s)).

(** [INSERT INTO posts (content, platforms, scheduled_time, series_id,
    series_order) VALUES (?, ?, ?, ?, ?)]; the other columns take their
    defaults. *)
Definition insert_series_post (now : Z) (content platforms scheduled_time : string)
    (seriesId seriesOrder : Z) (s : Store) : Z * Store :=
  let rowid := posts_seq s + 1 in
  (rowid,
   mkStore
     (posts s ++
      [mkPost rowid content platforms scheduled_time scheduled (Some seriesId)
              (Some seriesOrder) None (JSDate.sqlText now) None None 0])%list
     (series s) (posting_history s) rowid (series_seq s) (history_seq s)).

End Sql.

(** ** The process state *)

Record World : Type := mkWorld {
  store : Store;
  net : Net;
  (** what will go wrong in the store: one entry per statement run, in
      order; [Some msg] makes that statement fail with [msg], and once
      the list is used up every statement succeeds *)
  faults : list (option string);
  (** the lines of logs/scheduler.log, oldest first *)
  scheduler_log : list string
}.

(** An effect on the outside world, seen from the process. *)
Definition liftNet {A : Type} (m : Eff Net A) : Eff World A :=
  fun w =>
    let '(r, n') := m (net w) in
    (r, mkWorld (store w) n' (faults w) (scheduler_log w)).

(** One statement on a connection.  On a closed connection it fails
    with SQLITE_MISUSE and nothing is run. *)
Definition dbRun {A : Type} (isOpen : bool) (stmt : Z -> Store -> A * Store) : Eff World A :=
  fun w =>
    if negb isOpen
    then (Thrown (newError "SQLITE_MISUSE: Database is closed"), w)
    else
      match faults w with
      | Some msg :: rest =>
          (Thrown (newError msg), mkWorld (store w) (net w) rest (scheduler_log w))
      | rest =>
          let '(a, s') := stmt (clock (net w)) (store w) in
          (Ok a, mkWorld s' (net w) (tl rest) (scheduler_log w))
      end.

(** The environment variables the scheduler reads, each already read as
    a Number; [None] when the variable is unset or empty. *)
Record Env : Type := mkEnv {
  RETRY_ATTEMPTS : option Z;
  RETRY_DELAY : option Z
}.

(** [process.env.RETRY_ATTEMPTS || 3]. *)
Definition maxRetries (env : Env) : Z :=
  match RETRY_ATTEMPTS env with
  | Some n => n
  | None => 3
  end.

(** [parseInt(process.env.RETRY_DELAY || 300000)]. *)
Definition retryDelay (env : Env) : Z :=
  match RETRY_DELAY env with
  | Some n => n
  | None => 300000
  end.

(** [new Date(t).toISOString()] for a computed time value [t]. *)
Definition toISOString {S : Type} (d : JSDate.Date) : Eff S string :=
  match d with
  | Some t => ret (JSDate.isoText t)
  | None => throw (newError "Invalid time value")
  end.

(** [new Date().toISOString()]: the clock is a valid time value. *)
Definition nowISOString : Eff World string :=
  liftNet (t <- Date_now ;; ret (JSDate.isoText t)).

(** ** scheduler.js: class Scheduler *)

Record Scheduler : Type := mkScheduler {
  (** whether the connection [this.db] is still open *)
  db_open : bool;
  twitterService : Twitter.TwitterService;
  linkedinService : LinkedIn.LinkedInService;
  isRunning : bool
}.

(** [getScheduledPosts(currentTime)]. *)
Definition getScheduledPosts (self : Scheduler) (currentTime : string)
  : Eff World (list Post) :=
  dbRun (db_open self) (fun _ s => (Sql.select_due currentTime s, s)).

(** [updatePostStatus(postId, status, postedAt = null, errorMessage = null)]. *)
Definition updatePostStatus (self : Scheduler) (postId : Z) (st : Status)
    (postedAt errorMessage : option string) : Eff World Z :=
  dbRun (db_open self) (fun _ => Sql.update_status st postedAt errorMessage postId).

(** [logPostingHistory(postId, platform, status, responseData, errorMessage)]. *)
Definition logPostingHistory (self : Scheduler) (postId : Z) (platform : string)
    (st : Status) (responseData errorMessage : option string) : Eff World Z :=
  dbRun (db_open self)
    (fun now => Sql.insert_history now postId platform st responseData errorMessage).

(** [logError(type, message)]. *)
Definition logError (type msg : string) : Eff World unit :=
  fun w =>
    let logEntry :=
      "[" ++ JSDate.isoText (clock (net w)) ++ "] " ++ type ++ ": " ++ msg ++
      String (ascii_of_N 10) "" in
    (Ok tt, mkWorld (store w) (net w) (faults w) (scheduler_log w ++ [logEntry])%list).

(** The [mediaPath] of [postToPlatform]. *)
Definition mediaPathOf (post : Post) : option string :=
  match media_path post with
  | Some file => if Str.truthy file then Some ("./uploads/" ++ file) else None
  | None => None
  end.

(** [postToPlatform(post, platform)]. *)
Definition postToPlatform (self : Scheduler) (post : Post) (platform : string)
  : Eff World json :=
  if String.eqb platform "twitter"
  then liftNet (Twitter.postTweet (twitterService self) (content post) (mediaPathOf post))
  else if String.eqb platform "linkedin"
  then liftNet (LinkedIn.postUpdate (linkedinService self) (content post) (mediaPathOf post))
  else throw (newError ("Unknown platform: " ++ platform)).

(** [scheduleRetry(post)]. *)
Definition scheduleRetry (self : Scheduler) (env : Env) (post : Post) : Eff World Z :=
  now <- liftNet Date_now ;;
  newScheduledTime <- toISOString (JSDate.ofTime (now + retryDelay env)) ;;
  dbRun (db_open self)
    (fun _ => Sql.update_retry newScheduledTime
                ("Retry " ++ Str.ofZ (retry_count post + 1)) (id post)).

(** One turn of the loop over the platforms of [processPost]: [None]
    when the platform took the post, the entry for [errors] otherwise. *)
Definition attemptPlatform (self : Scheduler) (post : Post) (platform : string)
  : Eff World (option string) :=
  tryCatch
    (postToPlatform self post (Str.trim platform) ;;
     logPostingHistory self (id post) platform posted None None ;;
     ret None)
    (fun error =>
       logPostingHistory self (id post) platform failed None (Some (message error)) ;;
       ret (Some (platform ++ ": " ++ message error))).

(** The loop over the platforms, carrying [successCount] and [errors]. *)
Fixpoint forEachPlatform (self : Scheduler) (post : Post) (rest : list string)
    (successCount : Z) (errors : list string) : Eff World (Z * list string) :=
  match rest with
  | [] => ret (successCount, errors)
  | platform :: rest' =>
      r <- attemptPlatform self post platform ;;
      match r with
      | None => forEachPlatform self post rest' (successCount + 1) errors
      | Some e => forEachPlatform self post rest' successCount (errors ++ [e])%list
      end
  end.

(** [processPost(post)]. *)
Definition processPost (self : Scheduler) (env : Env) (post : Post) : Eff World unit :=
  updatePostStatus self (id post) posting None None ;;
  let platforms := Str.split "," (platforms post) in
  tally <- forEachPlatform self post platforms 0 [] ;;
  let '(successCount, errors) := tally in
  if successCount =? Z.of_nat (List.length platforms)
  then
    postedAt <- nowISOString ;;
    updatePostStatus self (id post) posted (Some postedAt) None ;;
    ret tt
  else if 0 <? successCount
  then
    updatePostStatus self (id post) partial None (Some (Str.join "; " errors)) ;;
    ret tt
  else if retry_count post <? maxRetries env
  then
    scheduleRetry self env post ;;
    ret tt
  else
    updatePostStatus self (id post) failed None (Some (Str.join "; " errors)) ;;
    ret tt.

(** The [for (const post of posts)] loop of the tick. *)
Fixpoint forEachPost (self : Scheduler) (env : Env) (batch : list Post) : Eff World unit :=
  match batch with
  | [] => ret tt
  | post :: rest =>
      processPost self env post ;;
      forEachPost self env rest
  end.

(** [checkAndPostScheduledPosts()]: one tick. *)
Definition checkAndPostScheduledPosts (self : Scheduler) (env : Env) : Eff World unit :=
  now <- nowISOString ;;
  tryCatch
    (batch <- getScheduledPosts self now ;;
     forEachPost self env batch)
    (fun error => logError "SCHEDULER_ERROR" (message error)).

(** [start()] registers one cron task unless the scheduler runs already;
    [tasks] counts the tasks registered with node-cron. *)
Definition start (st : Scheduler * nat) : Scheduler * nat :=
  let '(self, tasks) := st in
  if isRunning self
  then (self, tasks)
  else (mkScheduler (db_open self) (twitterService self) (linkedinService self) true,
        S tasks).

(** [stop()] closes the connection and clears the flag; it has no
    handle on the cron task. *)
Definition stop (st : Scheduler * nat) : Scheduler * nat :=
  let '(self, tasks) := st in
  (mkScheduler false (twitterService self) (linkedinService self) false, tasks).

(** ** The process around the scheduler: timer, ticks in flight *)

(** Where a tick in flight stands: waiting for the due posts asked for
    at [now], or inside the loop with [batch] still to process. *)
Inductive Tick : Type :=
| Querying (now : string)
| Looping (batch : list Post).

Record Process : Type := mkProcess {
  world : World;
  this : Scheduler;
  (** cron tasks registered by [start] *)
  tasks : nat;
  (** the ticks that have started and not yet finished, oldest first *)
  inflight : list Tick;
  (** how many ticks have started so far *)
  ticks_started : nat
}.

(** What happens to the process: a call of [start] or of [stop], a
    registered cron task reaching its minute, and the event loop
    resuming the tick in flight at position [i]. *)
Inductive Event : Type :=
| CallStart
| CallStop
| TimerFires
| Resume (i : nat).

(** What is left of a tick after its next stretch of work, with the
    world it leaves: the query, or one whole post.  Control changes
    hands between ticks only at an [await]; every stretch here begins
    and ends at one, so each interleaving of the model is one of the
    program. *)
Definition resumeTick (self : Scheduler) (env : Env) (t : Tick) (w : World)
  : option Tick * World :=
  let settle (r : outcome (list Post) * World) : option Tick * World :=
    match r with
    | (Ok [], w') => (None, w')
    | (Ok batch, w') => (Some (Looping batch), w')
    | (Thrown error, w') => (None, snd (logError "SCHEDULER_ERROR" (message error) w'))
    end in
  match t with
  | Querying now => settle (getScheduledPosts self now w)
  | Looping [] => (None, w)
  | Looping (post :: rest) =>
      settle ((processPost self env post ;; ret rest) w)
  end.

Fixpoint replaceNth {A : Type} (i : nat) (x : option A) (l : list A) : list A :=
  match l, i with
  | [], _ => []
  | y :: l', O => match x with Some x' => x' :: l' | None => l' end
  | y :: l', S i' => y :: replaceNth i' x l'
  end.

Definition step (env : Env) (p : Process) (e : Event) : Process :=
  match e with
  | CallStart =>
      let '(self, n) := start (this p, tasks p) in
      mkProcess (world p) self n (inflight p) (ticks_started p)
  | CallStop =>
      let '(self, n) := stop (this p, tasks p) in
      mkProcess (world p) self n (inflight p) (ticks_started p)
  | TimerFires =>
      match tasks p with
      | O => p
      | S _ =>
          mkProcess (world p) (this p) (tasks p)
            (inflight p ++ [Querying (JSDate.isoText (clock (net (world p))))])%list
            (S (ticks_started p))
      end
  | Resume i =>
      match nth_error (inflight p) i with
      | None => p
      | Some t =>
          let '(t', w') := resumeTick (this p) env t (world p) in
          mkProcess w' (this p) (tasks p) (replaceNth i t' (inflight p)) (ticks_started p)
      end
  end.

Definition run (env : Env) (p : Process) (events : list Event) : Process :=
  fold_left (step env) events p.

(** ** server.js: POST /api/series *)

(** The request body; [members] holds the [content] of each entry of
    [posts]. *)
Record SeriesBody : Type := mkSeriesBody {
  name : string;
  shared_platforms : string;
  interval_minutes : Z;
  start_time : string;
  members : list string
}.

Record HttpReply : Type := mkHttpReply {
  code : Z;
  payload : json
}.

(** Run [m] and hand its outcome to the callback. *)
Definition attempt {S A : Type} (m : Eff S A) : Eff S (outcome A) :=
  fun s => let '(r, s') := m s in (Ok r, s').

Section SeriesRoute.

(** [new Date(text)], and the time zone of the process. *)
Variable parseDate : string -> JSDate.Date.
Variable zone : JSDate.Zone.

(** The [postTime] of the member at [index]. *)
Definition memberTime (body : SeriesBody) (index : Z) : JSDate.Date :=
  let postTime := parseDate (start_time body) in
  JSDate.setMinutes zone postTime
    (option_map (fun minutes => minutes + index * interval_minutes body)
                (JSDate.getMinutes zone postTime)).

(** [posts.forEach((post, index) => ...)], from [index] on. *)
Fixpoint forEachMember (body : SeriesBody) (seriesId : Z) (rest : list string)
    (index : Z) : Eff World unit :=
  match rest with
  | [] => ret tt
  | post :: rest' =>
      text <- toISOString (memberTime body index) ;;
      dbRun true (fun now => Sql.insert_series_post now post (shared_platforms body)
                               text seriesId (index + 1)) ;;
      forEachMember body seriesId rest' (index + 1)
  end.

(** The handler of [POST /api/series]. *)
Definition postSeries (body : SeriesBody) : Eff World HttpReply :=
  r <- attempt (dbRun true (fun now => Sql.insert_series now (name body)
                                         (shared_platforms body) (interval_minutes body)
                                         (start_time body))) ;;
  match r with
  | Thrown err => ret (mkHttpReply 500 (JObj [("error", JStr (message err))]))
  | Ok seriesId =>
      forEachMember body seriesId (members body) 0 ;;
      ret (mkHttpReply 200 (JObj [("id", JNum seriesId);
                                  ("message", JStr "Series scheduled successfully")]))
  end.

End SeriesRoute.

(** ** server.js: the other routes *)

(** The fields [POST /api/posts] reads from the request body; [None]
    when the form leaves a field out.  The two series fields are
    already read as the integers the columns keep. *)
Record PostBody : Type := mkPostBody {
  pb_content : option string;
  pb_platforms : option string;
  pb_scheduled_time : option string;
  pb_series_id : option Z;
  pb_series_order : option Z
}.

(** What a listing route answers. *)
Inductive Listing (A : Type) : Type :=
| Rows (rows : list A)
| Failure (code : Z) (error : string).
Arguments Rows {A} rows.
Arguments Failure {A} code error.

Module Statements.

(** [INSERT INTO posts (content, platforms, scheduled_time, media_path,
    series_id, series_order) VALUES (?, ?, ?, ?, ?, ?)]: the three
    NOT NULL columns refuse a missing value, first column first. *)
Definition insert_post (now : Z) (body : PostBody) (media : option string) (s : Store)
  : (string + Z) * Store :=
  match pb_content body, pb_platforms body, pb_scheduled_time body with
  | None, _, _ =>
      (inl "SQLITE_CONSTRAINT: NOT NULL constraint failed: posts.content", s)
  | Some _, None, _ =>
      (inl "SQLITE_CONSTRAINT: NOT NULL constraint failed: posts.platforms", s)
  | Some _, Some _, None =>
      (inl "SQLITE_CONSTRAINT: NOT NULL constraint failed: posts.scheduled_time", s)
  | Some text, Some targets, Some time =>
      let rowid := posts_seq s + 1 in
      (inr rowid,
       mkStore
         (posts s ++
          [mkPost rowid text targets time scheduled (pb_series_id body)
                  (pb_series_order body) media (JSDate.sqlText now) None None 0])%list
         (series s) (posting_history s) rowid (series_seq s) (history_seq s))
  end.

(** [DELETE FROM posts WHERE id = ? AND status = "scheduled"]; gives the
    number of rows deleted. *)
Definition delete_scheduled (postId : Z) (s : Store) : Z * Store :=
  let doomed (p : Post) := (id p =? postId) && Status_eqb (post_status p) scheduled in
  (Z.of_nat (List.length (filter doomed (posts s))),
   Sql.set_posts s (filter (fun p => negb (doomed p)) (posts s))).



Fixpoint insert_desc {A : Type} (key : A -> string) (x : A) (rows : list A) : list A :=
  match rows with
  | [] => [x]
  | y :: rest =>
      if String.leb (key y) (key x) then x :: y :: rest
      else y :: insert_desc key x rest
  end.

Fixpoint order_desc {A : Type} (key : A -> string) (rows : list A) : list A :=
  match rows with
  | [] => []
  | x :: rest => insert_desc key x (order_desc key rest)
  end.



(** [posting_history h JOIN posts p ON h.post_id = p.id]: the history
    row with the content and the scheduled time of each post it points
    to. *)
Definition join_posts (s : Store) (h : History) : list (History * string * string) :=
  map (fun p => (h, content p, scheduled_time p))
      (filter (fun p => id p =? h_post_id h) (posts s)).

(** [SELECT h.*, p.content, p.scheduled_time FROM posting_history h
    JOIN posts p ON h.post_id = p.id ORDER BY h.posted_at DESC
    LIMIT 100]. *)
Definition select_history (s : Store) : list (History * string * string) :=
  firstn 100
    (order_desc (fun row => h_posted_at (fst (fst row)))
       (flat_map (join_posts s) (posting_history s))).

End Statements.

(** The handler of [POST /api/posts], after multer has stored the file
    (if any) under the name [file]. *)
Definition postPost (body : PostBody) (file : option string) : Eff World HttpReply :=
  r <- attempt (dbRun true (fun now => Statements.insert_post now body file)) ;;
  match r with
  | Thrown err => ret (mkHttpReply 500 (JObj [("error", JStr (message err))]))
  | Ok (inl constraint) => ret (mkHttpReply 500 (JObj [("error", JStr constraint)]))
  | Ok (inr lastID) =>
      ret (mkHttpReply 200 (JObj [("id", JNum lastID);
                                  ("message", JStr "Post scheduled successfully")]))
  end.

(** The handler of [DELETE /api/posts/:id]; [postId] is the integer the
    [:id] segment stands for. *)
Definition deletePost (postId : Z) : Eff World HttpReply :=
  r <- attempt (dbRun true (fun _ => Statements.delete_scheduled postId)) ;;
  match r with
  | Thrown err => ret (mkHttpReply 500 (JObj [("error", JStr (message err))]))
  | Ok changes =>
      if changes =? 0
      then ret (mkHttpReply 404 (JObj [("error", JStr "Post not found or already posted")]))
      else ret (mkHttpReply 200 (JObj [("message", JStr "Post deleted successfully")]))
  end.


(** The handler of [GET /api/history]. *)
Definition getHistory : Eff World (Listing (History * string * string)) :=
  r <- attempt (dbRun true (fun _ s => (Statements.select_history s, s))) ;;
  match r with
  | Thrown err => ret (Failure 500 (message err))
  | Ok rows => ret (Rows rows)
  end.

(** ** The rest of the two services *)

Module LinkedInMore.

(** The constructor: the access token starts out as [null]. *)
Definition construct (LINKEDIN_CLIENT_ID LINKEDIN_CLIENT_SECRET LINKEDIN_REDIRECT_URI
                        : option string) : LinkedIn.LinkedInService :=
  LinkedIn.mkService LINKEDIN_CLIENT_ID LINKEDIN_CLIENT_SECRET LINKEDIN_REDIRECT_URI None.




End LinkedInMore.

Module TwitterMore.

(** The constructor. *)
Definition construct (TWITTER_API_KEY TWITTER_API_SECRET TWITTER_ACCESS_TOKEN
                        TWITTER_ACCESS_TOKEN_SECRET : option string)
  : Twitter.TwitterService :=
  Twitter.mkService TWITTER_API_KEY TWITTER_API_SECRET TWITTER_ACCESS_TOKEN
                    TWITTER_ACCESS_TOKEN_SECRET.

Definition verifyRequest (header : string) : Request :=
  mkRequest "GET" "https://api.twitter.com/1.1/account/verify_credentials.json"
    [("Authorization", header)] NoBody.

(** [validateCredentials()]. *)
Definition validateCredentials (self : Twitter.TwitterService) : Eff Net json :=
  tryCatch
    (header <- Twitter.authHeader "GET"
                 "https://api.twitter.com/1.1/account/verify_credentials.json" ;;
     response <- axios (verifyRequest header) ;;
     username <- getProp "screen_name" (data response) ;;
     name <- getProp "name" (data response) ;;
     ret (JObj [("valid", JBool true); ("username", username); ("name", name)]))
    (fun error =>
       ret (JObj [("valid", JBool false);
                  ("error", Js.or (responseData error) (JStr (message error)))])).

(** [getAccountInfo()]. *)
Definition getAccountInfo (self : Twitter.TwitterService) : Eff Net json :=
  validation <- validateCredentials self ;;
  if negb (Js.truthy (Js.prop "valid" validation))
  then throw (newError "Invalid Twitter credentials")
  else ret validation.

End TwitterMore.

(** The process environment the constructors read. *)
Record Credentials : Type := mkCredentials {
  TWITTER_API_KEY : option string;
  TWITTER_API_SECRET : option string;
  TWITTER_ACCESS_TOKEN : option string;
  TWITTER_ACCESS_TOKEN_SECRET : option string;
  LINKEDIN_CLIENT_ID : option string;
  LINKEDIN_CLIENT_SECRET : option string;
  LINKEDIN_REDIRECT_URI : option string
}.

(** [new Scheduler()]: the connection is open, the two services are
    fresh from their constructors and the scheduler does not run yet.
    Nothing in scheduler.js sets the LinkedIn access token afterwards. *)
Definition newScheduler (c : Credentials) : Scheduler :=
  mkScheduler true
    (TwitterMore.construct (TWITTER_API_KEY c) (TWITTER_API_SECRET c)
       (TWITTER_ACCESS_TOKEN c) (TWITTER_ACCESS_TOKEN_SECRET c))
    (LinkedInMore.construct (LINKEDIN_CLIENT_ID c) (LINKEDIN_CLIENT_SECRET c)
       (LINKEDIN_REDIRECT_URI c))
    false.

(** ** Vocabulary of the statements *)

(** The row of a post in the store. *)
Definition find_post (postId : Z) (s : Store) : option Post :=
  find (fun p => id p =? postId) (posts s).

(** A store that works: the connection is open and no statement to
    come is going to fail. *)
Definition healthy (self : Scheduler) (w : World) : Prop :=
  db_open self = true /\ Forall (fun f => f = None) (faults w).

(** The network hands its waiting times over to the clock. *)
Definition pending (script : list Exchange) : Z :=
  fold_right (fun x acc => Z.of_N (elapsed x) + acc) 0 script.

Definition advances (n n' : Net) : Prop :=
  clock n <= clock n' /\
  clock n' + pending (net_script n') <= clock n + pending (net_script n).

(** Whatever the network takes, a retry asked for now or later falls on
    a valid time value. *)
Definition retryInRange (env : Env) (n : Net) : Prop :=
  - JSDate.maxTime <= clock n + retryDelay env /\
  clock n + pending (net_script n) + retryDelay env <= JSDate.maxTime.

(** What the publishers answer, platform after platform, when
    [processPost] walks the platforms [rest] of [post] from [w] on. *)
Fixpoint attempts (self : Scheduler) (post : Post) (rest : list string) (w : World)
  : list (string * outcome json) :=
  match rest with
  | [] => []
  | platform :: rest' =>
      (platform, fst (postToPlatform self post (Str.trim platform) w))
      :: attempts self post rest' (snd (attemptPlatform self post platform w))
  end.

(** The same for a whole [processPost], which first marks the post. *)
Definition publishOutcomes (self : Scheduler) (post : Post) (w : World)
  : list (string * outcome json) :=
  attempts self post (Str.split "," (platforms post))
    (snd (updatePostStatus self (id post) posting None None w)).

Definition delivered (a : string * outcome json) : bool :=
  match snd a with
  | Ok _ => true
  | Thrown _ => false
  end.


(** ["{platform}: {message}"] for each platform that rejected the post. *)
Fixpoint errorEntries (outs : list (string * outcome json)) : list string :=
  match outs with
  | [] => []
  | (platform, Ok _) :: rest => errorEntries rest
  | (platform, Thrown e) :: rest => (platform ++ ": " ++ message e) :: errorEntries rest
  end.

(** What a history row says, apart from its rowid and its time. *)
Definition historyFacts (h : History) : Z * string * Status * option string :=
  (h_post_id h, h_platform h, h_status h, h_error_message h).

Definition expectedFacts (postId : Z) (a : string * outcome json)
  : Z * string * Status * option string :=
  match snd a with
  | Ok _ => (postId, fst a, posted, None)
  | Thrown e => (postId, fst a, failed, Some (message e))
  end.

(** The row of [post] once [updatePostStatus] has run on it. *)
Definition withStatus (post : Post) (st : Status) (postedAt errorMessage : option string)
  : Post :=
  mkPost (id post) (content post) (platforms post) (scheduled_time post) st
         (series_id post) (series_order post) (media_path post) (created_at post)
         postedAt errorMessage (retry_count post).


(** [m] moves the state along the relation [R], whether it returns or
    throws. *)
Definition keeps {S A : Type} (R : S -> S -> Prop) (m : Eff S A) : Prop :=
  forall s, R s (snd (m s)).

(** How many platforms took the post. *)
Definition successes (outs : list (string * outcome json)) : Z :=
  Z.of_nat (List.length (filter delivered outs)).

(** The row of [post] once [scheduleRetry] has run on it at clock time
    [now], after [processPost] had marked it. *)
Definition rescheduled (env : Env) (post : Post) (now : Z) : Post :=
  mkPost (id post) (content post) (platforms post)
         (JSDate.isoText (now + retryDelay env)) scheduled
         (series_id post) (series_order post) (media_path post) (created_at post)
         None (Some ("Retry " ++ Str.ofZ (retry_count post + 1))) (retry_count post + 1).

(** What the world does outside the store between two states. *)
Definition outside (w w' : World) : Prop :=
  advances (net w) (net w') /\ store w' = store w /\
  faults w' = faults w /\ scheduler_log w' = scheduler_log w.

(** The row [processPost] leaves for [post], given what the publishers
    answered and the clock at the end. *)
Definition verdict (env : Env) (post : Post) (outs : list (string * outcome json))
    (now : Z) : Post :=
  if forallb delivered outs
  then withStatus post posted (Some (JSDate.isoText now)) None
  else if existsb delivered outs
  then withStatus post partial None (Some (Str.join "; " (errorEntries outs)))
  else if retry_count post <? maxRetries env
  then rescheduled env post now
  else withStatus post failed None (Some (Str.join "; " (errorEntries outs))).

(** The instant whose local time is the local time of [T] moved on by
    [ms] milliseconds. *)
Definition wallClock (zone : JSDate.Zone) (T ms : Z) : Z :=
  JSDate.UTC zone (JSDate.LocalTime zone T + ms).

(** The rows [POST /api/series] adds for the members [rest], the first
    of them at [index], when the series starts at time value [T], has
    rowid [seriesId] and the last post rowid given out is [rowid];
    [I] is the interval in minutes and [stamp] the creation time. *)
Fixpoint expanded (zone : JSDate.Zone) (shared : string) (T I seriesId : Z)
    (stamp : string) (rest : list string) (index rowid : Z) : list Post :=
  match rest with
  | [] => []
  | text :: rest' =>
      mkPost (rowid + 1) text shared
             (JSDate.isoText (wallClock zone T (index * (I * 60000)))) scheduled
             (Some seriesId) (Some (index + 1)) None stamp None None 0
      :: expanded zone shared T I seriesId stamp rest' (index + 1) (rowid + 1)
  end.

(** The files stay what they were. *)
Definition sameDisk (n n' : Net) : Prop := files n' = files n.

(** [fs.existsSync(path)] as a reading of the state. *)
Definition onDisk (path : string) (n : Net) : bool :=
  existsb (fun f => String.eqb (fst f) path) (files n).




(** A tick in flight run to its end with nothing in between. *)
Fixpoint finishLoop (self : Scheduler) (env : Env) (batch : list Post) (w : World)
  : World :=
  match batch with
  | [] => w
  | post :: rest =>
      match resumeTick self env (Looping (post :: rest)) w with
      | (Some _, w') => finishLoop self env rest w'
      | (None, w') => w'
      end
  end.

Definition finishTick (self : Scheduler) (env : Env) (t : Tick) (w : World) : World :=
  match t with
  | Querying _ =>
      match resumeTick self env t w with
      | (Some (Looping batch), w') => finishLoop self env batch w'
      | (_, w') => w'
      end
  | Looping batch => finishLoop self env batch w
  end.




(** The columns no statement of the scheduler writes. *)
Definition frozen (p : Post)
  : Z * string * string * option Z * option Z * option string * string :=
  (id p, content p, platforms p, series_id p, series_order p, media_path p, created_at p).

(** A row before and after: its frozen columns are the same, and the
    whole row is, unless its rowid is one of [ids]. *)
Definition rowKept (ids : list Z) (p p' : Post) : Prop :=
  frozen p' = frozen p /\ (~ In (id p) ids -> p' = p).

(** What the scheduler may do to the store when it works on the posts
    [ids]: rewrite the other columns of those rows, and add history. *)
Definition touchesOnly (ids : list Z) (w w' : World) : Prop :=
  Forall2 (rowKept ids) (posts (store w)) (posts (store w')) /\
  (exists added,
     posting_history (store w') = (posting_history (store w) ++ added)%list) /\
  series (store w') = series (store w) /\
  posts_seq (store w') = posts_seq (store w) /\
  series_seq (store w') = series_seq (store w).

(** Rowids are unique and none is above the last one given out. *)
Definition wellKeyed (s : Store) : Prop :=
  NoDup (map id (posts s)) /\ Forall (fun p => id p <= posts_seq s) (posts s).

(** No retry count is above [limit]. *)
Definition bounded (limit : Z) (s : Store) : Prop :=
  Forall (fun p => retry_count p <= limit) (posts s).

(** The rows that share the rowid of [post] also share its retry
    count: the snapshot the tick holds is still true. *)
Definition snapshotHolds (post : Post) (s : Store) : Prop :=
  Forall (fun p => id p = id post -> retry_count p = retry_count post) (posts s).

(** What every operation on the store respects, rowids being unique:
    rowids stay unique, a post that has left [scheduled] stays in the
    table exactly as it is, and history is only added to. *)
Definition evolves (s s' : Store) : Prop :=
  wellKeyed s ->
  wellKeyed s' /\
  (forall p, In p (posts s) -> post_status p <> scheduled -> In p (posts s')) /\
  (exists added, posting_history s' = (posting_history s ++ added)%list).

(** ** Everything that happens to the store *)

(** One tick of the scheduler, a request to one of the routes that
    write, or the world outside moving on: time passes, files and the
    network change, statements to come are going to fail. *)
Inductive Op : Type :=
| DoTick
| DoCreatePost (body : PostBody) (file : option string)
| DoCreateSeries (body : SeriesBody)
| DoDelete (postId : Z)
| Elsewhere (n : Net) (plan : list (option string)).

Section Operations.

Variable self : Scheduler.
Variable env : Env.
Variable parseDate : string -> JSDate.Date.
Variable zone : JSDate.Zone.

Definition perform (w : World) (op : Op) : World :=
  match op with
  | DoTick => snd (checkAndPostScheduledPosts self env w)
  | DoCreatePost body file => snd (postPost body file w)
  | DoCreateSeries body => snd (postSeries parseDate zone body w)
  | DoDelete postId => snd (deletePost postId w)
  | Elsewhere n plan => mkWorld (store w) n plan (scheduler_log w)
  end.

Definition performAll (w : World) (ops : list Op) : World := fold_left perform ops w.

End Operations.

(** Rowids and retry counts are what they were, row by row. *)
Definition sameCounts (w w' : World) : Prop :=
  map (fun p => (id p, retry_count p)) (posts (store w')) =
  map (fun p => (id p, retry_count p)) (posts (store w)).

(** With the snapshot of [post] still true and no retry count above
    [limit] before, none is above [limit] after. *)
Definition keepsBudget (limit : Z) (post : Post) (w w' : World) : Prop :=
  snapshotHolds post (store w) -> bounded limit (store w) -> bounded limit (store w').

(** Rowids are unique and below the counter, and no retry count is
    above [limit]. *)
Definition sound (limit : Z) (s : Store) : Prop := wellKeyed s /\ bounded limit s.

(** The rowid [i] has been given out and no row has it. *)
Definition retired (i : Z) (s : Store) : Prop :=
  i <= posts_seq s /\ ~ In i (map id (posts s)).

(** The row [p] is in the table, whose rowids are sound. *)
Definition holds (p : Post) (s : Store) : Prop := wellKeyed s /\ In p (posts s).

(** The history starts with the entries [old]. *)
Definition extends (old : list History) (s : Store) : Prop :=
  exists added, posting_history s = (old ++ added)%list.

(** [I] true of the store before is true of the store after. *)
Definition preserves (I : Store -> Prop) (w w' : World) : Prop :=
  I (store w) -> I (store w').

(** The table of posts with one row more, under the next rowid. *)
Definition withRow (s : Store) (p : Post) : Store :=
  mkStore (posts s ++ [p])%list (series s) (posting_history s) (posts_seq s + 1)
          (series_seq s) (history_seq s).

(** A platform entry the scheduler cannot publish to: a name that is
    neither of the two [postToPlatform] knows, twitter without an API
    key, linkedin without an access token. *)
Definition unreachable (self : Scheduler) (piece : string) : bool :=
  let platform := Str.trim piece in
  if String.eqb platform "twitter"
  then negb (configured (Twitter.apiKey (twitterService self)))
  else if String.eqb platform "linkedin"
  then negb (configured (LinkedIn.accessToken (linkedinService self)))
  else true.

(** An entry that stands for LinkedIn. *)
Definition isLinkedin (piece : string) : bool := String.eqb (Str.trim piece) "linkedin".

(** The platform list of [p] has an entry that [dead] picks. *)
Definition names (dead : string -> bool) (p : Post) : bool :=
  existsb dead (Str.split "," (platforms p)).

(** No row with the rowid [i] is [posted]. *)
Definition notPosted (i : Z) (s : Store) : Prop :=
  Forall (fun r => id r = i -> post_status r <> posted) (posts s).

(** The rows that share the rowid of [p] also share its platform list. *)
Definition known (p : Post) (s : Store) : Prop :=
  Forall (fun r => id r = id p -> platforms r = platforms p) (posts s).

(** No post with an entry that [dead] picks is [posted]. *)
Definition neverPosted (dead : string -> bool) (s : Store) : Prop :=
  Forall (fun r => names dead r = true -> post_status r <> posted) (posts s).

(** The table of posts is what it was. *)
Definition samePosts (w w' : World) : Prop := posts (store w') = posts (store w).

(** The orders of the two listings, on the text of a column. *)
Definition newerFirst {A : Type} (key : A -> string) (a b : A) : Prop :=
  String.leb (key b) (key a) = true.


(** The year of a 400-year era (counted from the first of March) that
    the day [doe] of the era falls in, and the first day of a year. *)
Definition yearOfEra (doe : Z) : Z :=
  (doe - doe / 1460 + doe / 36524 - doe / 146096) / 365.

Definition yearStart (yoe : Z) : Z := 365 * yoe + yoe / 4 - yoe / 100.

(** Year, month and day of the day [doe] of an era, the year counted
    from the start of the era. *)
Definition ofDoe (doe : Z) : Z * Z * Z :=
  let yoe := yearOfEra doe in
  let doy := doe - yearStart yoe in
  let mp := (5 * doy + 2) / 153 in
  let d := doy - (153 * mp + 2) / 5 + 1 in
  let m := if mp <? 10 then mp + 3 else mp - 9 in
  (yoe + (if m <=? 2 then 1 else 0), m, d).

(** A number that orders dates as the calendar does. *)
Definition dateKey (ymd : Z * Z * Z) : Z :=
  let '(y, m, d) := ymd in (y * 13 + m) * 32 + d.

(** The same for instants: the date, then the time of day. *)
Definition instantKey (t : Z) : Z :=
  dateKey (JSDate.civil (JSDate.Day t)) * JSDate.msPerDay + t mod JSDate.msPerDay.

(** The time values [toISOString] writes with a year of four digits:
    0000-01-01T00:00:00.000Z to 9999-12-31T23:59:59.999Z. *)
Definition fourDigitYear (t : Z) : Prop := -62167219200000 <= t <= 253402300799999.

(** A request to one of the two endpoints of Twitter the code uses. *)
Definition toTwitter (r : Request) : Prop :=
  url r = "https://api.twitter.com/2/tweets" \/
  url r = "https://upload.twitter.com/1.1/media/upload.json".

(** The requests put on the wire between two states of the network all
    went to Twitter. *)
Definition sendsToTwitter (n n' : Net) : Prop :=
  exists added, sent n' = (sent n ++ added)%list /\ Forall toTwitter added.

(** ** Sample data *)

Module Sample.

Definition twitter : Twitter.TwitterService :=
  Twitter.mkService (Some "key") (Some "secret") (Some "token") (Some "token-secret").

Definition linkedin : LinkedIn.LinkedInService :=
  LinkedIn.mkService (Some "client") (Some "client-secret") None (Some "li-token").

Definition scheduler : Scheduler := mkScheduler true twitter linkedin false.

Definition env : Env := mkEnv None None.

(** 2024-03-01T10:00:00.000Z *)
Definition ten : Z := 1709287200000.

Definition post (postId : Z) (text platforms time : string) (st : Status) (retries : Z)
  : Post :=
  mkPost postId text platforms time st None None None "2024-02-29 08:00:00" None None retries.

Definition early : Post :=
  post 1 "first" "twitter" "2024-03-01T09:00:00.000Z" scheduled 0.
Definition late : Post :=
  post 2 "second" "twitter" "2024-03-01T09:30:00.000Z" scheduled 0.
Definition inFlight : Post :=
  post 3 "third" "twitter" "2024-03-01T08:00:00.000Z" posting 0.
Definition notYet : Post :=
  post 4 "fourth" "twitter" "2024-03-01T11:00:00.000Z" scheduled 0.

Definition storeOf (rows : list Post) : Store := mkStore rows [] [] 4 0 0.

Definition netOf (script : list Exchange) (disk : list (string * string)) : Net :=
  mkNet ten script [] disk (fun method url => "OAuth " ++ method ++ " " ++ url).

Definition worldOf (rows : list Post) (script : list Exchange)
    (plan : list (option string)) : World :=
  mkWorld (storeOf rows) (netOf script []) plan [].

(** Twitter accepts a tweet after [ms] milliseconds. *)
Definition tweetAccepted (ms : N) : Exchange :=
  mkExchange ms (Replied 201 (JObj [("data", JObj [("id", JStr "1001")])])).

(** A reply with an error status and a message. *)
Definition refused (ms : N) (st : Z) : Exchange :=
  mkExchange ms (Replied st (JObj [("message", JStr "no")])).

End Sample.

Module Run.

(** One due post for Twitter, which takes it after a second and a half. *)
Definition oneTweet : World :=
  Sample.worldOf [Sample.early] [Sample.tweetAccepted 1500] [].

(** A post for both platforms that has been retried twice already:
    Twitter takes it, LinkedIn answers 401 to the profile request. *)
Definition both : Post :=
  Sample.post 5 "both" "twitter, linkedin" "2024-03-01T09:00:00.000Z" scheduled 2.





End Run.

Module Tick.



End Tick.

Module Series.

(** Three posts, an hour apart, from 2024-03-01T10:00:00.000Z on. *)
Definition body : SeriesBody :=
  mkSeriesBody "launch" "twitter,linkedin" 60 "2024-03-01T10:00:00.000Z"
    ["one"; "two"; "three"].

(** A [new Date(text)] that knows the one text used here. *)
Definition parseDate (text : string) : JSDate.Date :=
  if String.eqb text "2024-03-01T10:00:00.000Z" then Some Sample.ten else None.

(** A zone that stays two hours east of UTC. *)
Definition plusTwo : JSDate.Zone := JSDate.mkZone (fun _ => 7200000) (fun _ => 7200000).

Definition world : World := Sample.worldOf [Sample.early] [] [].

(** New York around the night of 2024-03-10, when 02:00 local time
    (07:00 UTC) becomes 03:00 and the offset goes from five hours west
    to four; the hour that is skipped counts with the offset before. *)
Definition newYork : JSDate.Zone :=
  JSDate.mkZone
    (fun t => if t <? 1710054000000 then -18000000 else -14400000)
    (fun l => if l <? 1710039600000 then -18000000 else -14400000).

(** Three posts, two hours apart, from 23:30 on 2024-03-09 in New York
    (04:30 UTC on the 10th). *)
Definition overnight : SeriesBody :=
  mkSeriesBody "overnight" "twitter" 120 "2024-03-09T23:30" ["one"; "two"; "three"].

Definition parseLocal (text : string) : JSDate.Date :=
  if String.eqb text "2024-03-09T23:30" then Some 1710045000000 else None.

End Series.

Module Media.

(** A post with a picture that is not in the uploads directory. *)
Definition path : string := "./uploads/media-1709287200000-1.png".

Definition net : Net :=
  Sample.netOf
    [mkExchange 200 (Replied 200 (JObj [("id", JStr "abc")]));
     mkExchange 300 (Replied 201 (JObj [("id", JStr "urn:li:share:7")]))]
    [].

End Media.

Module Loop.

Definition idle (w : World) : Process := mkProcess w Sample.scheduler 0 [] 0.

(** Two due posts; Twitter takes 61 seconds over the first one, so
    the next minute comes while the first tick is still in flight. *)
Definition slow : World :=
  Sample.worldOf [Sample.early; Sample.late]
    [Sample.tweetAccepted 61000; Sample.tweetAccepted 1500; Sample.tweetAccepted 1500] [].

(** The first tick asks for the due posts and publishes the first one;
    the timer fires again before it gets to the second. *)
Definition untilSecondTick : list Event :=
  [CallStart; TimerFires; Resume 0%nat; Resume 0%nat; TimerFires].

(** The second tick asks for the due posts and publishes what it got;
    then the first tick goes on with its own batch. *)
Definition thenBoth : list Event :=
  (untilSecondTick ++ [Resume 1%nat; Resume 1%nat; Resume 0%nat])%list.

(** What a request says, for a tweet. *)
Definition tweetText (req : Request) : json :=
  match body req with
  | JsonBody j => Js.prop "text" j
  | _ => JUndefined
  end.

End Loop.

Module Day.

(** Four posts, the first two due and the third left in [posting];
    Twitter refuses the first tweet and takes the others, and the third
    statement on the store is going to fail. *)
Definition world : World :=
  Sample.worldOf [Sample.early; Sample.late; Sample.inFlight; Sample.notYet]
    [Sample.refused 1500 500; Sample.tweetAccepted 1500; Sample.tweetAccepted 900]
    [None; None; Some "SQLITE_BUSY: database is locked"].

Definition fifth : PostBody :=
  mkPostBody (Some "fifth") (Some "twitter") (Some "2024-03-01T09:45:00.000Z") None None.

(** A day of requests and ticks. *)
Definition ops : list Op :=
  [DoCreatePost fifth None; DoTick; DoDelete 4; DoCreateSeries Series.body;
   Elsewhere (Sample.netOf [Sample.tweetAccepted 700] []) []; DoDelete 3; DoTick].

Definition after : World :=
  performAll Sample.scheduler Sample.env Series.parseDate Series.plusTwo world ops.

End Day.

Module Reach.


(** A post for both platforms. *)
Definition both : Post :=
  Sample.post 2 "second" "twitter,linkedin" "2024-03-01T09:30:00.000Z" scheduled 0.

Definition worldOf (p : Post) : World :=
  Sample.worldOf [Sample.early; p] [Sample.tweetAccepted 1500; Sample.tweetAccepted 1500] [].

(** The environment of a process with every credential set. *)
Definition credentials : Credentials :=
  mkCredentials (Some "key") (Some "secret") (Some "token") (Some "token-secret")
                (Some "client") (Some "client-secret") (Some "http://localhost/callback").

End Reach.

Module Upload.

(** The picture is on disk; the upload endpoint answers 401. *)
Definition net : Net :=
  Sample.netOf [Sample.refused 900 401] [(Media.path, "89504e47")].

(** LinkedIn answers 401 to the profile request. *)
Definition expired : Net := Sample.netOf [Sample.refused 700 401] [].

(** Twitter accepts the credentials. *)
Definition verified : Net :=
  Sample.netOf
    [mkExchange 400 (Replied 200 (JObj [("screen_name", JStr "sidekick");
                                        ("name", JStr "Syntax Sidekick")]))] [].

End Upload.

(** * Properties *)

(** ** The helpers at work *)

Example isoText_epoch : JSDate.isoText 0 = "1970-01-01T00:00:00.000Z".
Proof. reflexivity. Qed.

Example isoText_leap_day : JSDate.isoText 1709210096789 = "2024-02-29T12:34:56.789Z".
Proof. vm_compute. reflexivity. Qed.

Example isoText_before_the_epoch : JSDate.isoText (-1) = "1969-12-31T23:59:59.999Z".
Proof. vm_compute. reflexivity. Qed.

Example isoText_last_instant :
  JSDate.isoText JSDate.maxTime = "+275760-09-13T00:00:00.000Z".
Proof. vm_compute. reflexivity. Qed.

Example sqlText_leap_day : JSDate.sqlText 1709210096789 = "2024-02-29 12:34:56".
Proof. vm_compute. reflexivity. Qed.

Example split_platforms : Str.split "," "twitter, linkedin" = ["twitter"; " linkedin"].
Proof. reflexivity. Qed.

Example split_empty : Str.split "," "" = [""].
Proof. reflexivity. Qed.

Example split_gaps : Str.split "," "a,,b," = ["a"; ""; "b"; ""].
Proof. reflexivity. Qed.

Example trim_platform : Str.trim "  linkedin " = "linkedin".
Proof. reflexivity. Qed.

Example ofZ_numbers : (Str.ofZ 0, Str.ofZ 12, Str.ofZ (-3)) = ("0", "12", "-3").
Proof. reflexivity. Qed.

Example mediaType_upper_case : Twitter.getMediaType "./uploads/media-1.JPG" = "image/jpeg".
Proof. reflexivity. Qed.

Example text_order_is_bytewise :
  (String.leb "2024-03-01T10:00" "2024-03-01T10:00:00.000Z",
   String.leb "2024-03-01T10:00:00.000Z" "2024-03-01T09:59:59.999Z") = (true, false).
Proof. reflexivity. Qed.

(** ** The order SQLite puts on text *)

Lemma string_compare_refl (s : string) : String.compare s s = Eq.
Proof.
  induction s as [|a s IH]; simpl; [reflexivity|].
  unfold Ascii.compare. now rewrite N.compare_refl.
Qed.

Lemma string_compare_trans_lt (a : string) :
  forall b c, String.compare a b = Lt -> String.compare b c = Lt ->
              String.compare a c = Lt.
Proof.
  induction a as [|x a IH]; intros [|y b] [|z c]; simpl; try congruence.
  unfold Ascii.compare.
  destruct (N.compare_spec (N_of_ascii x) (N_of_ascii y)) as [Exy|Lxy|Gxy];
    try discriminate;
    destruct (N.compare_spec (N_of_ascii y) (N_of_ascii z)) as [Eyz|Lyz|Gyz];
    try discriminate; intros Hab Hbc.
  - rewrite Exy, Eyz, N.compare_refl. eauto.
  - rewrite Exy. now apply N.compare_lt_iff in Lyz as ->.
  - rewrite <- Eyz. now apply N.compare_lt_iff in Lxy as ->.
  - assert (N_of_ascii x < N_of_ascii z)%N as L by lia.
    now apply N.compare_lt_iff in L as ->.
Qed.

Lemma string_leb_trans (a b c : string) :
  String.leb a b = true -> String.leb b c = true -> String.leb a c = true.
Proof.
  unfold String.leb.
  destruct (String.compare a b) eqn:Hab; try discriminate;
    destruct (String.compare b c) eqn:Hbc; try discriminate; intros _ _.
  - apply String.compare_eq_iff in Hab, Hbc. subst. now rewrite string_compare_refl.
  - apply String.compare_eq_iff in Hab. subst. now rewrite Hbc.
  - apply String.compare_eq_iff in Hbc. subst. now rewrite Hab.
  - now rewrite (string_compare_trans_lt a b c Hab Hbc).
Qed.



(** ** ORDER BY *)

Lemma insert_by_time_perm (p : Post) (rows : list Post) :
  Permutation (p :: rows) (Sql.insert_by_time p rows).
Proof.
  induction rows as [|q rows IH]; simpl; [reflexivity|].
  destruct (String.leb (scheduled_time p) (scheduled_time q)); [reflexivity|].
  rewrite perm_swap. now constructor.
Qed.

Lemma order_by_time_perm (rows : list Post) :
  Permutation rows (Sql.order_by_time rows).
Proof.
  induction rows as [|p rows IH]; simpl; [constructor|].
  rewrite <- insert_by_time_perm. now constructor.
Qed.



Lemma Status_eqb_eq (a b : Status) : Status_eqb a b = true <-> a = b.
Proof. destruct a, b; simpl; split; congruence. Qed.

Lemma select_due_In (now : string) (s : Store) (p : Post) :
  In p (Sql.select_due now s) <->
  In p (posts s) /\ post_status p = scheduled /\ String.leb (scheduled_time p) now = true.
Proof.
  unfold Sql.select_due.
  split.
  - intros H. apply (Permutation_in _ (Permutation_sym (order_by_time_perm _))) in H.
    apply filter_In in H as [Hin Hdue]. unfold Sql.is_due in Hdue.
    apply andb_true_iff in Hdue as [Hs Ht]. apply Status_eqb_eq in Hs. auto.
  - intros (Hin & Hs & Ht).
    apply (Permutation_in _ (order_by_time_perm _)).
    apply filter_In. split; [exact Hin|].
    unfold Sql.is_due. rewrite Hs, Ht. reflexivity.
Qed.

(** ** Statements on a working store *)

Lemma healthy_faults (self : Scheduler) (w : World) :
  healthy self w ->
  db_open self = true /\
  (faults w = [] \/ exists rest, faults w = None :: rest /\ Forall (fun f => f = None) rest).
Proof.
  intros [Ho Hf]. split; [exact Ho|].
  destruct (faults w) as [|f rest]; [now left|right].
  inversion Hf; subst. now exists rest.
Qed.

Lemma dbRun_healthy {A : Type} (self : Scheduler) (stmt : Z -> Store -> A * Store)
    (w : World) :
  healthy self w ->
  exists w',
    dbRun (db_open self) stmt w = (Ok (fst (stmt (clock (net w)) (store w))), w') /\
    store w' = snd (stmt (clock (net w)) (store w)) /\
    net w' = net w /\ scheduler_log w' = scheduler_log w /\ healthy self w'.
Proof.
  intros H. destruct (healthy_faults self w H) as [Ho [Hf|(rest & Hf & Hrest)]];
    unfold dbRun; rewrite Ho, Hf; simpl;
    destruct (stmt (clock (net w)) (store w)) as [a s'];
    eexists; (split; [reflexivity|]); simpl; repeat split; auto.
Qed.

Lemma dbRun_ok {A : Type} (stmt : Z -> Store -> A * Store) (w : World) :
  hd None (faults w) = None ->
  dbRun true stmt w =
  (Ok (fst (stmt (clock (net w)) (store w))),
   mkWorld (snd (stmt (clock (net w)) (store w))) (net w) (tl (faults w))
           (scheduler_log w)).
Proof.
  intros H. unfold dbRun. simpl.
  destruct (faults w) as [|[msg|] rest]; simpl in *; try discriminate;
    now destruct (stmt (clock (net w)) (store w)).
Qed.

(** ** The due-post query *)



(** C6.  Whatever the store and the time, the rows the due-post query
    answers with all have status scheduled; a row whose status is
    posting is never among them, however early its scheduled time. *)
Theorem posting_never_due (self : Scheduler) (now : string) (w w' : World)
    (rows : list Post) :
  getScheduledPosts self now w = (Ok rows, w') ->
  (forall q, In q rows -> post_status q = scheduled) /\
  (forall p, post_status p = posting -> ~ In p rows).
Proof.
  unfold getScheduledPosts, dbRun. intros H.
  assert (rows = Sql.select_due now (store w)) as ->.
  { destruct (db_open self); simpl in H; [|discriminate].
    destruct (faults w) as [|[msg|] rest]; simpl in H; congruence. }
  split.
  - intros q Hq. now apply select_due_In in Hq.
  - intros p Hp Hin. apply select_due_In in Hin as (_ & Hs & _). congruence.
Qed.

Lemma posting_never_due_witness :
  String.leb (scheduled_time Sample.inFlight) "2024-03-01T10:00:00.000Z" = true /\
  ~ In Sample.inFlight [Sample.early; Sample.late].
Proof.
  split; [reflexivity|].
  exact (proj2 (posting_never_due Sample.scheduler "2024-03-01T10:00:00.000Z"
                  (Sample.worldOf [Sample.late; Sample.inFlight; Sample.notYet; Sample.early]
                     [] [])
                  _ [Sample.early; Sample.late] eq_refl)
               Sample.inFlight eq_refl).
Defined.

(** ** What an effect leaves of the state *)

Section Keeps.

Context {S : Type} (R : S -> S -> Prop).
Hypothesis R_refl : forall s, R s s.
Hypothesis R_trans : forall a b c, R a b -> R b c -> R a c.

Lemma keeps_ret {A : Type} (a : A) : keeps R (ret a).
Proof. intros s. apply R_refl. Qed.

Lemma keeps_throw {A : Type} (e : Error) : keeps R (@throw S A e).
Proof. intros s. apply R_refl. Qed.

Lemma keeps_gets {A : Type} (f : S -> A) : keeps R (gets f).
Proof. intros s. apply R_refl. Qed.

Lemma keeps_bind {A B : Type} (m : Eff S A) (k : A -> Eff S B) :
  keeps R m -> (forall a, keeps R (k a)) -> keeps R (bind m k).
Proof.
  intros Hm Hk s. unfold bind. specialize (Hm s).
  destruct (m s) as [[a|e] s']; simpl in *; [|exact Hm].
  eapply R_trans; [exact Hm|apply Hk].
Qed.

Lemma keeps_tryCatch {A : Type} (m : Eff S A) (h : Error -> Eff S A) :
  keeps R m -> (forall e, keeps R (h e)) -> keeps R (tryCatch m h).
Proof.
  intros Hm Hh s. unfold tryCatch. specialize (Hm s).
  destruct (m s) as [[a|e] s']; simpl in *; [exact Hm|].
  eapply R_trans; [exact Hm|apply Hh].
Qed.

Lemma keeps_getProp (k : string) (v : json) : keeps R (@getProp S k v).
Proof. unfold getProp. destruct (Js.nullish v); [apply keeps_throw|apply keeps_ret]. Qed.

Lemma keeps_toISOString (d : JSDate.Date) : keeps R (@toISOString S d).
Proof. destruct d; [apply keeps_ret|apply keeps_throw]. Qed.

End Keeps.

Lemma pending_nonneg (script : list Exchange) : 0 <= pending script.
Proof. induction script as [|x script IH]; simpl; lia. Qed.

Lemma advances_refl (n : Net) : advances n n.
Proof. unfold advances. lia. Qed.

Lemma advances_trans (a b c : Net) : advances a b -> advances b c -> advances a c.
Proof. unfold advances. lia. Qed.

#[local] Hint Resolve advances_refl advances_trans : core.

Lemma sameDisk_refl (n : Net) : sameDisk n n.
Proof. reflexivity. Qed.

Lemma sameDisk_trans (a b c : Net) : sameDisk a b -> sameDisk b c -> sameDisk a c.
Proof. unfold sameDisk. congruence. Qed.

(** Every step of a publisher is one of these. *)
Ltac keeps_side :=
  solve [ exact advances_refl | exact advances_trans
        | exact sameDisk_refl | exact sameDisk_trans | auto ].

Ltac keeps_step :=
  first
    [ apply keeps_ret; keeps_side
    | apply keeps_throw; keeps_side
    | apply keeps_gets; keeps_side
    | apply keeps_getProp; keeps_side
    | apply keeps_toISOString; keeps_side
    | apply keeps_bind; [keeps_side | | intros ]
    | apply keeps_tryCatch; [keeps_side | | intros ]
    | match goal with
      | |- keeps _ (if ?c then _ else _) => destruct c
      | |- keeps _ (match ?x with _ => _ end) => destruct x
      end ].

Lemma keeps_axios (req : Request) : keeps advances (axios req).
Proof.
  intros n. unfold axios, advances.
  destruct (net_script n) as [|x rest] eqn:Hs; simpl; [lia|].
  destruct (reply x) as [st d|reason]; [destruct ((200 <=? st) && (st <? 300))|];
    simpl; lia.
Qed.

Lemma keeps_readFileSync (path : string) : keeps advances (readFileSync path).
Proof.
  intros n. unfold readFileSync.
  destruct (find _ (files n)); simpl; apply advances_refl.
Qed.

Lemma keeps_existsSync (path : string) : keeps advances (existsSync path).
Proof. apply keeps_gets, advances_refl. Qed.

Lemma keeps_authHeader (method url : string) :
  keeps advances (Twitter.authHeader method url).
Proof. apply keeps_gets, advances_refl. Qed.

#[local] Hint Resolve keeps_axios keeps_readFileSync keeps_existsSync keeps_authHeader
  : core.

Lemma keeps_getProfile (self : LinkedIn.LinkedInService) :
  keeps advances (LinkedIn.getProfile self).
Proof. unfold LinkedIn.getProfile. repeat keeps_step; auto. Qed.

#[local] Hint Resolve keeps_getProfile : core.

Lemma keeps_uploadImage (self : LinkedIn.LinkedInService) (path : string) :
  keeps advances (LinkedIn.uploadImage self path).
Proof. unfold LinkedIn.uploadImage. repeat keeps_step; auto. Qed.

#[local] Hint Resolve keeps_uploadImage : core.

Lemma keeps_postUpdate (self : LinkedIn.LinkedInService) (text : string)
    (mediaPath : option string) :
  keeps advances (LinkedIn.postUpdate self text mediaPath).
Proof. unfold LinkedIn.postUpdate. repeat keeps_step; auto. Qed.

Lemma keeps_uploadMedia (self : Twitter.TwitterService) (path : string) :
  keeps advances (Twitter.uploadMedia self path).
Proof. unfold Twitter.uploadMedia. repeat keeps_step; auto. Qed.

#[local] Hint Resolve keeps_uploadMedia : core.

Lemma keeps_postTweet (self : Twitter.TwitterService) (text : string)
    (mediaPath : option string) :
  keeps advances (Twitter.postTweet self text mediaPath).
Proof. unfold Twitter.postTweet. repeat keeps_step; auto. Qed.

(** ** One platform, then all of them, on a working store *)

Lemma outside_refl (w : World) : outside w w.
Proof. unfold outside. auto. Qed.

Lemma liftNet_outside {A : Type} (m : Eff Net A) (w : World) :
  keeps advances m -> outside w (snd (liftNet m w)).
Proof.
  intros Hm. unfold liftNet. specialize (Hm (net w)).
  destruct (m (net w)) as [r n']. simpl in *. unfold outside. simpl. auto.
Qed.

Lemma postToPlatform_outside (self : Scheduler) (post : Post) (platform : string)
    (w : World) :
  outside w (snd (postToPlatform self post platform w)).
Proof.
  unfold postToPlatform.
  destruct (String.eqb platform "twitter");
    [apply liftNet_outside, keeps_postTweet|].
  destruct (String.eqb platform "linkedin");
    [apply liftNet_outside, keeps_postUpdate|].
  apply outside_refl.
Qed.

Lemma outside_healthy (self : Scheduler) (w w' : World) :
  outside w w' -> healthy self w -> healthy self w'.
Proof. intros (_ & _ & Hf & _) [Ho Hw]. split; [exact Ho|]. now rewrite Hf. Qed.

Lemma attemptPlatform_healthy (self : Scheduler) (post : Post) (platform : string)
    (w : World) :
  healthy self w ->
  exists w' h,
    attemptPlatform self post platform w =
      (Ok match fst (postToPlatform self post (Str.trim platform) w) with
          | Ok _ => None
          | Thrown e => Some (platform ++ ": " ++ message e)
          end, w') /\
    healthy self w' /\
    advances (net w) (net w') /\
    scheduler_log w' = scheduler_log w /\
    posts (store w') = posts (store w) /\
    posting_history (store w') = (posting_history (store w) ++ [h])%list /\
    historyFacts h =
      expectedFacts (id post) (platform, fst (postToPlatform self post (Str.trim platform) w)).
Proof.
  intros Hw.
  pose proof (postToPlatform_outside self post (Str.trim platform) w) as Hout.
  unfold attemptPlatform, tryCatch, bind.
  destruct (postToPlatform self post (Str.trim platform) w) as [[j|e] w1]; simpl in *;
    pose proof (outside_healthy self w w1 Hout Hw) as Hw1;
    destruct Hout as (Hadv & Hst & _ & Hlog);
    unfold logPostingHistory;
    match goal with
    | |- context [dbRun (db_open self) ?stmt w1] =>
        destruct (dbRun_healthy self stmt w1 Hw1) as (w2 & Hrun & Hst2 & Hn2 & Hl2 & Hw2)
    end;
    rewrite Hrun; simpl in *;
    eexists; eexists; (split; [reflexivity|]);
    rewrite Hst2, Hn2, Hl2, Hst; simpl;
    (split; [exact Hw2|]); (split; [exact Hadv|]); auto.
Qed.

Lemma successes_cons_ok (platform : string) (j : json)
    (outs : list (string * outcome json)) :
  successes ((platform, Ok j) :: outs) = 1 + successes outs.
Proof. unfold successes. cbn [filter delivered snd Datatypes.length]. lia. Qed.

Lemma successes_cons_thrown (platform : string) (e : Error)
    (outs : list (string * outcome json)) :
  successes ((platform, Thrown e) :: outs) = successes outs.
Proof. reflexivity. Qed.

Lemma forEachPlatform_healthy (self : Scheduler) (post : Post) (rest : list string) :
  forall (successCount : Z) (errors : list string) (w : World),
    healthy self w ->
    exists w' added,
      forEachPlatform self post rest successCount errors w =
        (Ok (successCount + successes (attempts self post rest w),
             (errors ++ errorEntries (attempts self post rest w))%list), w') /\
      healthy self w' /\
      advances (net w) (net w') /\
      scheduler_log w' = scheduler_log w /\
      posts (store w') = posts (store w) /\
      posting_history (store w') = (posting_history (store w) ++ added)%list /\
      map historyFacts added = map (expectedFacts (id post)) (attempts self post rest w).
Proof.
  induction rest as [|platform rest IH]; intros successCount errors w Hw.
  - exists w, []. simpl. unfold successes. simpl.
    rewrite Z.add_0_r, !app_nil_r.
    split; [reflexivity|]. split; [exact Hw|]. split; [apply advances_refl|]. auto.
  - destruct (attemptPlatform_healthy self post platform w Hw)
      as (w1 & h & Hrun & Hw1 & Hadv & Hlog & Hposts & Hhist & Hh).
    cbn [forEachPlatform attempts]. unfold bind at 1. rewrite Hrun.
    cbn [snd].
    destruct (fst (postToPlatform self post (Str.trim platform) w)) as [j|e] eqn:Hout.
    + destruct (IH (successCount + 1) errors w1 Hw1)
        as (w2 & added & Hrest & Hw2 & Hadv2 & Hlog2 & Hposts2 & Hhist2 & Hadded).
      exists w2, (h :: added). rewrite Hrest, successes_cons_ok.
      cbn [errorEntries map].
      split; [rewrite Z.add_assoc; reflexivity|].
      split; [exact Hw2|]. split; [eauto|].
      split; [congruence|]. split; [congruence|].
      split; [rewrite Hhist2, Hhist, <- app_assoc; reflexivity|].
      now rewrite Hh, Hadded.
    + destruct (IH successCount (errors ++ [(platform ++ ": " ++ message e)%string])%list w1 Hw1)
        as (w2 & added & Hrest & Hw2 & Hadv2 & Hlog2 & Hposts2 & Hhist2 & Hadded).
      exists w2, (h :: added). rewrite Hrest, successes_cons_thrown.
      cbn [errorEntries map].
      split; [rewrite <- app_assoc; reflexivity|].
      split; [exact Hw2|]. split; [eauto|].
      split; [congruence|]. split; [congruence|].
      split; [rewrite Hhist2, Hhist, <- app_assoc; reflexivity|].
      now rewrite Hh, Hadded.
Qed.

(** ** Rows under UPDATE *)

Lemma find_update (f : Post -> Post) (i j : Z) (rows : list Post) :
  (forall p, id (f p) = id p) ->
  find (fun p => id p =? j) (map (fun p => if id p =? i then f p else p) rows) =
  if j =? i then option_map f (find (fun p => id p =? j) rows)
  else find (fun p => id p =? j) rows.
Proof.
  intros Hid. induction rows as [|p rows IH]; simpl.
  - now destruct (j =? i).
  - destruct (id p =? i) eqn:Hpi.
    + rewrite Hid. apply Z.eqb_eq in Hpi. rewrite Hpi.
      rewrite (Z.eqb_sym i j).
      destruct (j =? i) eqn:Hji; [reflexivity|exact IH].
    + destruct (id p =? j) eqn:Hpj.
      * apply Z.eqb_eq in Hpj. subst j. rewrite Hpi. reflexivity.
      * exact IH.
Qed.

Lemma find_post_update_status (st : Status) (postedAt errorMessage : option string)
    (i j : Z) (s : Store) :
  find_post j (snd (Sql.update_status st postedAt errorMessage i s)) =
  if j =? i
  then option_map (fun p => withStatus p st postedAt errorMessage) (find_post j s)
  else find_post j s.
Proof.
  unfold find_post, Sql.update_status. simpl.
  now rewrite (find_update (fun p => withStatus p st postedAt errorMessage)).
Qed.

Lemma find_post_update_retry (newTime errorMessage : string) (i j : Z) (s : Store) :
  find_post j (snd (Sql.update_retry newTime errorMessage i s)) =
  if j =? i
  then option_map
         (fun p => mkPost (id p) (content p) (platforms p) newTime scheduled
                          (series_id p) (series_order p) (media_path p) (created_at p)
                          (posted_at p) (Some errorMessage) (retry_count p + 1))
         (find_post j s)
  else find_post j s.
Proof.
  unfold find_post, Sql.update_retry. simpl.
  now rewrite (find_update
                 (fun p => mkPost (id p) (content p) (platforms p) newTime scheduled
                                  (series_id p) (series_order p) (media_path p)
                                  (created_at p) (posted_at p) (Some errorMessage)
                                  (retry_count p + 1))).
Qed.

Lemma find_post_posts (i : Z) (s s' : Store) :
  posts s' = posts s -> find_post i s' = find_post i s.
Proof. unfold find_post. now intros ->. Qed.

(** ** The tally *)

Lemma attempts_length (self : Scheduler) (post : Post) (rest : list string) :
  forall w, List.length (attempts self post rest w) = List.length rest.
Proof. induction rest as [|p rest IH]; intros w; simpl; [reflexivity|now rewrite IH]. Qed.

Lemma successes_bounds (outs : list (string * outcome json)) :
  0 <= successes outs <= Z.of_nat (List.length outs).
Proof.
  unfold successes. induction outs as [|a outs IH]; simpl; [lia|].
  destruct (delivered a); simpl; lia.
Qed.

Lemma tally_all (outs : list (string * outcome json)) :
  (0 + successes outs =? Z.of_nat (List.length outs)) = forallb delivered outs.
Proof.
  induction outs as [|[platform [j|e]] outs IH].
  - reflexivity.
  - rewrite successes_cons_ok. cbn [forallb delivered snd andb Datatypes.length].
    rewrite <- IH. destruct (Z.eqb_spec (0 + successes outs) (Z.of_nat (List.length outs)));
      [apply Z.eqb_eq|apply Z.eqb_neq]; lia.
  - rewrite successes_cons_thrown. cbn [forallb delivered snd andb Datatypes.length].
    pose proof (successes_bounds outs). apply Z.eqb_neq. lia.
Qed.

Lemma tally_some (outs : list (string * outcome json)) :
  (0 <? 0 + successes outs) = existsb delivered outs.
Proof.
  induction outs as [|[platform [j|e]] outs IH].
  - reflexivity.
  - rewrite successes_cons_ok. cbn [existsb delivered snd orb].
    pose proof (successes_bounds outs). apply Z.ltb_lt. lia.
  - rewrite successes_cons_thrown. cbn [existsb delivered snd orb]. exact IH.
Qed.

(** ** One post on a working store *)

Lemma retry_time_valid (env : Env) (n n' : Net) :
  retryInRange env n -> advances n n' ->
  JSDate.ofTime (clock n' + retryDelay env) = Some (clock n' + retryDelay env).
Proof.
  unfold retryInRange, advances, JSDate.ofTime, JSDate.TimeClip.
  intros [Hlo Hhi] [Hc Hp]. pose proof (pending_nonneg (net_script n')).
  destruct (Z.leb_spec (Z.abs (clock n' + retryDelay env)) JSDate.maxTime); [reflexivity|].
  lia.
Qed.

Lemma World_eta (w : World) :
  mkWorld (store w) (net w) (faults w) (scheduler_log w) = w.
Proof. now destruct w. Qed.

Lemma processPost_healthy (self : Scheduler) (env : Env) (post : Post) (w : World) :
  healthy self w ->
  (existsb delivered (publishOutcomes self post w) = false ->
   (retry_count post <? maxRetries env) = true -> retryInRange env (net w)) ->
  find_post (id post) (store w) = Some post ->
  exists w' added,
    processPost self env post w = (Ok tt, w') /\
    healthy self w' /\
    advances (net w) (net w') /\
    scheduler_log w' = scheduler_log w /\
    posting_history (store w') = (posting_history (store w) ++ added)%list /\
    map historyFacts added = map (expectedFacts (id post)) (publishOutcomes self post w) /\
    find_post (id post) (store w') =
      Some (verdict env post (publishOutcomes self post w) (clock (net w'))) /\
    (forall i, i <> id post -> find_post i (store w') = find_post i (store w)).
Proof.
  intros Hw Hrange Hrow.
  unfold processPost, publishOutcomes, updatePostStatus.
  destruct (dbRun_healthy self
              (fun _ => Sql.update_status posting None None (id post)) w Hw)
    as (w1 & Hrun1 & Hst1 & Hn1 & Hl1 & Hw1).
  unfold publishOutcomes, updatePostStatus in Hrange.
  rewrite Hrun1 in Hrange. cbn [snd] in Hrange.
  unfold bind at 1. rewrite Hrun1. cbn [snd].
  set (plats := Str.split "," (platforms post)).
  destruct (forEachPlatform_healthy self post plats 0 [] w1 Hw1)
    as (w2 & added & Hrun2 & Hw2 & Hadv2 & Hl2 & Hposts2 & Hhist2 & Hadded).
  unfold bind at 1. rewrite Hrun2.
  set (outs := attempts self post plats w1) in *.
  assert (Hlen : List.length outs = List.length plats) by apply attempts_length.
  rewrite <- Hlen, tally_all, tally_some. cbn [app].
  assert (Hadv : advances (net w) (net w2)) by now rewrite <- Hn1.
  assert (Hhist : posting_history (store w2) = (posting_history (store w) ++ added)%list).
  { rewrite Hhist2, Hst1. reflexivity. }
  assert (Hrow2 : forall i,
             find_post i (store w2) =
             if i =? id post
             then option_map (fun p => withStatus p posting None None) (find_post i (store w))
             else find_post i (store w)).
  { intros i. rewrite (find_post_posts i _ _ Hposts2), Hst1.
    apply find_post_update_status. }
  assert (Hfin : forall (w3 : World) (st : Status) (pa em : option string),
             store w3 = snd (Sql.update_status st pa em (id post) (store w2)) ->
             posting_history (store w3) = (posting_history (store w) ++ added)%list /\
             find_post (id post) (store w3) = Some (withStatus post st pa em) /\
             (forall i, i <> id post -> find_post i (store w3) = find_post i (store w))).
  { intros w3 st pa em Hst3. rewrite Hst3. split; [exact Hhist|]. split.
    - rewrite find_post_update_status, Z.eqb_refl, Hrow2, Z.eqb_refl, Hrow. reflexivity.
    - intros i Hi. apply Z.eqb_neq in Hi.
      rewrite find_post_update_status, Hi, Hrow2, Hi. reflexivity. }
  unfold verdict.
  destruct (forallb delivered outs) eqn:Hall;
    [|destruct (existsb delivered outs) eqn:Hsome;
      [|destruct (retry_count post <? maxRetries env) eqn:Hretry]].
  - unfold bind at 1. unfold nowISOString, liftNet, Date_now, gets, bind, ret. cbn [fst snd].
    rewrite World_eta.
    match goal with
    | |- context [dbRun (db_open self) ?stmt ?w0] =>
        destruct (dbRun_healthy self stmt w0) as (w3 & Hrun3 & Hst3 & Hn3 & Hl3 & Hw3);
          [exact Hw2|]
    end.
    rewrite Hrun3. cbn [fst snd net store scheduler_log] in *.
    exists w3, added. destruct (Hfin w3 _ _ _ Hst3) as (H1 & H2 & H3).
    rewrite Hn3, Hl3. repeat (split; [solve [auto | congruence]|]). exact H3.
  - unfold bind at 1.
    match goal with
    | |- context [dbRun (db_open self) ?stmt ?w0] =>
        destruct (dbRun_healthy self stmt w0) as (w3 & Hrun3 & Hst3 & Hn3 & Hl3 & Hw3);
          [exact Hw2|]
    end.
    rewrite Hrun3.
    exists w3, added. destruct (Hfin w3 _ _ _ Hst3) as (H1 & H2 & H3).
    rewrite Hn3, Hl3. repeat (split; [solve [auto | congruence]|]). exact H3.
  - unfold scheduleRetry.
    unfold bind at 1. unfold bind at 1. unfold liftNet, Date_now, gets. cbn [fst snd].
    rewrite (retry_time_valid env (net w) (net w2) (Hrange Hsome eq_refl) Hadv).
    unfold toISOString, ret, bind at 1. rewrite World_eta.
    match goal with
    | |- context [dbRun (db_open self) ?stmt ?w0] =>
        destruct (dbRun_healthy self stmt w0) as (w3 & Hrun3 & Hst3 & Hn3 & Hl3 & Hw3);
          [exact Hw2|]
    end.
    rewrite Hrun3.
    exists w3, added. rewrite Hn3, Hl3, Hst3.
    split; [reflexivity|]. split; [exact Hw3|]. split; [exact Hadv|].
    split; [congruence|]. split; [exact Hhist|]. split; [exact Hadded|]. split.
    + rewrite find_post_update_retry, Z.eqb_refl, Hrow2, Z.eqb_refl, Hrow. reflexivity.
    + intros i Hi. apply Z.eqb_neq in Hi.
      rewrite find_post_update_retry, Hi, Hrow2, Hi. reflexivity.
  - unfold bind at 1.
    match goal with
    | |- context [dbRun (db_open self) ?stmt ?w0] =>
        destruct (dbRun_healthy self stmt w0) as (w3 & Hrun3 & Hst3 & Hn3 & Hl3 & Hw3);
          [exact Hw2|]
    end.
    rewrite Hrun3.
    exists w3, added. destruct (Hfin w3 _ _ _ Hst3) as (H1 & H2 & H3).
    rewrite Hn3, Hl3. repeat (split; [solve [auto | congruence]|]). exact H3.
Qed.

(** ** The verdict on a post *)

Lemma split_length (rest : list string) (self : Scheduler) (post : Post) (w : World) :
  map fst (attempts self post rest w) = rest.
Proof.
  revert w. induction rest as [|p rest IH]; intros w; simpl; [reflexivity|].
  now rewrite IH.
Qed.

Lemma expectedFacts_delivered (postId : Z) (outs : list (string * outcome json)) :
  forallb delivered outs = true ->
  map (expectedFacts postId) outs =
  map (fun platform => (postId, platform, posted, @None string)) (map fst outs).
Proof.
  induction outs as [|[platform [j|e]] outs IH]; simpl; intros H;
    [reflexivity| |discriminate].
  unfold expectedFacts at 1. simpl. now rewrite IH.
Qed.

(** C4, as amended.  When every requested platform takes a due post,
    the post ends with status posted, [posted_at] holds the reading of
    the clock taken when that final status is written, after the
    publish attempts (so at or after the tick's [now]), the history
    gains one posted entry per platform, in the order of the post's
    platform list, and the retry count stays as it was. *)
Theorem all_delivered_posted (self : Scheduler) (env : Env) (post : Post) (w : World) :
  healthy self w ->
  find_post (id post) (store w) = Some post ->
  forallb delivered (publishOutcomes self post w) = true ->
  exists w' row added,
    processPost self env post w = (Ok tt, w') /\
    find_post (id post) (store w') = Some row /\
    post_status row = posted /\
    posted_at row = Some (JSDate.isoText (clock (net w'))) /\
    clock (net w) <= clock (net w') /\
    retry_count row = retry_count post /\
    posting_history (store w') = (posting_history (store w) ++ added)%list /\
    map historyFacts added =
      map (fun platform => (id post, platform, posted, None))
          (Str.split "," (platforms post)).
Proof.
  intros Hw Hrow Hall.
  destruct (processPost_healthy self env post w Hw) as
    (w' & added & Hrun & _ & Hadv & _ & Hhist & Hadded & Hfind & _); [|exact Hrow|].
  { intros Hnone. exfalso. revert Hall Hnone.
    unfold publishOutcomes.
    pose proof (attempts_length self post (Str.split "," (platforms post))
                  (snd (updatePostStatus self (id post) posting None None w))) as Hlen.
    destruct (attempts _ _ _ _) as [|a outs]; simpl.
    - destruct (Str.split "," (platforms post)) eqn:Hs; [|discriminate].
      destruct (platforms post) as [|c s]; simpl in Hs; [discriminate|].
      destruct (Ascii.eqb c ","); [discriminate|].
      destruct (Str.split "," s); discriminate.
    - destruct (delivered a); simpl; congruence. }
  unfold verdict in Hfind. rewrite Hall in Hfind.
  exists w', (withStatus post posted (Some (JSDate.isoText (clock (net w')))) None), added.
  repeat (split; [first [assumption | reflexivity | apply Hadv]|]).
  rewrite Hadded, (expectedFacts_delivered _ _ Hall).
  unfold publishOutcomes. now rewrite split_length.
Qed.

Lemma all_delivered_posted_witness :
  exists w' row added,
    processPost Sample.scheduler Sample.env Sample.early Run.oneTweet = (Ok tt, w') /\
    find_post 1 (store w') = Some row /\
    post_status row = posted /\
    posted_at row = Some (JSDate.isoText (clock (net w'))) /\
    clock (net Run.oneTweet) <= clock (net w') /\
    retry_count row = 0 /\
    posting_history (store w') = (posting_history (store Run.oneTweet) ++ added)%list /\
    map historyFacts added = [(1, "twitter", posted, None)].
Proof.
  apply (all_delivered_posted Sample.scheduler Sample.env Sample.early Run.oneTweet).
  - split; [reflexivity|constructor].
  - reflexivity.
  - vm_compute. reflexivity.
Defined.

(** C4 as it was stated fails: the tick below takes its [now] at
    10:00:00.000, Twitter takes the post a second and a half later, and
    [posted_at] is 10:00:01.500, not the tick's [now]. *)
Lemma posted_at_is_not_the_tick_now :
  JSDate.isoText (clock (net Run.oneTweet)) = "2024-03-01T10:00:00.000Z" /\
  forallb delivered (publishOutcomes Sample.scheduler Sample.early Run.oneTweet) = true /\
  option_map (fun row => (post_status row, posted_at row))
    (find_post 1 (store (snd (checkAndPostScheduledPosts Sample.scheduler Sample.env
                                Run.oneTweet))))
  = Some (posted, Some "2024-03-01T10:00:01.500Z") /\
  option_map posted_at
    (find_post 1 (store (snd (checkAndPostScheduledPosts Sample.scheduler Sample.env
                                Run.oneTweet))))
  <> Some (Some (JSDate.isoText (clock (net Run.oneTweet)))).
Proof. vm_compute. repeat split. discriminate. Qed.





(** ** A whole batch *)




Lemma find_post_In (s : Store) (p : Post) :
  NoDup (map id (posts s)) -> In p (posts s) -> find_post (id p) s = Some p.
Proof.
  unfold find_post. induction (posts s) as [|q rows IH]; simpl; intros Hnd Hin; [easy|].
  inversion Hnd as [|i ids Hfresh Hnd']; subst.
  destruct Hin as [->|Hin]; [now rewrite Z.eqb_refl|].
  destruct (Z.eqb_spec (id q) (id p)) as [Heq|_]; [|now apply IH].
  exfalso. apply Hfresh. rewrite Heq. now apply in_map.
Qed.

Lemma NoDup_map_filter {A B : Type} (f : A -> B) (g : A -> bool) (l : list A) :
  NoDup (map f l) -> NoDup (map f (filter g l)).
Proof.
  induction l as [|a l IH]; simpl; intros H; [constructor|].
  inversion H as [|b bs Hfresh Hnd]; subst.
  destruct (g a); simpl; [|now apply IH].
  constructor; [|now apply IH].
  intros Hin. apply Hfresh. apply in_map_iff in Hin as (x & Hx & Hin).
  apply filter_In in Hin as [Hin _]. rewrite <- Hx. now apply in_map.
Qed.

Lemma select_due_NoDup (now : string) (s : Store) :
  NoDup (map id (posts s)) -> NoDup (map id (Sql.select_due now s)).
Proof.
  intros H. unfold Sql.select_due.
  eapply Permutation_NoDup;
    [apply Permutation_map, order_by_time_perm|now apply NoDup_map_filter].
Qed.


(** ** The tick *)

Lemma nowISOString_run (w : World) :
  nowISOString w = (Ok (JSDate.isoText (clock (net w))), w).
Proof.
  unfold nowISOString, liftNet, Date_now, gets, bind, ret. simpl.
  now rewrite World_eta.
Qed.





(** ** Series *)

Lemma local_fields (l k : Z) :
  JSDate.MakeDate (JSDate.Day l)
    (JSDate.MakeTime (JSDate.HourFromTime l) (JSDate.MinFromTime l + k)
       (JSDate.SecFromTime l) (JSDate.msFromTime l))
  = l + k * 60000.
Proof.
  unfold JSDate.MakeDate, JSDate.MakeTime, JSDate.Day, JSDate.HourFromTime,
    JSDate.MinFromTime, JSDate.SecFromTime, JSDate.msFromTime,
    JSDate.msPerDay, JSDate.msPerHour, JSDate.msPerMinute, JSDate.msPerSecond.
  Z.div_mod_to_equations. lia.
Qed.

(** [d.setMinutes(d.getMinutes() + k)] moves the local time on by [k]
    minutes. *)
Lemma setMinutes_adds (zone : JSDate.Zone) (T k : Z) :
  Z.abs (wallClock zone T (k * 60000)) <= JSDate.maxTime ->
  JSDate.setMinutes zone (Some T)
    (option_map (fun minutes => minutes + k) (JSDate.getMinutes zone (Some T)))
  = Some (wallClock zone T (k * 60000)).
Proof.
  intros Hrange. unfold JSDate.setMinutes, JSDate.getMinutes, option_map.
  rewrite local_fields. fold (wallClock zone T (k * 60000)).
  unfold JSDate.TimeClip.
  destruct (Z.leb_spec (Z.abs (wallClock zone T (k * 60000))) JSDate.maxTime);
    [reflexivity|lia].
Qed.

(** Where the offset is the one of [T], the wall clock and the clock
    agree. *)
Lemma wallClock_same_offset (zone : JSDate.Zone) (T ms : Z) :
  JSDate.offsetOf zone (JSDate.LocalTime zone T + ms) = JSDate.offsetAt zone T ->
  wallClock zone T ms = T + ms.
Proof. unfold wallClock, JSDate.UTC, JSDate.LocalTime. intros ->. lia. Qed.

Lemma dbRun_all_ok {A : Type} (stmt : Z -> Store -> A * Store) (w : World) :
  Forall (fun f => f = None) (faults w) ->
  exists w',
    dbRun true stmt w = (Ok (fst (stmt (clock (net w)) (store w))), w') /\
    store w' = snd (stmt (clock (net w)) (store w)) /\
    net w' = net w /\
    scheduler_log w' = scheduler_log w /\
    Forall (fun f => f = None) (faults w').
Proof.
  intros Hf. rewrite dbRun_ok.
  - eexists. split; [reflexivity|]. simpl. repeat split.
    destruct (faults w); [constructor|now inversion Hf].
  - destruct (faults w) as [|f rest]; [reflexivity|now inversion Hf].
Qed.

Lemma expanded_length (zone : JSDate.Zone) (shared : string) (T I seriesId : Z)
    (stamp : string) (rest : list string) :
  forall index rowid,
    List.length (expanded zone shared T I seriesId stamp rest index rowid) =
    List.length rest.
Proof. induction rest as [|m rest IH]; intros; simpl; [reflexivity|now rewrite IH]. Qed.

Lemma expanded_nth (zone : JSDate.Zone) (shared : string) (T I seriesId : Z)
    (stamp : string) (rest : list string) :
  forall index rowid i text,
    nth_error rest i = Some text ->
    nth_error (expanded zone shared T I seriesId stamp rest index rowid) i =
    Some (mkPost (rowid + Z.of_nat i + 1) text shared
                 (JSDate.isoText (wallClock zone T ((index + Z.of_nat i) * (I * 60000))))
                 scheduled (Some seriesId) (Some (index + Z.of_nat i + 1)) None stamp
                 None None 0).
Proof.
  induction rest as [|m rest IH]; intros index rowid [|i] text H; simpl in H;
    try discriminate.
  - inversion H; subst. cbn [expanded nth_error Z.of_nat].
    now rewrite !Z.add_0_r.
  - cbn [expanded nth_error]. rewrite (IH _ _ _ _ H).
    replace (rowid + 1 + Z.of_nat i) with (rowid + Z.of_nat (S i)) by lia.
    replace (index + 1 + Z.of_nat i) with (index + Z.of_nat (S i)) by lia.
    reflexivity.
Qed.

Section SeriesFacts.

Variable parseDate : string -> JSDate.Date.
Variable zone : JSDate.Zone.
Variable body : SeriesBody.
Variable T : Z.
Hypothesis start_parsed : parseDate (start_time body) = Some T.

Lemma memberTime_adds (index : Z) :
  Z.abs (wallClock zone T (index * (interval_minutes body * 60000))) <= JSDate.maxTime ->
  memberTime parseDate zone body index =
  Some (wallClock zone T (index * (interval_minutes body * 60000))).
Proof.
  intros H. unfold memberTime. rewrite start_parsed.
  replace (index * (interval_minutes body * 60000))
    with (index * interval_minutes body * 60000) in * by lia.
  now apply setMinutes_adds.
Qed.

Lemma forEachMember_run (seriesId : Z) (rest : list string) :
  forall index w,
    Forall (fun f => f = None) (faults w) ->
    (forall k, 0 <= k < Z.of_nat (List.length rest) ->
               Z.abs (wallClock zone T ((index + k) * (interval_minutes body * 60000)))
               <= JSDate.maxTime) ->
    exists w',
      forEachMember parseDate zone body seriesId rest index w = (Ok tt, w') /\
      posts (store w') =
        (posts (store w) ++
         expanded zone (shared_platforms body) T (interval_minutes body) seriesId
                  (JSDate.sqlText (clock (net w))) rest index (posts_seq (store w)))%list /\
      posts_seq (store w') = posts_seq (store w) + Z.of_nat (List.length rest) /\
      series (store w') = series (store w) /\
      posting_history (store w') = posting_history (store w) /\
      net w' = net w /\
      scheduler_log w' = scheduler_log w.
Proof.
  induction rest as [|text rest IH]; intros index w Hf Hrange.
  - exists w. simpl. rewrite app_nil_r, Z.add_0_r. repeat split.
  - cbn [forEachMember]. unfold bind at 1.
    rewrite memberTime_adds.
    2:{ specialize (Hrange 0). rewrite Z.add_0_r in Hrange. apply Hrange.
        simpl List.length. lia. }
    unfold toISOString, ret. unfold bind at 1.
    match goal with
    | |- context [dbRun true ?stmt w] =>
        destruct (dbRun_all_ok stmt w Hf) as (w1 & Hrun & Hst & Hn & Hl & Hf1)
    end.
    rewrite Hrun.
    destruct (IH (index + 1) w1 Hf1) as (w2 & Hrest & Hposts & Hseq & Hser & Hhist & Hn2 & Hl2).
    { intros k Hk. replace (index + 1 + k) with (index + (k + 1)) by lia.
      apply Hrange. simpl List.length. lia. }
    exists w2. rewrite Hrest, Hposts, Hseq, Hser, Hhist, Hn2, Hl2, Hst, Hn, Hl.
    cbn [Sql.insert_series_post snd posts posts_seq series posting_history expanded
         List.length].
    rewrite <- app_assoc. cbn [app].
    repeat split. lia.
Qed.

End SeriesFacts.

(** C7, as amended.  A series created with start time [T], interval
    [I] (minutes) and [N] member entries adds exactly [N] rows to
    [posts], each with a rowid of its own and series order [i + 1] for
    the member at index [i] (from 0), the one convention used for all
    members.  The scheduled time of that member is the instant whose
    local time is the local time of [T] moved on by [i * I] minutes;
    that is exactly [T + i * I] whenever the zone of the process has
    there the offset it has at [T], as it always does in a zone
    without daylight saving. *)
Theorem series_expansion (parseDate : string -> JSDate.Date) (zone : JSDate.Zone)
    (body : SeriesBody) (T : Z) (w : World) :
  Forall (fun f => f = None) (faults w) ->
  parseDate (start_time body) = Some T ->
  (forall i, 0 <= i < Z.of_nat (List.length (members body)) ->
             Z.abs (wallClock zone T (i * (interval_minutes body * 60000)))
             <= JSDate.maxTime) ->
  exists w' created,
    postSeries parseDate zone body w =
      (Ok (mkHttpReply 200 (JObj [("id", JNum (series_seq (store w) + 1));
                                  ("message", JStr "Series scheduled successfully")])),
       w') /\
    posts (store w') = (posts (store w) ++ created)%list /\
    List.length created = List.length (members body) /\
    forall i text,
      nth_error (members body) i = Some text ->
      exists row,
        nth_error created i = Some row /\
        id row = posts_seq (store w) + Z.of_nat i + 1 /\
        content row = text /\
        platforms row = shared_platforms body /\
        post_status row = scheduled /\
        series_id row = Some (series_seq (store w) + 1) /\
        series_order row = Some (Z.of_nat i + 1) /\
        scheduled_time row =
          JSDate.isoText (wallClock zone T (Z.of_nat i * (interval_minutes body * 60000))) /\
        (JSDate.offsetOf zone
           (JSDate.LocalTime zone T + Z.of_nat i * (interval_minutes body * 60000))
         = JSDate.offsetAt zone T ->
         scheduled_time row =
           JSDate.isoText (T + Z.of_nat i * (interval_minutes body * 60000))).
Proof.
  intros Hf Hparse Hrange.
  unfold postSeries, bind at 1, attempt.
  match goal with
  | |- context [dbRun true ?stmt w] =>
      destruct (dbRun_all_ok stmt w Hf) as (w1 & Hrun & Hst & Hn & Hl & Hf1)
  end.
  rewrite Hrun. cbn [fst Sql.insert_series].
  destruct (forEachMember_run parseDate zone body T Hparse (series_seq (store w) + 1)
              (members body) 0 w1 Hf1)
    as (w2 & Hloop & Hposts & _).
  { intros k Hk. rewrite Z.add_0_l. now apply Hrange. }
  unfold bind at 1. rewrite Hloop. unfold ret.
  eexists. eexists. split; [reflexivity|].
  rewrite Hposts, Hst. cbn [Sql.insert_series snd posts posts_seq].
  split; [reflexivity|]. split; [apply expanded_length|].
  intros i text Hi. eexists. split; [apply expanded_nth; exact Hi|].
  cbn [id content platforms post_status scheduled_time series_id series_order].
  rewrite Z.add_0_l. repeat split.
  intros Hsame. now rewrite wallClock_same_offset.
Qed.

Lemma series_expansion_witness :
  exists w' created,
    postSeries Series.parseDate Series.plusTwo Series.body Series.world =
      (Ok (mkHttpReply 200 (JObj [("id", JNum (series_seq (store Series.world) + 1));
                                  ("message", JStr "Series scheduled successfully")])),
       w') /\
    posts (store w') = (posts (store Series.world) ++ created)%list /\
    List.length created = List.length (members Series.body) /\
    forall i text,
      nth_error (members Series.body) i = Some text ->
      exists row,
        nth_error created i = Some row /\
        id row = posts_seq (store Series.world) + Z.of_nat i + 1 /\
        content row = text /\
        platforms row = shared_platforms Series.body /\
        post_status row = scheduled /\
        series_id row = Some (series_seq (store Series.world) + 1) /\
        series_order row = Some (Z.of_nat i + 1) /\
        scheduled_time row =
          JSDate.isoText
            (wallClock Series.plusTwo Sample.ten
               (Z.of_nat i * (interval_minutes Series.body * 60000))) /\
        (JSDate.offsetOf Series.plusTwo
           (JSDate.LocalTime Series.plusTwo Sample.ten +
            Z.of_nat i * (interval_minutes Series.body * 60000))
         = JSDate.offsetAt Series.plusTwo Sample.ten ->
         scheduled_time row =
           JSDate.isoText
             (Sample.ten + Z.of_nat i * (interval_minutes Series.body * 60000))).
Proof.
  apply (series_expansion Series.parseDate Series.plusTwo Series.body Sample.ten
           Series.world).
  - constructor.
  - reflexivity.
  - intros i Hi. change (0 <= i < 3) in Hi.
    change (Z.abs (1709287200000 + 7200000 + i * 3600000 - 7200000) <= 8640000000000000).
    lia.
Defined.

Example series_of_three :
  map (fun row => (id row, content row, scheduled_time row, series_order row))
    (posts (store (snd (postSeries Series.parseDate Series.plusTwo Series.body
                          Series.world))))
  = [(1, "first", "2024-03-01T09:00:00.000Z", None);
     (5, "one", "2024-03-01T10:00:00.000Z", Some 1);
     (6, "two", "2024-03-01T11:00:00.000Z", Some 2);
     (7, "three", "2024-03-01T12:00:00.000Z", Some 3)].
Proof. vm_compute. reflexivity. Qed.

(** C7 as it was stated fails: in New York a series of three posts two
    hours apart that starts at 23:30 on 2024-03-09 (04:30 UTC) runs
    into the change to daylight saving time; its third post is set for
    03:30 local time, which is 07:30 UTC, three hours after the start
    and not four. *)
Lemma a_series_across_the_clock_change :
  Series.parseLocal (start_time Series.overnight) = Some 1710045000000 /\
  JSDate.isoText 1710045000000 = "2024-03-10T04:30:00.000Z" /\
  map (fun row => (series_order row, scheduled_time row))
    (posts (store (snd (postSeries Series.parseLocal Series.newYork Series.overnight
                          (Sample.worldOf [] [] [])))))
  = [(Some 1, "2024-03-10T04:30:00.000Z");
     (Some 2, "2024-03-10T06:30:00.000Z");
     (Some 3, "2024-03-10T07:30:00.000Z")] /\
  JSDate.isoText (1710045000000 + 2 * (interval_minutes Series.overnight * 60000))
  = "2024-03-10T08:30:00.000Z".
Proof. vm_compute. repeat split. Qed.

(** ** The publishers and a media file that is not there *)

Lemma disk_axios (req : Request) : keeps sameDisk (axios req).
Proof.
  intros n. unfold axios, sameDisk.
  destruct (net_script n) as [|x rest]; [reflexivity|].
  destruct (reply x) as [st d|reason]; [destruct ((200 <=? st) && (st <? 300))|];
    reflexivity.
Qed.

#[local] Hint Resolve disk_axios : core.





(** ** Ticks in flight *)

Lemma finishLoop_forEachPost (self : Scheduler) (env : Env) (batch : list Post) :
  forall w,
    finishLoop self env batch w =
    snd (tryCatch (forEachPost self env batch)
           (fun error => logError "SCHEDULER_ERROR" (message error)) w).
Proof.
  induction batch as [|post rest IH]; intros w; [reflexivity|].
  cbn [finishLoop resumeTick forEachPost]. unfold tryCatch, bind, ret.
  destruct (processPost self env post w) as [[[]|e] w']; [|reflexivity].
  destruct rest as [|next rest]; [reflexivity|].
  rewrite IH. unfold tryCatch. reflexivity.
Qed.

(** A tick that nothing interrupts is [checkAndPostScheduledPosts]. *)
Lemma finishTick_alone (self : Scheduler) (env : Env) (w : World) :
  finishTick self env (Querying (JSDate.isoText (clock (net w)))) w =
  snd (checkAndPostScheduledPosts self env w).
Proof.
  unfold checkAndPostScheduledPosts, bind at 1. rewrite nowISOString_run.
  unfold finishTick, resumeTick, tryCatch, bind.
  destruct (getScheduledPosts self (JSDate.isoText (clock (net w))) w)
    as [[batch|e] w']; [|reflexivity].
  destruct batch as [|post rest]; [reflexivity|].
  rewrite finishLoop_forEachPost. unfold tryCatch. reflexivity.
Qed.


Lemma fires_pile_up (env : Env) (n : nat) :
  forall p,
    tasks p <> 0%nat ->
    List.length (inflight (run env p (repeat TimerFires n))) =
    (List.length (inflight p) + n)%nat.
Proof.
  induction n as [|n IH]; intros p Htasks; [simpl; lia|].
  change (run env p (repeat TimerFires (S n)))
    with (run env (step env p TimerFires) (repeat TimerFires n)).
  rewrite IH.
  - unfold step. destruct (tasks p); [congruence|]. simpl. rewrite length_app. simpl. lia.
  - unfold step. destruct (tasks p) eqn:Ht; [congruence|]. simpl. congruence.
Qed.

(** C8, as amended.  Nothing keeps ticks apart: whenever the timer
    fires with a task registered, a new tick starts at once, whatever
    ticks are still in flight, and joins them; ticks are neither queued
    nor skipped.  A tick's batch is every row that is scheduled and due
    when its query runs, and only those: a due post is out of reach of
    a second tick from the moment its status has left scheduled, and
    not before, so a post that waits in the batch of a tick in flight
    is picked up by an overlapping tick as well. *)
Theorem ticks_may_overlap (env : Env) (p : Process) :
  (tasks p <> 0%nat ->
   inflight (step env p TimerFires) =
     (inflight p ++ [Querying (JSDate.isoText (clock (net (world p))))])%list /\
   ticks_started (step env p TimerFires) = S (ticks_started p) /\
   world (step env p TimerFires) = world p) /\
  (tasks p <> 0%nat ->
   forall n,
     List.length (inflight (run env p (repeat TimerFires n))) =
     (List.length (inflight p) + n)%nat) /\
  (forall now q,
      db_open (this p) = true ->
      hd None (faults (world p)) = None ->
      In q (posts (store (world p))) ->
      post_status q = scheduled ->
      String.leb (scheduled_time q) now = true ->
      exists batch w',
        resumeTick (this p) env (Querying now) (world p) = (Some (Looping batch), w') /\
        In q batch /\
        forall r, In r batch <->
                  In r (posts (store (world p))) /\ post_status r = scheduled /\
                  String.leb (scheduled_time r) now = true).
Proof.
  split; [|split].
  - intros Htasks. unfold step. destruct (tasks p); [congruence|]. simpl. auto.
  - intros Htasks n. now apply fires_pile_up.
  - intros now q Ho Hf Hin Hs Hdue.
    unfold resumeTick, getScheduledPosts. rewrite Ho, (dbRun_ok _ _ Hf). cbn [fst snd].
    assert (Hq : In q (Sql.select_due now (store (world p)))).
    { apply select_due_In. auto. }
    destruct (Sql.select_due now (store (world p))) as [|r0 batch] eqn:Hsel; [destruct Hq|].
    eexists. eexists. split; [reflexivity|]. split; [exact Hq|].
    intros r. rewrite <- Hsel. apply select_due_In.
Qed.

Lemma ticks_may_overlap_witness :
  inflight (step Sample.env
              (run Sample.env (Loop.idle Loop.slow)
                 [CallStart; TimerFires; Resume 0%nat; Resume 0%nat])
              TimerFires)
  = [Looping [Sample.late]; Querying "2024-03-01T10:01:01.000Z"] /\
  exists batch w',
    resumeTick Sample.scheduler Sample.env (Querying "2024-03-01T10:01:01.000Z")
      (world (run Sample.env (Loop.idle Loop.slow) Loop.untilSecondTick))
    = (Some (Looping batch), w') /\
    In Sample.late batch.
Proof.
  split.
  - rewrite (proj1 (proj1 (ticks_may_overlap Sample.env
                             (run Sample.env (Loop.idle Loop.slow)
                                [CallStart; TimerFires; Resume 0%nat; Resume 0%nat]))
                          ltac:(vm_compute; discriminate))).
    vm_compute. reflexivity.
  - destruct (proj2 (proj2 (ticks_may_overlap Sample.env
                       (run Sample.env (Loop.idle Loop.slow) Loop.untilSecondTick)))
                "2024-03-01T10:01:01.000Z" Sample.late)
      as (batch & w' & Hrun & Hin & _).
    + vm_compute. reflexivity.
    + vm_compute. reflexivity.
    + vm_compute. auto.
    + reflexivity.
    + vm_compute. reflexivity.
    + exists batch, w'. split; [exact Hrun|exact Hin].
Defined.

(** C8 as it was stated fails: the first tick is still in flight, with
    the second post waiting in its batch, when the timer fires again;
    the second tick picks that post up and publishes it, and then the
    first tick publishes it once more. *)
Lemma two_ticks_publish_one_post_twice :
  inflight (run Sample.env (Loop.idle Loop.slow) Loop.untilSecondTick)
    = [Looping [Sample.late]; Querying "2024-03-01T10:01:01.000Z"] /\
  inflight (run Sample.env (Loop.idle Loop.slow)
              (Loop.untilSecondTick ++ [Resume 1%nat])%list)
    = [Looping [Sample.late]; Looping [Sample.late]] /\
  map Loop.tweetText
    (sent (net (world (run Sample.env (Loop.idle Loop.slow) Loop.thenBoth))))
    = [JStr "first"; JStr "second"; JStr "second"] /\
  map historyFacts
    (posting_history (store (world (run Sample.env (Loop.idle Loop.slow) Loop.thenBoth))))
    = [(1, "twitter", posted, None); (2, "twitter", posted, None);
       (2, "twitter", posted, None)].
Proof. vm_compute. repeat split. Qed.







(** * More of the code *)

(** ** What the scheduler can reach in the store *)

Lemma frozen_id (p p' : Post) : frozen p' = frozen p -> id p' = id p.
Proof. unfold frozen. intros H. now inversion H. Qed.

Lemma rowKept_refl (ids : list Z) (p : Post) : rowKept ids p p.
Proof. split; auto. Qed.

Lemma rowKept_trans (ids : list Z) (a b c : Post) :
  rowKept ids a b -> rowKept ids b c -> rowKept ids a c.
Proof.
  intros [Hf1 Hk1] [Hf2 Hk2]. split; [congruence|].
  intros Hout. rewrite <- (Hk1 Hout). apply Hk2.
  now rewrite (frozen_id _ _ Hf1).
Qed.

Lemma rowKept_mono (ids ids' : list Z) (p p' : Post) :
  incl ids ids' -> rowKept ids p p' -> rowKept ids' p p'.
Proof. intros Hincl [Hf Hk]. split; [exact Hf|]. intros Hout. apply Hk. auto. Qed.

Lemma Forall2_refl {A : Type} (R : A -> A -> Prop) (l : list A) :
  (forall a, R a a) -> Forall2 R l l.
Proof. intros H. induction l; constructor; auto. Qed.

Lemma Forall2_trans {A : Type} (R : A -> A -> Prop) :
  (forall a b c, R a b -> R b c -> R a c) ->
  forall l1 l2 l3, Forall2 R l1 l2 -> Forall2 R l2 l3 -> Forall2 R l1 l3.
Proof.
  intros Htrans l1 l2 l3 H12. revert l3.
  induction H12; intros l3 H23; inversion H23; subst; constructor; eauto.
Qed.

Lemma touchesOnly_refl (ids : list Z) (w : World) : touchesOnly ids w w.
Proof.
  unfold touchesOnly. repeat split; auto.
  - apply Forall2_refl, rowKept_refl.
  - exists []. now rewrite app_nil_r.
Qed.

Lemma touchesOnly_trans (ids : list Z) (a b c : World) :
  touchesOnly ids a b -> touchesOnly ids b c -> touchesOnly ids a c.
Proof.
  intros (Hr1 & (h1 & Hh1) & Hs1 & Hq1 & Hss1) (Hr2 & (h2 & Hh2) & Hs2 & Hq2 & Hss2).
  unfold touchesOnly. repeat split; try congruence.
  - eapply Forall2_trans; eauto. apply rowKept_trans.
  - exists (h1 ++ h2)%list. now rewrite Hh2, Hh1, app_assoc.
Qed.

Lemma touchesOnly_mono (ids ids' : list Z) (w w' : World) :
  incl ids ids' -> touchesOnly ids w w' -> touchesOnly ids' w w'.
Proof.
  intros Hincl (Hr & Hrest). split; [|exact Hrest].
  eapply Forall2_impl; [|exact Hr]. intros p p'. now apply rowKept_mono.
Qed.

Lemma touchesOnly_store (ids : list Z) (w w1 w2 : World) :
  store w2 = store w1 -> touchesOnly ids w w1 -> touchesOnly ids w w2.
Proof. unfold touchesOnly. now intros ->. Qed.

Lemma dbRun_store {A : Type} (isOpen : bool) (stmt : Z -> Store -> A * Store) (w : World) :
  store (snd (dbRun isOpen stmt w)) = store w \/
  store (snd (dbRun isOpen stmt w)) = snd (stmt (clock (net w)) (store w)).
Proof.
  unfold dbRun. destruct isOpen; simpl; [|now left].
  destruct (faults w) as [|[msg|] rest]; simpl;
    try (now left); destruct (stmt (clock (net w)) (store w)); now right.
Qed.

Lemma keeps_dbRun_touches {A : Type} (ids : list Z) (isOpen : bool)
    (stmt : Z -> Store -> A * Store) :
  (forall w w', store w' = snd (stmt (clock (net w)) (store w)) -> touchesOnly ids w w') ->
  keeps (touchesOnly ids) (dbRun isOpen stmt).
Proof.
  intros H w. destruct (dbRun_store isOpen stmt w) as [Hs|Hs].
  - eapply touchesOnly_store; [exact Hs|apply touchesOnly_refl].
  - now apply H.
Qed.

Lemma keeps_liftNet_touches {A : Type} (ids : list Z) (m : Eff Net A) :
  keeps (touchesOnly ids) (liftNet m).
Proof.
  intros w. unfold liftNet. destruct (m (net w)) as [r n'].
  eapply touchesOnly_store; [|apply touchesOnly_refl]. reflexivity.
Qed.

Lemma rewrite_rows_kept (f : Post -> Post) (i : Z) (rows : list Post) :
  (forall p, frozen (f p) = frozen p) ->
  Forall2 (rowKept [i]) rows (map (fun p => if id p =? i then f p else p) rows).
Proof.
  intros Hf. induction rows as [|p rows IH]; simpl; constructor; auto.
  destruct (Z.eqb_spec (id p) i) as [Heq|Hne]; [|apply rowKept_refl].
  split; [apply Hf|]. intros Hout. exfalso. apply Hout. now left.
Qed.

Lemma update_status_touches (st : Status) (postedAt errorMessage : option string)
    (i : Z) (w w' : World) :
  store w' = snd (Sql.update_status st postedAt errorMessage i (store w)) ->
  touchesOnly [i] w w'.
Proof.
  intros Hs. unfold touchesOnly. rewrite Hs. simpl. repeat split.
  - now apply rewrite_rows_kept.
  - exists []. now rewrite app_nil_r.
Qed.

Lemma update_retry_touches (newTime errorMessage : string) (i : Z) (w w' : World) :
  store w' = snd (Sql.update_retry newTime errorMessage i (store w)) ->
  touchesOnly [i] w w'.
Proof.
  intros Hs. unfold touchesOnly. rewrite Hs. simpl. repeat split.
  - now apply rewrite_rows_kept.
  - exists []. now rewrite app_nil_r.
Qed.

Lemma insert_history_touches (ids : list Z) (now i : Z) (platform : string) (st : Status)
    (responseData errorMessage : option string) (w w' : World) :
  store w' = snd (Sql.insert_history now i platform st responseData errorMessage (store w)) ->
  touchesOnly ids w w'.
Proof.
  intros Hs. unfold touchesOnly. rewrite Hs. simpl. repeat split.
  - apply Forall2_refl, rowKept_refl.
  - eexists. reflexivity.
Qed.

(** The steps of the scheduler, one by one. *)
Ltac touches_step :=
  first
    [ apply keeps_ret; exact (touchesOnly_refl _)
    | apply keeps_throw; exact (touchesOnly_refl _)
    | apply keeps_toISOString; exact (touchesOnly_refl _)
    | apply keeps_liftNet_touches
    | apply keeps_bind; [exact (touchesOnly_trans _) | | intros ]
    | apply keeps_tryCatch; [exact (touchesOnly_trans _) | | intros ]
    | match goal with
      | |- keeps _ (if ?c then _ else _) => destruct c
      | |- keeps _ (match ?x with _ => _ end) => destruct x
      end ].

Lemma keeps_updatePostStatus (self : Scheduler) (i : Z) (st : Status)
    (postedAt errorMessage : option string) :
  keeps (touchesOnly [i]) (updatePostStatus self i st postedAt errorMessage).
Proof.
  apply keeps_dbRun_touches. intros w w'. apply update_status_touches.
Qed.

Lemma keeps_logPostingHistory (ids : list Z) (self : Scheduler) (i : Z) (platform : string)
    (st : Status) (responseData errorMessage : option string) :
  keeps (touchesOnly ids) (logPostingHistory self i platform st responseData errorMessage).
Proof.
  apply keeps_dbRun_touches. intros w w'. apply insert_history_touches.
Qed.

Lemma keeps_postToPlatform (ids : list Z) (self : Scheduler) (post : Post)
    (platform : string) :
  keeps (touchesOnly ids) (postToPlatform self post platform).
Proof. unfold postToPlatform. repeat touches_step. Qed.

Lemma keeps_attemptPlatform (ids : list Z) (self : Scheduler) (post : Post)
    (platform : string) :
  keeps (touchesOnly ids) (attemptPlatform self post platform).
Proof.
  unfold attemptPlatform.
  repeat first [apply keeps_postToPlatform | apply keeps_logPostingHistory | touches_step].
Qed.

Lemma keeps_forEachPlatform (ids : list Z) (self : Scheduler) (post : Post)
    (rest : list string) :
  forall successCount errors,
    keeps (touchesOnly ids) (forEachPlatform self post rest successCount errors).
Proof.
  induction rest as [|platform rest IH]; intros successCount errors; simpl.
  - apply keeps_ret. exact (touchesOnly_refl _).
  - apply keeps_bind; [exact (touchesOnly_trans _) | apply keeps_attemptPlatform |].
    intros [e|]; apply IH.
Qed.

Lemma keeps_scheduleRetry (self : Scheduler) (env : Env) (post : Post) :
  keeps (touchesOnly [id post]) (scheduleRetry self env post).
Proof.
  unfold scheduleRetry.
  repeat first
    [ apply keeps_dbRun_touches; intros w w'; apply update_retry_touches
    | touches_step ].
Qed.

Lemma keeps_processPost (self : Scheduler) (env : Env) (post : Post) :
  keeps (touchesOnly [id post]) (processPost self env post).
Proof.
  unfold processPost, nowISOString.
  repeat first
    [ apply keeps_updatePostStatus | apply keeps_forEachPlatform
    | apply keeps_scheduleRetry | touches_step ].
Qed.

Lemma keeps_forEachPost (self : Scheduler) (env : Env) (batch : list Post) :
  keeps (touchesOnly (map id batch)) (forEachPost self env batch).
Proof.
  induction batch as [|post rest IH]; simpl.
  - apply keeps_ret. exact (touchesOnly_refl _).
  - apply keeps_bind; [exact (touchesOnly_trans _) | |].
    + intros w. eapply touchesOnly_mono; [|apply keeps_processPost].
      intros i [<-|[]]. now left.
    + intros _ w. eapply touchesOnly_mono; [|apply IH].
      intros i Hi. now right.
Qed.

Lemma getScheduledPosts_cases (self : Scheduler) (now : string) (w : World) :
  store (snd (getScheduledPosts self now w)) = store w /\
  forall rows, fst (getScheduledPosts self now w) = Ok rows ->
               rows = Sql.select_due now (store w).
Proof.
  unfold getScheduledPosts, dbRun. destruct (db_open self); simpl.
  - destruct (faults w) as [|[msg|] rest]; simpl; split; auto; intros rows H;
      congruence.
  - split; [reflexivity|]. discriminate.
Qed.

Lemma tick_unfold (self : Scheduler) (env : Env) (w : World) :
  checkAndPostScheduledPosts self env w =
  tryCatch
    (batch <- getScheduledPosts self (JSDate.isoText (clock (net w))) ;;
     forEachPost self env batch)
    (fun error => logError "SCHEDULER_ERROR" (message error)) w.
Proof.
  unfold checkAndPostScheduledPosts, bind at 1. now rewrite nowISOString_run.
Qed.

Lemma tick_touches (self : Scheduler) (env : Env) (w : World) :
  fst (checkAndPostScheduledPosts self env w) = Ok tt /\
  touchesOnly (map id (Sql.select_due (JSDate.isoText (clock (net w))) (store w)))
    w (snd (checkAndPostScheduledPosts self env w)).
Proof.
  rewrite tick_unfold.
  set (now := JSDate.isoText (clock (net w))).
  unfold tryCatch, bind.
  destruct (getScheduledPosts_cases self now w) as [Hst Hrows].
  destruct (getScheduledPosts self now w) as [[batch|e] wq]; simpl in *.
  - rewrite <- (Hrows batch eq_refl).
    assert (Hq : touchesOnly (map id batch) w wq).
    { eapply touchesOnly_store; [exact Hst|apply touchesOnly_refl]. }
    pose proof (keeps_forEachPost self env batch wq) as Hloop.
    destruct (forEachPost self env batch wq) as [[[]|e] w1]; simpl in *.
    + split; [reflexivity|]. eapply touchesOnly_trans; eauto.
    + split; [reflexivity|]. eapply touchesOnly_trans; eauto.
  - split; [reflexivity|].
    eapply touchesOnly_store; [exact Hst|apply touchesOnly_refl].
Qed.

Lemma rowKept_frozen (ids : list Z) (rows rows' : list Post) :
  Forall2 (rowKept ids) rows rows' -> map frozen rows' = map frozen rows.
Proof. induction 1 as [|p p' rows rows' [Hf _] _ IH]; simpl; congruence. Qed.

Lemma frozen_ids (rows rows' : list Post) :
  map frozen rows' = map frozen rows -> map id rows' = map id rows.
Proof.
  revert rows'. induction rows as [|p rows IH]; intros [|p' rows'] H; simpl in *;
    try discriminate; [reflexivity|].
  inversion H as [[Hi Hc Hp Hs Ho Hm Hcr Hrest]]. f_equal; auto.
Qed.


Lemma find_post_kept (ids : list Z) (rows rows' : list Post) (p : Post) :
  Forall2 (rowKept ids) rows rows' ->
  NoDup (map id rows) ->
  In p rows ->
  ~ In (id p) ids ->
  find (fun q => id q =? id p) rows' = Some p.
Proof.
  induction 1 as [|q q' rows rows' [Hf Hk] Hrest IH]; intros Hnd Hin Hout; [destruct Hin|].
  simpl in Hnd. inversion Hnd as [|i0 rest0 Hfresh Hnd']; subst.
  simpl. rewrite (frozen_id _ _ Hf).
  destruct Hin as [->|Hin].
  - rewrite Z.eqb_refl. now rewrite (Hk Hout).
  - destruct (Z.eqb_spec (id q) (id p)) as [Heq|_]; [|now apply IH].
    exfalso. apply Hfresh. rewrite Heq. now apply in_map.
Qed.

Lemma due_ids (now : string) (s : Store) (p : Post) :
  NoDup (map id (posts s)) ->
  In p (posts s) ->
  In (id p) (map id (Sql.select_due now s)) ->
  Sql.is_due now p = true.
Proof.
  intros Hnd Hin Hid. apply in_map_iff in Hid as (q & Hq & Hdue).
  apply select_due_In in Hdue as (Hqin & Hs & Ht).
  assert (q = p) as <-.
  { pose proof (find_post_In s q Hnd Hqin) as H1.
    pose proof (find_post_In s p Hnd Hin) as H2.
    rewrite Hq in H1. congruence. }
  unfold Sql.is_due. now rewrite Hs, Ht.
Qed.



(** ** The retry budget *)

Lemma keeps_bind_mix {S A B : Type} (R1 R2 : S -> S -> Prop) (m : Eff S A)
    (k : A -> Eff S B) :
  (forall a b c, R1 a b -> R2 b c -> R2 a c) ->
  (forall a b, R1 a b -> R2 a b) ->
  keeps R1 m -> (forall x, keeps R2 (k x)) -> keeps R2 (bind m k).
Proof.
  intros Hcomp Hweak Hm Hk s. unfold bind. specialize (Hm s).
  destruct (m s) as [[a|e] s']; simpl in *; [|now apply Hweak].
  eapply Hcomp; [exact Hm|apply Hk].
Qed.

Lemma sameCounts_refl (w : World) : sameCounts w w.
Proof. reflexivity. Qed.

Lemma sameCounts_trans (a b c : World) : sameCounts a b -> sameCounts b c -> sameCounts a c.
Proof. unfold sameCounts. congruence. Qed.

Lemma counts_Forall (P : Z -> Z -> Prop) (rows rows' : list Post) :
  map (fun p => (id p, retry_count p)) rows' = map (fun p => (id p, retry_count p)) rows ->
  Forall (fun p => P (id p) (retry_count p)) rows ->
  Forall (fun p => P (id p) (retry_count p)) rows'.
Proof.
  revert rows'. induction rows as [|p rows IH]; intros [|p' rows'] Hmap H; simpl in *;
    try discriminate; constructor; inversion Hmap; inversion H; subst.
  - congruence.
  - now apply IH.
Qed.

Lemma sameCounts_bounded (limit : Z) (w w' : World) :
  sameCounts w w' -> bounded limit (store w) -> bounded limit (store w').
Proof.
  intros Hc. unfold bounded. apply (counts_Forall (fun _ rc => rc <= limit)). exact Hc.
Qed.

Lemma sameCounts_snapshot (post : Post) (w w' : World) :
  sameCounts w w' -> snapshotHolds post (store w) -> snapshotHolds post (store w').
Proof.
  intros Hc. unfold snapshotHolds.
  apply (counts_Forall (fun i rc => i = id post -> rc = retry_count post)). exact Hc.
Qed.

Lemma sameCounts_store (w w1 w2 : World) :
  store w2 = store w1 -> sameCounts w w1 -> sameCounts w w2.
Proof. unfold sameCounts. now intros ->. Qed.

Lemma keeps_dbRun_counts {A : Type} (isOpen : bool) (stmt : Z -> Store -> A * Store) :
  (forall now s,
      map (fun p => (id p, retry_count p)) (posts (snd (stmt now s))) =
      map (fun p => (id p, retry_count p)) (posts s)) ->
  keeps sameCounts (dbRun isOpen stmt).
Proof.
  intros H w. destruct (dbRun_store isOpen stmt w) as [Hs|Hs]; unfold sameCounts;
    rewrite Hs; [reflexivity|apply H].
Qed.

Lemma keeps_liftNet_counts {A : Type} (m : Eff Net A) : keeps sameCounts (liftNet m).
Proof. intros w. unfold liftNet. destruct (m (net w)). reflexivity. Qed.

Lemma update_status_counts (st : Status) (postedAt errorMessage : option string) (i : Z)
    (s : Store) :
  map (fun p => (id p, retry_count p))
      (posts (snd (Sql.update_status st postedAt errorMessage i s))) =
  map (fun p => (id p, retry_count p)) (posts s).
Proof.
  simpl. rewrite map_map. apply map_ext. intros p. now destruct (id p =? i).
Qed.

Ltac counts_step :=
  first
    [ apply keeps_ret; exact sameCounts_refl
    | apply keeps_throw; exact sameCounts_refl
    | apply keeps_toISOString; exact sameCounts_refl
    | apply keeps_liftNet_counts
    | apply keeps_dbRun_counts; intros; first [apply update_status_counts | reflexivity]
    | apply keeps_bind; [exact sameCounts_trans | | intros ]
    | apply keeps_tryCatch; [exact sameCounts_trans | | intros ]
    | match goal with
      | |- keeps _ (if ?c then _ else _) => destruct c
      | |- keeps _ (match ?x with _ => _ end) => destruct x
      end ].

Lemma counts_updatePostStatus (self : Scheduler) (i : Z) (st : Status)
    (postedAt errorMessage : option string) :
  keeps sameCounts (updatePostStatus self i st postedAt errorMessage).
Proof. unfold updatePostStatus. counts_step. Qed.

Lemma counts_attemptPlatform (self : Scheduler) (post : Post) (platform : string) :
  keeps sameCounts (attemptPlatform self post platform).
Proof.
  unfold attemptPlatform, postToPlatform, logPostingHistory. repeat counts_step.
Qed.

Lemma counts_forEachPlatform (self : Scheduler) (post : Post) (rest : list string) :
  forall successCount errors,
    keeps sameCounts (forEachPlatform self post rest successCount errors).
Proof.
  induction rest as [|platform rest IH]; intros successCount errors; simpl.
  - apply keeps_ret. exact sameCounts_refl.
  - apply keeps_bind; [exact sameCounts_trans | apply counts_attemptPlatform |].
    intros [e|]; apply IH.
Qed.

Lemma counts_then_budget (limit : Z) (post : Post) (a b c : World) :
  sameCounts a b -> keepsBudget limit post b c -> keepsBudget limit post a c.
Proof.
  intros Hab Hbc Hsnap Hb. apply Hbc.
  - eapply sameCounts_snapshot; eauto.
  - eapply sameCounts_bounded; eauto.
Qed.

Lemma counts_budget (limit : Z) (post : Post) (a b : World) :
  sameCounts a b -> keepsBudget limit post a b.
Proof. intros Hab _ Hb. eapply sameCounts_bounded; eauto. Qed.

Lemma budget_scheduleRetry (self : Scheduler) (env : Env) (post : Post) :
  (retry_count post <? maxRetries env) = true ->
  keeps (keepsBudget (maxRetries env) post) (scheduleRetry self env post).
Proof.
  intros Hlt. apply Z.ltb_lt in Hlt. unfold scheduleRetry.
  apply (keeps_bind_mix sameCounts);
    [apply counts_then_budget | apply counts_budget | apply keeps_liftNet_counts |].
  intros now.
  apply (keeps_bind_mix sameCounts);
    [apply counts_then_budget | apply counts_budget
    | apply keeps_toISOString; exact sameCounts_refl |].
  intros newTime w.
  destruct (dbRun_store (db_open self)
              (fun _ => Sql.update_retry newTime
                          ("Retry " ++ Str.ofZ (retry_count post + 1)) (id post)) w)
    as [Hs|Hs]; intros Hsnap Hb; unfold bounded in *; rewrite Hs; [exact Hb|].
  simpl. unfold snapshotHolds in Hsnap.
  clear Hs. induction (posts (store w)) as [|p rows IH]; simpl; constructor;
    inversion Hsnap; inversion Hb; subst; auto.
  destruct (Z.eqb_spec (id p) (id post)) as [Heq|_]; [|assumption].
  simpl. match goal with H : id p = id post -> _ |- _ => rewrite (H Heq) end. lia.
Qed.

Lemma budget_processPost (self : Scheduler) (env : Env) (post : Post) :
  keeps (keepsBudget (maxRetries env) post) (processPost self env post).
Proof.
  unfold processPost.
  apply (keeps_bind_mix sameCounts);
    [apply counts_then_budget | apply counts_budget | apply counts_updatePostStatus |].
  intros _.
  apply (keeps_bind_mix sameCounts);
    [apply counts_then_budget | apply counts_budget | apply counts_forEachPlatform |].
  intros [successCount errors].
  destruct (successCount =? _).
  { intros w. apply counts_budget. revert w. unfold nowISOString.
    repeat first [apply counts_updatePostStatus | counts_step]. }
  destruct (0 <? successCount).
  { intros w. apply counts_budget. revert w.
    repeat first [apply counts_updatePostStatus | counts_step]. }
  destruct (retry_count post <? maxRetries env) eqn:Hlt.
  - intros w. pose proof (budget_scheduleRetry self env post Hlt w) as H.
    unfold bind. destruct (scheduleRetry self env post w) as [[x|e] w']; exact H.
  - intros w. apply counts_budget. revert w.
    repeat first [apply counts_updatePostStatus | counts_step].
Qed.

Lemma touches_snapshot (ids : list Z) (q : Post) (w w' : World) :
  touchesOnly ids w w' -> ~ In (id q) ids ->
  snapshotHolds q (store w) -> snapshotHolds q (store w').
Proof.
  intros [Hrows _] Hout. unfold snapshotHolds.
  induction Hrows as [|p p' rows rows' [Hf Hk] _ IH]; intros Hs; constructor;
    inversion Hs; subst; auto.
  intros Hid. assert (id p' = id p) as Hi by (apply (f_equal (fun t => fst (fst (fst (fst (fst (fst t))))))) in Hf; exact Hf).
  rewrite Hk; [|congruence]. apply H1. congruence.
Qed.

Lemma budget_forEachPost (self : Scheduler) (env : Env) (batch : list Post) :
  forall w,
    NoDup (map id batch) ->
    Forall (fun q => snapshotHolds q (store w)) batch ->
    bounded (maxRetries env) (store w) ->
    bounded (maxRetries env) (store (snd (forEachPost self env batch w))).
Proof.
  induction batch as [|post rest IH]; intros w Hnd Hsnap Hb; [exact Hb|].
  simpl. unfold bind.
  pose proof (budget_processPost self env post w) as Hpost.
  pose proof (keeps_processPost self env post w) as Htouch.
  inversion Hnd as [|i0 rest0 Hfresh Hnd']; subst.
  inversion Hsnap as [|q0 rest1 Hq Hrest]; subst.
  destruct (processPost self env post w) as [[[]|e] w1]; simpl in *.
  - apply IH; [assumption| |now apply Hpost].
    rewrite Forall_forall in *. intros q Hin.
    eapply touches_snapshot; [exact Htouch| |now apply Hrest].
    intros [Heq|[]]. apply Hfresh. rewrite Heq. now apply in_map.
  - now apply Hpost.
Qed.

Lemma snapshot_of_row (s : Store) (q : Post) :
  NoDup (map id (posts s)) -> In q (posts s) -> snapshotHolds q s.
Proof.
  intros Hnd Hin. unfold snapshotHolds. apply Forall_forall. intros p Hp Hid.
  enough (p = q) by congruence.
  revert Hnd Hin Hp Hid. generalize (posts s) as rows.
  induction rows as [|r rows IH]; intros Hnd Hq Hp Hid; [destruct Hq|].
  destruct Hq as [Hq|Hq], Hp as [Hp|Hp]; simpl in Hnd; inversion Hnd; subst;
    try congruence.
  - exfalso. match goal with H : ~ In _ _ |- _ => apply H end.
    rewrite <- Hid. now apply in_map.
  - exfalso. match goal with H : ~ In _ _ |- _ => apply H end.
    rewrite Hid. now apply in_map.
  - now apply IH.
Qed.

Lemma tick_budget (self : Scheduler) (env : Env) (w : World) :
  NoDup (map id (posts (store w))) ->
  bounded (maxRetries env) (store w) ->
  bounded (maxRetries env) (store (snd (checkAndPostScheduledPosts self env w))).
Proof.
  intros Hnd Hb. rewrite tick_unfold.
  set (now := JSDate.isoText (clock (net w))).
  unfold tryCatch, bind.
  destruct (getScheduledPosts_cases self now w) as [Hst Hrows].
  destruct (getScheduledPosts self now w) as [[rows|e] w1]; simpl in *.
  - rewrite (Hrows rows eq_refl).
    assert (bounded (maxRetries env)
              (store (snd (forEachPost self env (Sql.select_due now (store w)) w1)))) as H.
    { apply budget_forEachPost.
      - now apply select_due_NoDup.
      - apply Forall_forall. intros q Hq. rewrite Hst.
        apply snapshot_of_row; [assumption|]. now apply select_due_In in Hq as [Hq _].
      - now rewrite Hst. }
    destruct (forEachPost self env (Sql.select_due now (store w)) w1) as [[[]|e] w2];
      simpl in *; exact H.
  - unfold logError. simpl. now rewrite Hst.
Qed.

(** ** What holds of the store whatever happens to it *)

Lemma preserves_refl (I : Store -> Prop) (w : World) : preserves I w w.
Proof. intros H. exact H. Qed.

Lemma preserves_trans (I : Store -> Prop) (a b c : World) :
  preserves I a b -> preserves I b c -> preserves I a c.
Proof. unfold preserves. auto. Qed.

Lemma keeps_attempt {S A : Type} (R : S -> S -> Prop) (m : Eff S A) :
  keeps R m -> keeps R (attempt m).
Proof. intros H s. specialize (H s). unfold attempt. now destruct (m s). Qed.

Lemma keeps_dbRun_preserves {A : Type} (I : Store -> Prop) (isOpen : bool)
    (stmt : Z -> Store -> A * Store) :
  (forall now s, I s -> I (snd (stmt now s))) ->
  keeps (preserves I) (dbRun isOpen stmt).
Proof.
  intros H w Hi. destruct (dbRun_store isOpen stmt w) as [Hs|Hs]; rewrite Hs; auto.
Qed.

Section Invariant.

Variable self : Scheduler.
Variable env : Env.
Variable parseDate : string -> JSDate.Date.
Variable zone : JSDate.Zone.

Variable I : Store -> Prop.

Hypothesis I_tick :
  forall w, I (store w) -> I (store (snd (checkAndPostScheduledPosts self env w))).
Hypothesis I_row :
  forall s p, id p = posts_seq s + 1 -> post_status p = scheduled -> retry_count p = 0 ->
              I s -> I (withRow s p).
Hypothesis I_series :
  forall s rows n, I s ->
    I (mkStore (posts s) rows (posting_history s) (posts_seq s) n (history_seq s)).
Hypothesis I_delete :
  forall s f, (forall p, post_status p <> scheduled -> f p = true) ->
              I s -> I (Sql.set_posts s (filter f (posts s))).

Lemma invariant_postPost (body : PostBody) (file : option string) :
  keeps (preserves I) (postPost body file).
Proof.
  unfold postPost.
  apply keeps_bind; [exact (preserves_trans I)| |].
  - apply keeps_attempt, keeps_dbRun_preserves. intros now s Hi.
    unfold Statements.insert_post.
    destruct (pb_content body), (pb_platforms body), (pb_scheduled_time body);
      simpl; auto.
    now apply (I_row s).
  - intros [[c|i]|e]; apply keeps_ret; exact (preserves_refl I).
Qed.

Lemma invariant_forEachMember (body : SeriesBody) (seriesId : Z) (rest : list string) :
  forall index, keeps (preserves I) (forEachMember parseDate zone body seriesId rest index).
Proof.
  induction rest as [|post rest IH]; intros index; simpl.
  - apply keeps_ret. exact (preserves_refl I).
  - apply keeps_bind; [exact (preserves_trans I)| |].
    + apply keeps_toISOString. exact (preserves_refl I).
    + intros text. apply keeps_bind; [exact (preserves_trans I)| |].
      * apply keeps_dbRun_preserves. intros now s Hi. now apply (I_row s).
      * intros _. apply IH.
Qed.

Lemma invariant_postSeries (body : SeriesBody) :
  keeps (preserves I) (postSeries parseDate zone body).
Proof.
  unfold postSeries.
  apply keeps_bind; [exact (preserves_trans I)| |].
  - apply keeps_attempt, keeps_dbRun_preserves. intros now s Hi. now apply I_series.
  - intros [i|e]; [|apply keeps_ret; exact (preserves_refl I)].
    apply keeps_bind; [exact (preserves_trans I)|apply invariant_forEachMember|].
    intros _. apply keeps_ret. exact (preserves_refl I).
Qed.

Lemma invariant_deletePost (postId : Z) : keeps (preserves I) (deletePost postId).
Proof.
  unfold deletePost.
  apply keeps_bind; [exact (preserves_trans I)| |].
  - apply keeps_attempt, keeps_dbRun_preserves. intros now s Hi.
    apply I_delete; [|exact Hi].
    intros p Hp. destruct (Status_eqb (post_status p) scheduled) eqn:Hs.
    + now apply Status_eqb_eq in Hs.
    + now rewrite andb_false_r.
  - intros [changes|e]; [destruct (changes =? 0)|]; apply keeps_ret;
      exact (preserves_refl I).
Qed.

Lemma invariant_perform (w : World) (op : Op) :
  I (store w) -> I (store (perform self env parseDate zone w op)).
Proof.
  destruct op as [|body file|body|postId|n plan]; simpl.
  - apply I_tick.
  - apply invariant_postPost.
  - apply invariant_postSeries.
  - apply invariant_deletePost.
  - auto.
Qed.

Lemma invariant_performAll (ops : list Op) :
  forall w, I (store w) -> I (store (performAll self env parseDate zone w ops)).
Proof.
  unfold performAll. induction ops as [|op ops IH]; intros w Hi; simpl; [exact Hi|].
  apply IH. now apply invariant_perform.
Qed.

End Invariant.

Lemma tick_ids (self : Scheduler) (env : Env) (w : World) :
  map id (posts (store (snd (checkAndPostScheduledPosts self env w)))) =
    map id (posts (store w)) /\
  posts_seq (store (snd (checkAndPostScheduledPosts self env w))) = posts_seq (store w).
Proof.
  destruct (tick_touches self env w) as [_ (Hrows & _ & _ & Hseq & _)].
  split; [|exact Hseq]. now apply frozen_ids, (rowKept_frozen _ _ _ Hrows).
Qed.

Lemma wellKeyed_ids (s s' : Store) :
  map id (posts s') = map id (posts s) -> posts_seq s' = posts_seq s ->
  wellKeyed s -> wellKeyed s'.
Proof.
  unfold wellKeyed. intros Hids Hseq [Hnd Hle]. rewrite Hids, Hseq. split; [exact Hnd|].
  rewrite Forall_forall in *. intros p Hp.
  assert (In (id p) (map id (posts s))) as Hin by (rewrite <- Hids; now apply in_map).
  apply in_map_iff in Hin as (q & <- & Hq). now apply Hle.
Qed.

Lemma wellKeyed_tick (self : Scheduler) (env : Env) (w : World) :
  wellKeyed (store w) -> wellKeyed (store (snd (checkAndPostScheduledPosts self env w))).
Proof. destruct (tick_ids self env w). now apply wellKeyed_ids. Qed.

Lemma wellKeyed_row (s : Store) (p : Post) :
  id p = posts_seq s + 1 -> wellKeyed s -> wellKeyed (withRow s p).
Proof.
  unfold wellKeyed. intros Hid [Hnd Hle]. simpl. split.
  - rewrite map_app. simpl.
    apply (Permutation_NoDup (l := id p :: map id (posts s))).
    + apply Permutation_cons_append.
    + constructor; [|exact Hnd]. intros Hin. apply in_map_iff in Hin as (q & Hq & Hin).
      rewrite Forall_forall in Hle. specialize (Hle q Hin). lia.
  - apply Forall_app. split.
    + eapply Forall_impl; [|exact Hle]. simpl. intros q Hq. lia.
    + constructor; [lia|constructor].
Qed.

Lemma wellKeyed_delete (s : Store) (f : Post -> bool) :
  wellKeyed s -> wellKeyed (Sql.set_posts s (filter f (posts s))).
Proof.
  unfold wellKeyed. intros [Hnd Hle]. simpl. split.
  - now apply NoDup_map_filter.
  - rewrite Forall_forall in *. intros p Hp. apply filter_In in Hp as [Hp _]. auto.
Qed.

Lemma bounded_row (limit : Z) (s : Store) (p : Post) :
  0 <= limit -> retry_count p = 0 -> bounded limit s -> bounded limit (withRow s p).
Proof.
  unfold bounded. intros Hl Hp Hb. simpl. apply Forall_app. split; [exact Hb|].
  constructor; [lia|constructor].
Qed.

Lemma bounded_delete (limit : Z) (s : Store) (f : Post -> bool) :
  bounded limit s -> bounded limit (Sql.set_posts s (filter f (posts s))).
Proof.
  unfold bounded. simpl. rewrite !Forall_forall. intros Hb p Hp.
  apply filter_In in Hp as [Hp _]. auto.
Qed.

(** X3.  The retry budget is never overdrawn.  With a retry limit
    that is not negative, rowids unique and no [retry_count] above the
    limit, no [retry_count] is above the limit after any sequence of
    whole ticks (each runs to its end before the next operation), of
    requests to the routes that write, and of changes of the world
    outside (clock, network, files, store failures to come). *)
Theorem retry_count_stays_within_the_limit (self : Scheduler) (env : Env)
    (parseDate : string -> JSDate.Date) (zone : JSDate.Zone) (ops : list Op) (w : World) :
  0 <= maxRetries env ->
  wellKeyed (store w) ->
  bounded (maxRetries env) (store w) ->
  bounded (maxRetries env) (store (performAll self env parseDate zone w ops)).
Proof.
  intros Hl Hk Hb.
  apply (invariant_performAll self env parseDate zone (sound (maxRetries env)));
    [| | | |now split].
  - intros w0 [Hk0 Hb0]. split; [now apply wellKeyed_tick|].
    apply tick_budget; [apply Hk0|exact Hb0].
  - intros s p Hid _ Hrc [Hk0 Hb0]. split; [now apply wellKeyed_row|now apply bounded_row].
  - intros s rows n Hs. exact Hs.
  - intros s f _ [Hk0 Hb0]. split; [now apply wellKeyed_delete|now apply bounded_delete].
Qed.

Lemma retry_count_stays_within_the_limit_witness :
  bounded 3 (store Day.after).
Proof.
  apply (retry_count_stays_within_the_limit Sample.scheduler Sample.env Series.parseDate
           Series.plusTwo Day.ops Day.world).
  - vm_compute. discriminate.
  - split; simpl.
    + repeat constructor; simpl; intuition discriminate.
    + repeat constructor; vm_compute; discriminate.
  - repeat constructor; vm_compute; discriminate.
Defined.

(** X4.  Rowids stay sound: unique and never above the counter of the
    table, after any sequence of whole ticks, requests and changes
    outside. *)
Theorem rowids_stay_unique (self : Scheduler) (env : Env)
    (parseDate : string -> JSDate.Date) (zone : JSDate.Zone) (ops : list Op) (w : World) :
  wellKeyed (store w) ->
  wellKeyed (store (performAll self env parseDate zone w ops)).
Proof.
  intros Hk.
  apply (invariant_performAll self env parseDate zone wellKeyed); [| | | |exact Hk].
  - intros w0. apply wellKeyed_tick.
  - intros s p Hid _ _. now apply wellKeyed_row.
  - intros s rows n Hs. exact Hs.
  - intros s f _. apply wellKeyed_delete.
Qed.

Lemma rowids_stay_unique_witness : wellKeyed (store Day.after).
Proof.
  apply (rowids_stay_unique Sample.scheduler Sample.env Series.parseDate Series.plusTwo
           Day.ops Day.world).
  split; simpl.
  - repeat constructor; simpl; intuition discriminate.
  - repeat constructor; vm_compute; discriminate.
Defined.

(** X5.  A rowid is never given twice.  Once a rowid has been given
    out and its row is gone (deleted), no row has that rowid again,
    whatever whole ticks, requests and changes outside follow: the history
    rows of a deleted post are never attached to another post. *)
Theorem a_rowid_is_never_given_twice (self : Scheduler) (env : Env)
    (parseDate : string -> JSDate.Date) (zone : JSDate.Zone) (ops : list Op) (w : World)
    (i : Z) :
  i <= posts_seq (store w) ->
  ~ In i (map id (posts (store w))) ->
  ~ In i (map id (posts (store (performAll self env parseDate zone w ops)))).
Proof.
  intros Hle Hout.
  apply (invariant_performAll self env parseDate zone (retired i)); [| | | |now split].
  - intros w0 [H1 H2]. destruct (tick_ids self env w0) as [Hids Hseq].
    unfold retired. now rewrite Hids, Hseq.
  - intros s p Hid _ _ [H1 H2]. unfold retired. simpl. split; [lia|].
    rewrite map_app, in_app_iff. simpl. intros [H|[H|[]]]; [auto|lia].
  - intros s rows n Hs. exact Hs.
  - intros s f _ [H1 H2]. split; [exact H1|]. simpl. intros Hin.
    apply in_map_iff in Hin as (q & Hq & Hin). apply filter_In in Hin as [Hin _].
    apply H2. rewrite <- Hq. now apply in_map.
Qed.

Lemma a_rowid_is_never_given_twice_witness :
  ~ In 4 (map id (posts (store
       (performAll Sample.scheduler Sample.env Series.parseDate Series.plusTwo
          (snd (deletePost 4 Day.world))
          [DoCreatePost Day.fifth None; DoCreateSeries Series.body; DoTick])))).
Proof.
  apply a_rowid_is_never_given_twice.
  - vm_compute. discriminate.
  - vm_compute. intuition discriminate.
Defined.

Lemma holds_tick (self : Scheduler) (env : Env) (p : Post) (w : World) :
  post_status p <> scheduled ->
  holds p (store w) -> holds p (store (snd (checkAndPostScheduledPosts self env w))).
Proof.
  intros Hp [Hk Hin]. split; [now apply wellKeyed_tick|].
  destruct (tick_touches self env w) as [_ (Hrows & _)].
  assert (~ In (id p)
            (map id (Sql.select_due (JSDate.isoText (clock (net w))) (store w)))) as Hout.
  { intros Hdue. apply due_ids in Hdue; [|apply Hk|exact Hin].
    unfold Sql.is_due in Hdue. apply andb_true_iff in Hdue as [Hs _].
    now apply Status_eqb_eq in Hs. }
  pose proof (find_post_kept _ _ _ p Hrows (proj1 Hk) Hin Hout) as Hfind.
  apply find_some in Hfind. apply Hfind.
Qed.

(** X6.  A post that has left [scheduled] is out of reach.  With
    rowids unique, a row whose status is [posting], [posted], [partial]
    or [failed] is still in the table, column for column, after any
    sequence of whole ticks, requests and changes outside: no tick that
    starts afterwards picks it up, no request deletes or rewrites it.
    This includes a row left in [posting] by a tick that ended early. *)
Theorem a_post_that_left_scheduled_stays_as_it_is (self : Scheduler) (env : Env)
    (parseDate : string -> JSDate.Date) (zone : JSDate.Zone) (ops : list Op) (w : World)
    (p : Post) :
  wellKeyed (store w) ->
  In p (posts (store w)) ->
  post_status p <> scheduled ->
  In p (posts (store (performAll self env parseDate zone w ops))).
Proof.
  intros Hk Hin Hp.
  apply (invariant_performAll self env parseDate zone (holds p)); [| | | |now split].
  - intros w0. now apply holds_tick.
  - intros s q Hid _ _ [Hk0 Hin0]. split; [now apply wellKeyed_row|].
    simpl. apply in_app_iff. now left.
  - intros s rows n Hs. exact Hs.
  - intros s f Hf [Hk0 Hin0]. split; [now apply wellKeyed_delete|].
    simpl. apply filter_In. split; [exact Hin0|now apply Hf].
Qed.

Lemma a_post_that_left_scheduled_stays_as_it_is_witness :
  In Sample.inFlight (posts (store Day.after)).
Proof.
  apply (a_post_that_left_scheduled_stays_as_it_is Sample.scheduler Sample.env
           Series.parseDate Series.plusTwo Day.ops Day.world Sample.inFlight).
  - split; simpl.
    + repeat constructor; simpl; intuition discriminate.
    + repeat constructor; vm_compute; discriminate.
  - simpl. auto.
  - discriminate.
Defined.

(** X7.  History is append-only.  After any sequence of whole ticks,
    requests and changes outside, the history table is what it was
    followed by the entries added since: no entry is removed, rewritten
    or reordered, not even when the post it belongs to is deleted. *)
Theorem history_is_only_added_to (self : Scheduler) (env : Env)
    (parseDate : string -> JSDate.Date) (zone : JSDate.Zone) (ops : list Op) (w : World) :
  exists added,
    posting_history (store (performAll self env parseDate zone w ops)) =
    (posting_history (store w) ++ added)%list.
Proof.
  apply (invariant_performAll self env parseDate zone (extends (posting_history (store w)))).
  - intros w0 [added Ha].
    destruct (tick_touches self env w0) as [_ (_ & [more Hm] & _)].
    exists (added ++ more)%list. now rewrite Hm, Ha, app_assoc.
  - intros s q _ _ _ Hs. exact Hs.
  - intros s rows n Hs. exact Hs.
  - intros s f _ Hs. exact Hs.
  - exists []. now rewrite app_nil_r.
Qed.

(** ** Platforms out of reach *)

Lemma keeps_weaken {S A : Type} (R1 R2 : S -> S -> Prop) (m : Eff S A) :
  (forall a b, R1 a b -> R2 a b) -> keeps R1 m -> keeps R2 m.
Proof. intros H Hm s. apply H, Hm. Qed.

Lemma keeps_bind_post {S A B : Type} (R : S -> S -> Prop) (P : A -> Prop) (m : Eff S A)
    (k : A -> Eff S B) :
  (forall a b c, R a b -> R b c -> R a c) ->
  keeps R m ->
  (forall s a, fst (m s) = Ok a -> P a) ->
  (forall a, P a -> keeps R (k a)) ->
  keeps R (bind m k).
Proof.
  intros Htrans Hm Hp Hk s. unfold bind. specialize (Hm s). specialize (Hp s).
  destruct (m s) as [[a|e] s']; simpl in *; [|exact Hm].
  eapply Htrans; [exact Hm|]. now apply Hk, Hp.
Qed.

Lemma samePosts_refl (w : World) : samePosts w w.
Proof. reflexivity. Qed.

Lemma samePosts_trans (a b c : World) : samePosts a b -> samePosts b c -> samePosts a c.
Proof. unfold samePosts. congruence. Qed.

Lemma keeps_liftNet_posts {A : Type} (m : Eff Net A) : keeps samePosts (liftNet m).
Proof. intros w. unfold liftNet. destruct (m (net w)). reflexivity. Qed.

Lemma posts_logPostingHistory (self : Scheduler) (postId : Z) (platform : string)
    (st : Status) (responseData errorMessage : option string) :
  keeps samePosts (logPostingHistory self postId platform st responseData errorMessage).
Proof.
  intros w. unfold logPostingHistory, samePosts.
  destruct (dbRun_store (db_open self)
              (fun now => Sql.insert_history now postId platform st responseData errorMessage)
              w) as [Hs|Hs]; rewrite Hs; reflexivity.
Qed.

Lemma posts_attemptPlatform (self : Scheduler) (post : Post) (platform : string) :
  keeps samePosts (attemptPlatform self post platform).
Proof.
  unfold attemptPlatform, postToPlatform.
  repeat first
    [ apply posts_logPostingHistory
    | apply keeps_liftNet_posts
    | apply keeps_ret; exact samePosts_refl
    | apply keeps_throw; exact samePosts_refl
    | apply keeps_bind; [exact samePosts_trans | | intros ]
    | apply keeps_tryCatch; [exact samePosts_trans | | intros ]
    | match goal with
      | |- keeps _ (if ?c then _ else _) => destruct c
      end ].
Qed.

Lemma posts_forEachPlatform (self : Scheduler) (post : Post) (rest : list string) :
  forall successCount errors,
    keeps samePosts (forEachPlatform self post rest successCount errors).
Proof.
  induction rest as [|platform rest IH]; intros successCount errors; simpl.
  - apply keeps_ret. exact samePosts_refl.
  - apply keeps_bind; [exact samePosts_trans | apply posts_attemptPlatform |].
    intros [e|]; apply IH.
Qed.

Lemma samePosts_preserves (I : list Post -> Prop) (a b : World) :
  samePosts a b -> preserves (fun s => I (posts s)) a b.
Proof. unfold samePosts, preserves. now intros ->. Qed.

Lemma update_status_notPosted (st : Status) (postedAt errorMessage : option string)
    (i j : Z) (s : Store) :
  st <> posted ->
  notPosted i s -> notPosted i (snd (Sql.update_status st postedAt errorMessage j s)).
Proof.
  unfold notPosted. simpl. intros Hst H. apply Forall_map.
  eapply Forall_impl; [|exact H]. intros r Hr. simpl.
  destruct (id r =? j); simpl; auto.
Qed.

Lemma update_retry_notPosted (newTime errorMessage : string) (i j : Z) (s : Store) :
  notPosted i s -> notPosted i (snd (Sql.update_retry newTime errorMessage j s)).
Proof.
  unfold notPosted. simpl. intros H. apply Forall_map.
  eapply Forall_impl; [|exact H]. intros r Hr. simpl.
  destruct (id r =? j); simpl; [discriminate|auto].
Qed.

Lemma unreachable_throws (self : Scheduler) (piece : string) :
  unreachable self piece = true ->
  forall post w, exists e, postToPlatform self post (Str.trim piece) w = (Thrown e, w).
Proof.
  unfold unreachable, postToPlatform. intros H post w.
  destruct (String.eqb (Str.trim piece) "twitter").
  - unfold Twitter.postTweet, liftNet. rewrite H. simpl. rewrite World_eta. eexists; reflexivity.
  - destruct (String.eqb (Str.trim piece) "linkedin").
    + unfold LinkedIn.postUpdate, liftNet. rewrite H. simpl. rewrite World_eta. eexists; reflexivity.
    + simpl. eexists; reflexivity.
Qed.

Section Dead.

Variable self : Scheduler.
Variable dead : string -> bool.

Hypothesis dead_throws :
  forall piece, dead piece = true ->
    forall post w, exists e, postToPlatform self post (Str.trim piece) w = (Thrown e, w).

Lemma attemptPlatform_dead (post : Post) (piece : string) (w : World) :
  dead piece = true -> fst (attemptPlatform self post piece w) <> Ok None.
Proof.
  intros Hd. unfold attemptPlatform, tryCatch, bind.
  destruct (dead_throws piece Hd post w) as [e He]. rewrite He. simpl.
  destruct (logPostingHistory self (id post) piece failed None (Some (message e)) w)
    as [[i|e'] w']; simpl; discriminate.
Qed.

Lemma forEachPlatform_tally (post : Post) (rest : list string) :
  forall successCount errors w successCount' errors',
    fst (forEachPlatform self post rest successCount errors w) = Ok (successCount', errors') ->
    successCount' <= successCount + Z.of_nat (List.length rest) /\
    (existsb dead rest = true ->
     successCount' < successCount + Z.of_nat (List.length rest)).
Proof.
  induction rest as [|piece rest IH]; intros sc errs w sc' errs' H.
  - simpl in *. inversion H; subst. split; [lia|discriminate].
  - cbn [forEachPlatform] in H. unfold bind in H.
    pose proof (attemptPlatform_dead post piece w) as Hdead.
    destruct (attemptPlatform self post piece w) as [[[e|]|err] w1]; cbn [fst] in *.
    + apply IH in H as [Hle Hlt]. cbn [List.length]. split; [lia|]. intros _. lia.
    + apply IH in H as [Hle Hlt]. cbn [List.length existsb]. split; [lia|].
      destruct (dead piece); [now contradiction Hdead|]. simpl. intros Hx.
      specialize (Hlt Hx). lia.
    + discriminate.
Qed.

Lemma processPost_dead (env : Env) (post : Post) :
  names dead post = true ->
  keeps (preserves (notPosted (id post))) (processPost self env post).
Proof.
  intros Hn. unfold processPost.
  apply keeps_bind; [exact (preserves_trans _)| |].
  { apply keeps_dbRun_preserves. intros now s. now apply update_status_notPosted. }
  intros _.
  apply (keeps_bind_post _
           (fun tally => fst tally < Z.of_nat (List.length (Str.split "," (platforms post)))));
    [exact (preserves_trans _)| | |].
  { eapply keeps_weaken; [|apply posts_forEachPlatform].
    intros a b. apply (samePosts_preserves (fun rows => Forall _ rows)). }
  { intros w [sc errs] H. apply forEachPlatform_tally in H as [_ H]. simpl.
    specialize (H Hn). lia. }
  intros [sc errs] Hlt. simpl in Hlt.
  destruct (Z.eqb_spec sc (Z.of_nat (List.length (Str.split "," (platforms post)))));
    [lia|].
  destruct (0 <? sc).
  { apply keeps_bind; [exact (preserves_trans _)| |intros; apply keeps_ret;
                                                    exact (preserves_refl _)].
    apply keeps_dbRun_preserves. intros now s. now apply update_status_notPosted. }
  destruct (retry_count post <? maxRetries env).
  - apply keeps_bind; [exact (preserves_trans _)| |intros; apply keeps_ret;
                                                    exact (preserves_refl _)].
    unfold scheduleRetry.
    apply keeps_bind; [exact (preserves_trans _)| |intros now].
    { eapply keeps_weaken; [|apply keeps_liftNet_posts].
      intros a b. apply (samePosts_preserves (fun rows => Forall _ rows)). }
    apply keeps_bind; [exact (preserves_trans _)| |intros newTime].
    { apply keeps_toISOString. exact (preserves_refl _). }
    apply keeps_dbRun_preserves. intros t s. apply update_retry_notPosted.
  - apply keeps_bind; [exact (preserves_trans _)| |intros; apply keeps_ret;
                                                    exact (preserves_refl _)].
    apply keeps_dbRun_preserves. intros now s. now apply update_status_notPosted.
Qed.

Lemma neverPosted_rows (post : Post) (rows rows' : list Post) :
  Forall2 (rowKept [id post]) rows rows' ->
  Forall (fun r => id r = id post -> platforms r = platforms post) rows ->
  (names dead post = true ->
   Forall (fun r => id r = id post -> post_status r <> posted) rows') ->
  Forall (fun r => names dead r = true -> post_status r <> posted) rows ->
  Forall (fun r => names dead r = true -> post_status r <> posted) rows'.
Proof.
  induction 1 as [|r r' rows rows' [Hf Hk] _ IH]; intros Hknown Hnot Hnever;
    constructor; inversion Hknown as [|r0 rows0 Hr Hrows]; subst;
    inversion Hnever as [|r1 rows1 Hn1 Hnrows]; subst.
  - assert (id r' = id r /\ platforms r' = platforms r) as [Hi Hp].
    { unfold frozen in Hf. inversion Hf. auto. }
    destruct (Z.eq_dec (id r) (id post)) as [Heq|Hne].
    + intros Hn. assert (names dead post = true) as Hnp.
      { unfold names in *. now rewrite <- (Hr Heq), <- Hp. }
      specialize (Hnot Hnp). inversion Hnot as [|r2 rows2 Hr2 _]; subst.
      apply Hr2. congruence.
    + rewrite Hk; [assumption|]. intros [H|[]]. congruence.
  - apply IH; auto. intros Hn. specialize (Hnot Hn). now inversion Hnot.
Qed.

Lemma known_notPosted (post : Post) (s : Store) :
  names dead post = true -> known post s -> neverPosted dead s -> notPosted (id post) s.
Proof.
  unfold known, neverPosted, notPosted. intros Hn Hk Hnever.
  rewrite Forall_forall in *. intros r Hr Hid. apply Hnever; [exact Hr|].
  unfold names in *. now rewrite (Hk r Hr Hid).
Qed.

Lemma neverPosted_processPost (env : Env) (post : Post) (w : World) :
  known post (store w) -> neverPosted dead (store w) ->
  neverPosted dead (store (snd (processPost self env post w))).
Proof.
  intros Hk Hnever.
  destruct (keeps_processPost self env post w) as [Hrows _].
  eapply neverPosted_rows; [exact Hrows|exact Hk| |exact Hnever].
  intros Hn. apply (processPost_dead env post Hn w). now apply known_notPosted.
Qed.

Lemma touches_known (ids : list Z) (q : Post) (w w' : World) :
  touchesOnly ids w w' -> known q (store w) -> known q (store w').
Proof.
  intros [Hrows _]. unfold known.
  induction Hrows as [|p p' rows rows' [Hf _] _ IH]; intros Hs; constructor;
    inversion Hs; subst; auto.
  unfold frozen in Hf. inversion Hf. intros Hid.
  match goal with H : id p = id q -> _ |- _ => rewrite <- H end; congruence.
Qed.

Lemma neverPosted_forEachPost (env : Env) (batch : list Post) :
  forall w,
    Forall (fun q => known q (store w)) batch ->
    neverPosted dead (store w) ->
    neverPosted dead (store (snd (forEachPost self env batch w))).
Proof.
  induction batch as [|post rest IH]; intros w Hk Hnever; [exact Hnever|].
  simpl. unfold bind.
  pose proof (neverPosted_processPost env post w) as Hpost.
  pose proof (keeps_processPost self env post w) as Htouch.
  inversion Hk as [|q0 rest0 Hq Hrest]; subst.
  destruct (processPost self env post w) as [[[]|e] w1]; simpl in *; [|now apply Hpost].
  apply IH; [|now apply Hpost].
  eapply Forall_impl; [|exact Hrest]. intros q. exact (touches_known _ q _ _ Htouch).
Qed.

Lemma known_of_row (s : Store) (q : Post) :
  NoDup (map id (posts s)) -> In q (posts s) -> known q s.
Proof.
  intros Hnd Hin. unfold known. apply Forall_forall. intros p Hp Hid.
  enough (p = q) by congruence.
  revert Hnd Hin Hp Hid. generalize (posts s) as rows.
  induction rows as [|r rows IH]; intros Hnd Hq Hp Hid; [destruct Hq|].
  destruct Hq as [Hq|Hq], Hp as [Hp|Hp]; simpl in Hnd; inversion Hnd; subst;
    try congruence.
  - exfalso. match goal with H : ~ In _ _ |- _ => apply H end.
    rewrite <- Hid. now apply in_map.
  - exfalso. match goal with H : ~ In _ _ |- _ => apply H end.
    rewrite Hid. now apply in_map.
  - now apply IH.
Qed.

Lemma neverPosted_tick (env : Env) (w : World) :
  NoDup (map id (posts (store w))) ->
  neverPosted dead (store w) ->
  neverPosted dead (store (snd (checkAndPostScheduledPosts self env w))).
Proof.
  intros Hnd Hnever. rewrite tick_unfold.
  set (now := JSDate.isoText (clock (net w))).
  unfold tryCatch, bind.
  destruct (getScheduledPosts_cases self now w) as [Hst Hrows].
  destruct (getScheduledPosts self now w) as [[rows|e] w1]; simpl in *.
  - rewrite (Hrows rows eq_refl).
    assert (neverPosted dead
              (store (snd (forEachPost self env (Sql.select_due now (store w)) w1)))) as H.
    { apply neverPosted_forEachPost.
      - apply Forall_forall. intros q Hq. rewrite Hst.
        apply known_of_row; [assumption|]. now apply select_due_In in Hq as [Hq _].
      - now rewrite Hst. }
    destruct (forEachPost self env (Sql.select_due now (store w)) w1) as [[[]|e] w2];
      simpl in *; exact H.
  - unfold logError. simpl. now rewrite Hst.
Qed.

Lemma neverPosted_performAll (env : Env) (parseDate : string -> JSDate.Date)
    (zone : JSDate.Zone) (ops : list Op) (w : World) :
  wellKeyed (store w) -> neverPosted dead (store w) ->
  wellKeyed (store (performAll self env parseDate zone w ops)) /\
  neverPosted dead (store (performAll self env parseDate zone w ops)).
Proof.
  intros Hk Hn.
  apply (invariant_performAll self env parseDate zone
           (fun s => wellKeyed s /\ neverPosted dead s)); [| | | |now split].
  - intros w0 [Hk0 Hn0]. split; [now apply wellKeyed_tick|].
    apply neverPosted_tick; [apply Hk0|exact Hn0].
  - intros s p Hid Hst _ [Hk0 Hn0]. split; [now apply wellKeyed_row|].
    unfold neverPosted. simpl. apply Forall_app. split; [exact Hn0|].
    constructor; [|constructor]. intros _. rewrite Hst. discriminate.
  - intros s rows n Hs. exact Hs.
  - intros s f _ [Hk0 Hn0]. split; [now apply wellKeyed_delete|].
    unfold neverPosted in *. simpl. rewrite Forall_forall in *. intros p Hp.
    apply filter_In in Hp as [Hp _]. auto.
Qed.

End Dead.


(** X9.  A scheduler as [new Scheduler()] builds it never gets a post
    for LinkedIn to [posted]: the constructor of the LinkedIn service
    leaves the access token null and nothing in the scheduler sets it,
    so [postUpdate] throws before any request.  With rowids unique and
    no post that names linkedin [posted] to begin with, none is after
    any sequence of whole ticks, requests and changes outside, whatever
    the credentials in the environment. *)
Theorem a_new_scheduler_never_posts_to_linkedin (c : Credentials) (env : Env)
    (parseDate : string -> JSDate.Date) (zone : JSDate.Zone) (ops : list Op) (w : World)
    (p : Post) :
  wellKeyed (store w) ->
  neverPosted isLinkedin (store w) ->
  In p (posts (store (performAll (newScheduler c) env parseDate zone w ops))) ->
  names isLinkedin p = true ->
  post_status p <> posted.
Proof.
  intros Hk Hn Hin Hp.
  assert (forall piece, isLinkedin piece = true ->
            forall post w0, exists e,
              postToPlatform (newScheduler c) post (Str.trim piece) w0 = (Thrown e, w0))
    as Hdead.
  { intros piece Hl. apply unreachable_throws. unfold unreachable, isLinkedin in *.
    rewrite Hl. apply String.eqb_eq in Hl. rewrite Hl. reflexivity. }
  destruct (neverPosted_performAll (newScheduler c) isLinkedin Hdead
              env parseDate zone ops w Hk Hn) as [_ H].
  unfold neverPosted in H. rewrite Forall_forall in H. now apply H.
Qed.


Lemma a_new_scheduler_never_posts_to_linkedin_witness :
  post_status
    (withStatus Reach.both partial None
       (Some "linkedin: LinkedIn access token not available. Please authenticate first."))
  <> posted.
Proof.
  apply (a_new_scheduler_never_posts_to_linkedin Reach.credentials Sample.env
           Series.parseDate Series.plusTwo [DoTick] (Reach.worldOf Reach.both)).
  - split; simpl.
    + repeat constructor; simpl; intuition discriminate.
    + repeat constructor; vm_compute; discriminate.
  - repeat constructor; vm_compute; discriminate.
  - vm_compute. right. left. reflexivity.
  - reflexivity.
Defined.

(** ** The publishers when a step before the post fails *)

Lemma plain_message (msg : string) :
  Js.toStr (Js.or (Js.optProp "message" (responseData (newError msg))) (JStr msg)) = msg.
Proof. reflexivity. Qed.

Lemma uploadMedia_plain (self : Twitter.TwitterService) (path : string) (n : Net)
    (e : Error) :
  fst (Twitter.uploadMedia self path n) = Thrown e -> response e = None.
Proof.
  unfold Twitter.uploadMedia, existsSync, readFileSync, Twitter.authHeader, gets, bind,
    tryCatch, throw.
  destruct (existsb _ (files n)); simpl; [|intros H; now inversion H].
  destruct (find _ (files n)); simpl; [|intros H; now inversion H].
  match goal with |- context [axios ?r n] => destruct (axios r n) as [[resp|err] n'] end;
    simpl.
  - unfold getProp. destruct (Js.nullish (data resp)); simpl; intros H; now inversion H.
  - intros H. now inversion H.
Qed.

(** X10.  A failed upload stops the tweet.  When the API key is set,
    the post has a media path and [uploadMedia] throws (file missing,
    upload refused, reply without a media id), [postTweet] sends
    nothing more (it leaves the network as the upload attempt left it),
    so no tweet without its picture is created, and it throws "Failed
    to post to Twitter: " followed by the message of the upload error,
    whatever the status of the upload reply: a 401, 403 or 429 from
    the upload endpoint is not reported as an authentication,
    permission or rate-limit failure. *)
Theorem a_failed_upload_stops_the_tweet (self : Twitter.TwitterService)
    (content path : string) (n : Net) (e : Error) :
  configured (Twitter.apiKey self) = true ->
  Str.truthy path = true ->
  fst (Twitter.uploadMedia self path n) = Thrown e ->
  Twitter.postTweet self content (Some path) n =
    (Thrown (newError ("Failed to post to Twitter: " ++ message e)),
     snd (Twitter.uploadMedia self path n)).
Proof.
  intros Hkey Hpath Hup. pose proof (uploadMedia_plain self path n e Hup) as Hplain.
  unfold Twitter.postTweet. rewrite Hkey, Hpath. cbn [negb].
  unfold tryCatch, bind at 1.
  destruct (Twitter.uploadMedia self path n) as [[v|e'] n']; simpl in Hup;
    [discriminate|]. inversion Hup; subst e'. cbn [snd].
  destruct e as [msg resp]. simpl in Hplain. subst resp. reflexivity.
Qed.

Lemma a_failed_upload_stops_the_tweet_witness :
  Twitter.postTweet Sample.twitter "hello" (Some Media.path) Upload.net =
    (Thrown (newError
       ("Failed to post to Twitter: Failed to upload media to Twitter: " ++
        "Request failed with status code 401")),
     snd (Twitter.uploadMedia Sample.twitter Media.path Upload.net)).
Proof.
  exact (a_failed_upload_stops_the_tweet Sample.twitter "hello" Media.path Upload.net
           (newError ("Failed to upload media to Twitter: " ++
                      "Request failed with status code 401"))
           eq_refl eq_refl eq_refl).
Defined.

Lemma getProfile_plain (self : LinkedIn.LinkedInService) (n : Net) (e : Error) :
  fst (LinkedIn.getProfile self n) = Thrown e -> response e = None.
Proof.
  unfold LinkedIn.getProfile.
  destruct (negb (configured (LinkedIn.accessToken self))); simpl;
    [intros H; now inversion H|].
  unfold tryCatch.
  match goal with |- context [bind ?m ?k n] => destruct (bind m k n) as [[v|err] n'] end;
    simpl; intros H; [discriminate|now inversion H].
Qed.

(** X11.  A failed profile request stops the update.  With an access
    token set, when [getProfile] throws, [postUpdate] sends nothing
    more and throws "Failed to post to LinkedIn: " followed by the
    message of the profile error, whatever the status of the reply to
    the profile request: an expired token (401 at the profile request)
    is not reported as "LinkedIn authentication failed". *)
Theorem a_failed_profile_stops_the_update (self : LinkedIn.LinkedInService)
    (content : string) (mediaPath : option string) (n : Net) (e : Error) :
  configured (LinkedIn.accessToken self) = true ->
  fst (LinkedIn.getProfile self n) = Thrown e ->
  LinkedIn.postUpdate self content mediaPath n =
    (Thrown (newError ("Failed to post to LinkedIn: " ++ message e)),
     snd (LinkedIn.getProfile self n)).
Proof.
  intros Htoken Hp. pose proof (getProfile_plain self n e Hp) as Hplain.
  unfold LinkedIn.postUpdate. rewrite Htoken. cbn [negb].
  unfold tryCatch, bind at 1.
  destruct (LinkedIn.getProfile self n) as [[v|e'] n']; simpl in Hp; [discriminate|].
  inversion Hp; subst e'. cbn [snd].
  destruct e as [msg resp]. simpl in Hplain. subst resp. reflexivity.
Qed.

Lemma a_failed_profile_stops_the_update_witness :
  LinkedIn.postUpdate Sample.linkedin "hello" None Upload.expired =
    (Thrown (newError "Failed to post to LinkedIn: Failed to get LinkedIn profile: no"),
     snd (LinkedIn.getProfile Sample.linkedin Upload.expired)).
Proof.
  exact (a_failed_profile_stops_the_update Sample.linkedin "hello" None Upload.expired
           (newError "Failed to get LinkedIn profile: no") eq_refl eq_refl).
Defined.

(** ** Checking credentials *)

(** X12.  [validateCredentials] of the Twitter service never throws
    and always sends exactly one request, [GET verify_credentials],
    even when no credential is configured; its answer has [valid] true
    or false, and [getAccountInfo] returns that answer when [valid] is
    true and throws "Invalid Twitter credentials" otherwise, sending
    nothing more. *)
Theorem twitter_validation_never_throws (self : Twitter.TwitterService) (n : Net) :
  exists v,
    fst (TwitterMore.validateCredentials self n) = Ok v /\
    (Js.prop "valid" v = JBool true \/ Js.prop "valid" v = JBool false) /\
    sent (snd (TwitterMore.validateCredentials self n)) =
      (sent n ++
       [TwitterMore.verifyRequest
          (oauth1 n "GET" "https://api.twitter.com/1.1/account/verify_credentials.json")])%list /\
    TwitterMore.getAccountInfo self n =
      (if Js.truthy (Js.prop "valid" v) then Ok v
       else Thrown (newError "Invalid Twitter credentials"),
       snd (TwitterMore.validateCredentials self n)).
Proof.
  unfold TwitterMore.getAccountInfo, bind at 1.
  unfold TwitterMore.validateCredentials, tryCatch, bind, Twitter.authHeader, gets, axios,
    getProp.
  destruct (net_script n) as [|[ms [st d|reason]] rest]; simpl.
  - eexists. repeat split; auto.
  - destruct ((200 <=? st) && (st <? 300)); simpl.
    + destruct (Js.nullish d); simpl; eexists; repeat split; auto.
    + eexists. repeat split; auto.
  - eexists. repeat split; auto.
Qed.


(** ** The routes that write *)



Lemma wellKeyed_below (s : Store) :
  wellKeyed s -> Forall (fun p => id p < posts_seq s + 1) (posts s).
Proof. intros [_ H]. eapply Forall_impl; [|exact H]. simpl. intros p Hp. lia. Qed.



Lemma filter_all {A : Type} (f : A -> bool) (l : list A) :
  Forall (fun x => f x = true) l -> filter f l = l.
Proof. induction 1 as [|x l Hx _ IH]; simpl; [reflexivity|]. now rewrite Hx, IH. Qed.

Lemma filter_none {A : Type} (f : A -> bool) (l : list A) :
  filter f l = [] -> Forall (fun x => f x = false) l.
Proof.
  induction l as [|x l IH]; simpl; [constructor|].
  destruct (f x) eqn:Hx; [discriminate|]. intros H. constructor; auto.
Qed.

Lemma set_posts_same (s : Store) : Sql.set_posts s (posts s) = s.
Proof. now destruct s. Qed.

(** X14.  [POST /api/posts] never throws and answers 200 or 500; on
    500 nothing is stored; and it answers 500 whenever [content],
    [platforms] or [scheduled_time] is missing from the form. *)
Theorem a_refused_post_stores_nothing (body : PostBody) (file : option string) (w : World) :
  exists reply,
    fst (postPost body file w) = Ok reply /\
    (code reply = 200 \/ code reply = 500) /\
    (code reply = 500 -> store (snd (postPost body file w)) = store w) /\
    (pb_content body = None \/ pb_platforms body = None \/ pb_scheduled_time body = None ->
     code reply = 500).
Proof.
  unfold postPost, attempt, bind, dbRun, Statements.insert_post. simpl.
  destruct (faults w) as [|[msg|] rest]; simpl;
    destruct (pb_content body), (pb_platforms body), (pb_scheduled_time body); simpl;
    eexists; (split; [reflexivity|]); simpl;
    repeat split; auto; try discriminate;
    intros [H|[H|H]]; discriminate.
Qed.

(** X15.  [DELETE /api/posts/:id] never throws and answers 200, 404
    or 500.  It answers 200 only when a scheduled row with that rowid
    was there, and then exactly the scheduled rows with that rowid are
    gone; it answers 404 only when there was none; on 404 and on 500
    the store is what it was.  A row that is not [scheduled] is never
    deleted. *)
Theorem delete_removes_scheduled_posts_only (postId : Z) (w : World) :
  let gone (p : Post) := id p = postId /\ post_status p = scheduled in
  let s' := store (snd (deletePost postId w)) in
  exists reply,
    fst (deletePost postId w) = Ok reply /\
    (code reply = 200 \/ code reply = 404 \/ code reply = 500) /\
    (code reply = 200 ->
     (exists p, In p (posts (store w)) /\ gone p) /\
     (forall p, In p (posts s') <-> In p (posts (store w)) /\ ~ gone p)) /\
    (code reply = 404 -> forall p, In p (posts (store w)) -> ~ gone p) /\
    (code reply <> 200 -> s' = store w).
Proof.
  intros gone s'. subst s'.
  assert (forall p, (id p =? postId) && Status_eqb (post_status p) scheduled = true <->
                    gone p) as Hgone.
  { intros p. unfold gone. rewrite andb_true_iff, Z.eqb_eq, Status_eqb_eq. tauto. }
  unfold deletePost, attempt, bind, dbRun, Statements.delete_scheduled. simpl.
  destruct (faults w) as [|[msg|] rest]; simpl.
  2: { eexists. split; [reflexivity|]. simpl. repeat split; auto; discriminate. }
  all: destruct (filter (fun p => (id p =? postId) && Status_eqb (post_status p) scheduled)
                   (posts (store w))) as [|d ds] eqn:Hd.
  all: try (apply filter_none in Hd;
    change (Z.of_nat (List.length (@nil Post)) =? 0) with true; cbv iota;
    eexists; (split; [reflexivity|]); simpl;
    split; [auto|]; split; [discriminate|]; split;
    [ intros _ p Hin Hg; apply Hgone in Hg; rewrite Forall_forall in Hd;
      rewrite (Hd p Hin) in Hg; discriminate
    | intros _; rewrite filter_all;
      [apply set_posts_same
      |eapply Forall_impl; [|exact Hd]; simpl; intros p Hp; now rewrite Hp] ]).
  all: replace (Z.of_nat (List.length (d :: ds)) =? 0) with false
    by (symmetry; apply Z.eqb_neq; simpl; lia);
    eexists; (split; [reflexivity|]); simpl;
    split; [auto|]; split; [|split; [discriminate|congruence]];
    intros _; split;
    [ exists d; assert (In d (d :: ds)) as Hin by (now left); rewrite <- Hd in Hin;
      apply filter_In in Hin as [Hin Hg]; split; [exact Hin|now apply Hgone]
    | intros p; rewrite filter_In, negb_true_iff, <- Hgone;
      destruct ((id p =? postId) && Status_eqb (post_status p) scheduled);
      intuition congruence ].
Qed.

Lemma postPost_ok (body : PostBody) (file : option string) (w : World)
    (text targets time : string) :
  hd None (faults w) = None ->
  pb_content body = Some text ->
  pb_platforms body = Some targets ->
  pb_scheduled_time body = Some time ->
  postPost body file w =
    (Ok (mkHttpReply 200 (JObj [("id", JNum (posts_seq (store w) + 1));
                                ("message", JStr "Post scheduled successfully")])),
     mkWorld
       (withRow (store w)
          (mkPost (posts_seq (store w) + 1) text targets time scheduled (pb_series_id body)
                  (pb_series_order body) file (JSDate.sqlText (clock (net w))) None None 0))
       (net w) (tl (faults w)) (scheduler_log w)).
Proof.
  intros Hf Hc Hp Ht. unfold postPost, attempt, bind. rewrite dbRun_ok by exact Hf.
  unfold Statements.insert_post. rewrite Hc, Hp, Ht. reflexivity.
Qed.

Lemma filter_nothing {A : Type} (f : A -> bool) (l : list A) :
  Forall (fun x => f x = false) l -> filter f l = [].
Proof. induction 1 as [|x l Hx _ IH]; simpl; [reflexivity|]. now rewrite Hx. Qed.

(** X16.  Deleting a post right after creating it gives the table
    back.  With rowids sound, the required fields present and neither
    statement failing, [DELETE /api/posts/:id] with the id that
    [POST /api/posts] answered is answered 200 and leaves the rows of
    the table as they were before the post was created; the rowid is
    used up all the same. *)
Theorem delete_undoes_create (body : PostBody) (file : option string) (w : World)
    (text targets time : string) :
  wellKeyed (store w) ->
  hd None (faults w) = None ->
  hd None (tl (faults w)) = None ->
  pb_content body = Some text ->
  pb_platforms body = Some targets ->
  pb_scheduled_time body = Some time ->
  let i := posts_seq (store w) + 1 in
  let w1 := snd (postPost body file w) in
  fst (deletePost i w1) =
    Ok (mkHttpReply 200 (JObj [("message", JStr "Post deleted successfully")])) /\
  posts (store (snd (deletePost i w1))) = posts (store w) /\
  posts_seq (store (snd (deletePost i w1))) = i.
Proof.
  intros Hk Hf1 Hf2 Hc Hp Ht i w1. subst w1.
  rewrite (postPost_ok body file w text targets time Hf1 Hc Hp Ht). cbn [snd].
  unfold deletePost, attempt, bind. rewrite dbRun_ok by exact Hf2.
  unfold Statements.delete_scheduled, withRow. cbn [fst snd store posts Sql.set_posts posts_seq].
  pose proof (wellKeyed_below _ Hk) as Hbelow. fold i in Hbelow |- *.
  assert (Forall (fun p => (id p =? i) && Status_eqb (post_status p) scheduled = false)
            (posts (store w))) as Hold.
  { eapply Forall_impl; [|exact Hbelow]. simpl. intros p Hlt.
    destruct (Z.eqb_spec (id p) i); [lia|reflexivity]. }
  rewrite !filter_app, (filter_nothing _ _ Hold). simpl. rewrite Z.eqb_refl. simpl.
  rewrite filter_all, app_nil_r; [repeat split|].
  eapply Forall_impl; [|exact Hold]. simpl. intros p Hp0. now rewrite Hp0.
Qed.

Lemma delete_undoes_create_witness :
  posts (store (snd (deletePost 5 (snd (postPost Day.fifth None Day.world))))) =
  posts (store Day.world).
Proof.
  apply (delete_undoes_create Day.fifth None Day.world
           "fifth" "twitter" "2024-03-01T09:45:00.000Z").
  - split; simpl.
    + repeat constructor; simpl; intuition discriminate.
    + repeat constructor; vm_compute; discriminate.
  - reflexivity.
  - reflexivity.
  - reflexivity.
  - reflexivity.
  - reflexivity.
Defined.

(** X17.  A series whose start time does not parse leaves its row
    behind.  [POST /api/series] stores the series row before it looks
    at the start time: when [new Date(start_time)] is an invalid date
    and the series has at least one member, the handler throws the
    RangeError "Invalid time value" of [toISOString] out of the
    callback, no reply is produced, no post is stored, and the series
    row stays in the table. *)
Theorem a_series_with_a_bad_start_time_leaves_its_row
    (parseDate : string -> JSDate.Date) (zone : JSDate.Zone) (body : SeriesBody)
    (w : World) :
  parseDate (start_time body) = None ->
  members body <> [] ->
  hd None (faults w) = None ->
  fst (postSeries parseDate zone body w) = Thrown (newError "Invalid time value") /\
  posts (store (snd (postSeries parseDate zone body w))) = posts (store w) /\
  series (store (snd (postSeries parseDate zone body w))) =
    (series (store w) ++
     [mkSeries (series_seq (store w) + 1) (name body) (shared_platforms body)
               (interval_minutes body) (start_time body) scheduled
               (JSDate.sqlText (clock (net w)))])%list.
Proof.
  intros Hdate Hmembers Hf.
  assert (forall seriesId w0,
            fst (forEachMember parseDate zone body seriesId (members body) 0 w0) =
              Thrown (newError "Invalid time value") /\
            snd (forEachMember parseDate zone body seriesId (members body) 0 w0) = w0)
    as Hloop.
  { intros seriesId w0. destruct (members body) as [|first rest]; [congruence|].
    cbn [forEachMember]. unfold bind at 1. unfold memberTime. rewrite Hdate.
    split; reflexivity. }
  assert (postSeries parseDate zone body w =
          (Thrown (newError "Invalid time value"),
           mkWorld
             (snd (Sql.insert_series (clock (net w)) (name body) (shared_platforms body)
                     (interval_minutes body) (start_time body) (store w)))
             (net w) (tl (faults w)) (scheduler_log w))) as Hrun.
  { unfold postSeries, bind, attempt. rewrite dbRun_ok by exact Hf.
    cbn [fst snd Sql.insert_series].
    match goal with
    | |- context [forEachMember parseDate zone body ?i (members body) 0 ?w0] =>
        destruct (Hloop i w0) as [Hthrown Hsame];
        destruct (forEachMember parseDate zone body i (members body) 0 w0) as [[[]|e] w1]
    end; simpl in Hthrown, Hsame; [discriminate|].
    inversion Hthrown; subst. reflexivity. }
  rewrite Hrun. repeat split.
Qed.

Lemma a_series_with_a_bad_start_time_leaves_its_row_witness :
  fst (postSeries Series.parseDate Series.plusTwo
         (mkSeriesBody "launch" "twitter" 60 "tomorrow" ["one"; "two"]) Series.world) =
  Thrown (newError "Invalid time value").
Proof.
  apply (a_series_with_a_bad_start_time_leaves_its_row Series.parseDate Series.plusTwo
           (mkSeriesBody "launch" "twitter" 60 "tomorrow" ["one"; "two"]) Series.world).
  - reflexivity.
  - discriminate.
  - reflexivity.
Defined.

(** ** The routes that list *)

Section Ordering.

Context {A : Type} (key : A -> string).

Lemma insert_desc_perm (x : A) (rows : list A) :
  Permutation (x :: rows) (Statements.insert_desc key x rows).
Proof.
  induction rows as [|y rows IH]; simpl; [reflexivity|].
  destruct (String.leb (key y) (key x)); [reflexivity|].
  rewrite perm_swap. now constructor.
Qed.

Lemma order_desc_perm (rows : list A) : Permutation rows (Statements.order_desc key rows).
Proof.
  induction rows as [|x rows IH]; simpl; [constructor|].
  rewrite <- insert_desc_perm. now constructor.
Qed.

Lemma insert_desc_sorted (x : A) (rows : list A) :
  StronglySorted (newerFirst key) rows ->
  StronglySorted (newerFirst key) (Statements.insert_desc key x rows).
Proof.
  induction 1 as [|y rows Hs IH Hy]; simpl.
  - repeat constructor.
  - destruct (String.leb (key y) (key x)) eqn:Hyx.
    + constructor; [now constructor|].
      constructor; [exact Hyx|].
      eapply Forall_impl; [|exact Hy]. unfold newerFirst. intros r Hr.
      now apply (string_leb_trans (key r) (key y) (key x)).
    + constructor; [exact IH|].
      rewrite <- insert_desc_perm. constructor; [|exact Hy].
      unfold newerFirst.
      destruct (String.leb_total (key x) (key y)) as [H|H]; [exact H|congruence].
Qed.

Lemma order_desc_sorted (rows : list A) :
  StronglySorted (newerFirst key) (Statements.order_desc key rows).
Proof.
  induction rows as [|x rows IH]; simpl; [constructor|]. now apply insert_desc_sorted.
Qed.





End Ordering.

Lemma getHistory_ok (w : World) :
  hd None (faults w) = None ->
  getHistory w =
    (Ok (Rows (Statements.select_history (store w))),
     mkWorld (store w) (net w) (tl (faults w)) (scheduler_log w)).
Proof. intros Hf. unfold getHistory, attempt, bind. now rewrite dbRun_ok. Qed.


Lemma join_posts_In (s : Store) (h h' : History) (c t : string) :
  In (h', c, t) (Statements.join_posts s h) <->
  h' = h /\
  exists p, In p (posts s) /\ id p = h_post_id h /\ content p = c /\ scheduled_time p = t.
Proof.
  unfold Statements.join_posts. rewrite in_map_iff. split.
  - intros (p & Heq & Hin). apply filter_In in Hin as [Hin Hid]. apply Z.eqb_eq in Hid.
    inversion Heq; subst. split; [reflexivity|]. exists p. auto.
  - intros (-> & p & Hin & Hid & <- & <-). exists p. split; [reflexivity|].
    apply filter_In. split; [exact Hin|now apply Z.eqb_eq].
Qed.

(** X18.  [GET /api/history] lists the newest hundred.  When the query
    does not fail, the listing has at most 100 rows; together with the
    rows it leaves out (none unless it has 100) it is every history
    entry whose post is still in the table, joined with the content
    and the scheduled time of that post, newest [posted_at] first; so
    no row left out is newer than a row listed, and the entries of a
    deleted post are not listed.  The store is not changed. *)
Theorem the_history_lists_the_newest_hundred (w : World) :
  hd None (faults w) = None ->
  exists rows dropped,
    fst (getHistory w) = Ok (Rows rows) /\
    store (snd (getHistory w)) = store w /\
    (List.length rows <= 100)%nat /\
    (dropped <> [] -> List.length rows = 100%nat) /\
    StronglySorted (newerFirst (fun row => h_posted_at (fst (fst row)))) (rows ++ dropped) /\
    (forall h c t,
        In (h, c, t) (rows ++ dropped)%list <->
        In h (posting_history (store w)) /\
        exists p, In p (posts (store w)) /\ id p = h_post_id h /\
                  content p = c /\ scheduled_time p = t).
Proof.
  intros Hf. rewrite (getHistory_ok w Hf). cbn [fst snd store].
  unfold Statements.select_history.
  set (key := fun row : History * string * string => h_posted_at (fst (fst row))).
  set (joined := flat_map (Statements.join_posts (store w)) (posting_history (store w))).
  set (all := Statements.order_desc key joined).
  exists (firstn 100 all), (skipn 100 all).
  split; [reflexivity|]. split; [reflexivity|]. split; [apply firstn_le_length|].
  split; [|split].
  - intros Hd. apply firstn_length_le.
    destruct (Nat.le_gt_cases 100 (List.length all)) as [H|H]; [exact H|].
    exfalso. apply Hd. apply skipn_all2. lia.
  - rewrite firstn_skipn. apply order_desc_sorted.
  - intros h c t. rewrite firstn_skipn. split.
    + intros Hin. apply (Permutation_in _ (Permutation_sym (order_desc_perm key joined)))
        in Hin.
      apply in_flat_map in Hin as (h0 & Hh0 & Hin). apply join_posts_In in Hin as [-> Hp].
      now split.
    + intros [Hh Hp]. apply (Permutation_in _ (order_desc_perm key joined)).
      apply in_flat_map. exists h. split; [exact Hh|]. now apply join_posts_In.
Qed.

Lemma the_history_lists_the_newest_hundred_witness :
  exists rows dropped,
    fst (getHistory Day.after) = Ok (Rows rows) /\
    store (snd (getHistory Day.after)) = store Day.after /\
    (List.length rows <= 100)%nat /\
    (dropped <> [] -> List.length rows = 100%nat) /\
    StronglySorted (newerFirst (fun row => h_posted_at (fst (fst row)))) (rows ++ dropped) /\
    (forall h c t,
        In (h, c, t) (rows ++ dropped)%list <->
        In h (posting_history (store Day.after)) /\
        exists p, In p (posts (store Day.after)) /\ id p = h_post_id h /\
                  content p = c /\ scheduled_time p = t).
Proof. apply the_history_lists_the_newest_hundred. reflexivity. Defined.








(** ** The text of an instant and the order of instants *)

Lemma yearOfEra_mono (a b : Z) : 0 <= a <= b -> yearOfEra a <= yearOfEra b.
Proof.
  intros H. unfold yearOfEra. apply Z.div_le_mono; [lia|].
  Z.div_mod_to_equations; lia.
Qed.

Lemma dayOfYear_range (doe : Z) :
  0 <= doe <= 146096 -> 0 <= doe - yearStart (yearOfEra doe) <= 365.
Proof. intros H. unfold yearOfEra, yearStart. Z.div_mod_to_equations; lia. Qed.

Lemma ofDoe_range (doe : Z) :
  0 <= doe <= 146096 ->
  let '(y, m, d) := ofDoe doe in 0 <= y <= 400 /\ 1 <= m <= 12 /\ 1 <= d <= 31.
Proof.
  intros H. unfold ofDoe.
  pose proof (dayOfYear_range doe H) as Hdoy.
  assert (0 <= yearOfEra doe <= 399) as Hy.
  { unfold yearOfEra. Z.div_mod_to_equations; lia. }
  set (yoe := yearOfEra doe) in *. set (doy := doe - yearStart yoe) in *.
  destruct ((5 * doy + 2) / 153 <? 10) eqn:Hmp;
    [apply Z.ltb_lt in Hmp|apply Z.ltb_ge in Hmp];
    match goal with |- context [?m <=? 2] => destruct (Z.leb_spec m 2) end;
    (Z.div_mod_to_equations; lia).
Qed.

Lemma monthDay_mono (a b : Z) :
  0 <= a < b -> b <= 365 ->
  let mpa := (5 * a + 2) / 153 in
  let mpb := (5 * b + 2) / 153 in
  mpa < mpb \/ (mpa = mpb /\ a - (153 * mpa + 2) / 5 < b - (153 * mpb + 2) / 5).
Proof. intros H Hb. cbv zeta. Z.div_mod_to_equations; lia. Qed.

Lemma ofDoe_mono (a b : Z) :
  0 <= a < b -> b <= 146096 -> dateKey (ofDoe a) < dateKey (ofDoe b).
Proof.
  intros Hab Hb.
  pose proof (ofDoe_range a ltac:(lia)) as Ra.
  pose proof (ofDoe_range b ltac:(lia)) as Rb.
  pose proof (yearOfEra_mono a b ltac:(lia)) as Hy.
  pose proof (dayOfYear_range a ltac:(lia)) as Da.
  pose proof (dayOfYear_range b ltac:(lia)) as Db.
  unfold ofDoe, dateKey in *.
  set (ya := yearOfEra a) in *. set (yb := yearOfEra b) in *.
  set (da := a - yearStart ya) in *. set (db := b - yearStart yb) in *.
  assert (ya < yb \/ (ya = yb /\ da < db)) as Hlex.
  { destruct (Z.eq_dec ya yb) as [Heq|Hne]; [right|left; lia].
    split; [exact Heq|]. subst da db. rewrite Heq. lia. }
  pose proof (monthDay_mono da db) as Hmd. cbv zeta in Hmd.
  set (mpa := (5 * da + 2) / 153) in *. set (mpb := (5 * db + 2) / 153) in *.
  set (dda := (153 * mpa + 2) / 5) in *. set (ddb := (153 * mpb + 2) / 5) in *.
  assert (0 <= mpa <= 11 /\ 0 <= mpb <= 11) as Hmp.
  { subst mpa mpb. Z.div_mod_to_equations; lia. }
  destruct (mpa <? 10) eqn:Ha; [apply Z.ltb_lt in Ha|apply Z.ltb_ge in Ha];
  destruct (mpb <? 10) eqn:Hb'; [apply Z.ltb_lt in Hb'|apply Z.ltb_ge in Hb'| |];
  repeat match goal with
         | H : context [?m <=? 2] |- _ => destruct (Z.leb_spec m 2)
         | |- context [?m <=? 2] => destruct (Z.leb_spec m 2)
         end; try lia.
Qed.

Lemma civil_ofDoe (days : Z) :
  JSDate.civil days =
  (let '(y, m, d) := ofDoe ((days + 719468) mod 146097) in
   (y + (days + 719468) / 146097 * 400, m, d)).
Proof.
  unfold JSDate.civil, ofDoe, yearOfEra, yearStart. cbv zeta.
  f_equal. f_equal. lia.
Qed.

Lemma civil_key (days : Z) :
  dateKey (JSDate.civil days) =
  166400 * ((days + 719468) / 146097) + dateKey (ofDoe ((days + 719468) mod 146097)).
Proof.
  rewrite civil_ofDoe. destruct (ofDoe ((days + 719468) mod 146097)) as [[y m] d].
  unfold dateKey. lia.
Qed.

Lemma ofDoe_key_range (doe : Z) :
  0 <= doe <= 146096 -> 97 <= dateKey (ofDoe doe) <= 166493.
Proof.
  intros H. split.
  - destruct (Z.eq_dec doe 0) as [->|Hne]; [vm_compute; discriminate|].
    pose proof (ofDoe_mono 0 doe ltac:(lia) ltac:(lia)) as Hm.
    change (dateKey (ofDoe 0)) with 97 in Hm. lia.
  - destruct (Z.eq_dec doe 146096) as [->|Hne]; [vm_compute; discriminate|].
    pose proof (ofDoe_mono doe 146096 ltac:(lia) ltac:(lia)) as Hm.
    change (dateKey (ofDoe 146096)) with 166493 in Hm. lia.
Qed.

Lemma civil_mono (a b : Z) :
  a < b -> dateKey (JSDate.civil a) < dateKey (JSDate.civil b).
Proof.
  intros Hab. rewrite !civil_key.
  pose proof (Z.mod_pos_bound (a + 719468) 146097 ltac:(lia)) as Ha.
  pose proof (Z.mod_pos_bound (b + 719468) 146097 ltac:(lia)) as Hb.
  pose proof (ofDoe_key_range ((a + 719468) mod 146097) ltac:(lia)) as Ka.
  pose proof (ofDoe_key_range ((b + 719468) mod 146097) ltac:(lia)) as Kb.
  destruct (Z.eq_dec ((a + 719468) / 146097) ((b + 719468) / 146097)) as [Heq|Hne].
  - rewrite Heq. apply Z.add_lt_mono_l. apply ofDoe_mono; [|lia].
    clear Ka Kb. Z.div_mod_to_equations; lia.
  - assert ((a + 719468) / 146097 < (b + 719468) / 146097) as Hlt.
    { pose proof (Z.div_le_mono (a + 719468) (b + 719468) 146097 ltac:(lia) ltac:(lia)).
      lia. }
    lia.
Qed.

Lemma civil_range (days : Z) :
  let '(y, m, d) := JSDate.civil days in 1 <= m <= 12 /\ 1 <= d <= 31.
Proof.
  rewrite civil_ofDoe.
  pose proof (Z.mod_pos_bound (days + 719468) 146097 ltac:(lia)) as H.
  pose proof (ofDoe_range ((days + 719468) mod 146097) ltac:(lia)) as R.
  destruct (ofDoe ((days + 719468) mod 146097)) as [[y m] d]. tauto.
Qed.

Lemma instantKey_mono (a b : Z) : a < b -> instantKey a < instantKey b.
Proof.
  intros Hab. unfold instantKey, JSDate.Day, JSDate.msPerDay.
  pose proof (Z.mod_pos_bound a 86400000 ltac:(lia)) as Ha.
  pose proof (Z.mod_pos_bound b 86400000 ltac:(lia)) as Hb.
  destruct (Z.eq_dec (a / 86400000) (b / 86400000)) as [Heq|Hne].
  - rewrite Heq. apply Z.add_lt_mono_l. Z.div_mod_to_equations; lia.
  - assert (a / 86400000 < b / 86400000) as Hlt.
    { pose proof (Z.div_le_mono a b 86400000 ltac:(lia) ltac:(lia)). lia. }
    pose proof (civil_mono _ _ Hlt). lia.
Qed.

Lemma instantKey_compare (a b : Z) : (instantKey a ?= instantKey b) = (a ?= b).
Proof.
  destruct (Z.compare_spec a b) as [->|Hlt|Hgt].
  - apply Z.compare_refl.
  - apply Z.compare_lt_iff. now apply instantKey_mono.
  - apply Z.compare_gt_iff. now apply instantKey_mono.
Qed.

Lemma fourDigitYear_civil (t : Z) :
  fourDigitYear t -> 0 <= fst (fst (JSDate.civil (JSDate.Day t))) <= 9999.
Proof.
  unfold fourDigitYear, JSDate.Day, JSDate.msPerDay. intros H.
  assert (-719528 <= t / 86400000 <= 2932896) as Hd
    by (Z.div_mod_to_equations; lia).
  pose proof (civil_range (t / 86400000)) as R.
  assert (dateKey (JSDate.civil (-719528)) <= dateKey (JSDate.civil (t / 86400000))) as Hlo.
  { destruct (Z.eq_dec (t / 86400000) (-719528)) as [->|Hne]; [lia|].
    pose proof (civil_mono (-719528) (t / 86400000) ltac:(lia)). lia. }
  assert (dateKey (JSDate.civil (t / 86400000)) <= dateKey (JSDate.civil 2932896)) as Hhi.
  { destruct (Z.eq_dec (t / 86400000) 2932896) as [->|Hne]; [lia|].
    pose proof (civil_mono (t / 86400000) 2932896 ltac:(lia)). lia. }
  change (dateKey (JSDate.civil (-719528))) with 33 in Hlo.
  change (dateKey (JSDate.civil 2932896)) with 4159999 in Hhi.
  destruct (JSDate.civil (t / 86400000)) as [[y m] d]. unfold dateKey in *. simpl. lia.
Qed.

Lemma append_length (a b : string) :
  String.length (a ++ b) = (String.length a + String.length b)%nat.
Proof. induction a as [|c a IH]; simpl; [reflexivity|now rewrite IH]. Qed.

Lemma digits_length (w : nat) (n : Z) : String.length (Str.digits w n) = w.
Proof.
  revert n. induction w as [|w IH]; intros n; simpl; [reflexivity|].
  rewrite append_length, IH. simpl. lia.
Qed.

Lemma compare_append (a b x y : string) :
  String.length a = String.length b ->
  String.compare (a ++ x) (b ++ y) =
  match String.compare a b with
  | Eq => String.compare x y
  | c => c
  end.
Proof.
  revert b. induction a as [|c a IH]; intros [|c' b] Hlen; simpl in *; try discriminate.
  - reflexivity.
  - destruct (Ascii.compare c c'); auto.
Qed.

Lemma compare_digit (a b : Z) :
  0 <= a < 10 -> 0 <= b < 10 ->
  Ascii.compare (ascii_of_N (Z.to_N (48 + a))) (ascii_of_N (Z.to_N (48 + b))) = (a ?= b).
Proof.
  intros Ha Hb. unfold Ascii.compare.
  rewrite !N_ascii_embedding by lia.
  rewrite Z2N.inj_compare by lia. apply Z.add_compare_mono_l.
Qed.

Lemma lex_step (B a1 a2 r1 r2 : Z) :
  0 <= r1 < B -> 0 <= r2 < B ->
  match a1 ?= a2 with
  | Eq => r1 ?= r2
  | c => c
  end = (a1 * B + r1 ?= a2 * B + r2).
Proof.
  intros H1 H2. destruct (Z.compare_spec a1 a2) as [->|Hlt|Hgt]; symmetry.
  - apply Z.add_compare_mono_l.
  - apply Z.compare_lt_iff. nia.
  - apply Z.compare_gt_iff. nia.
Qed.

Lemma compare_digits (w : nat) :
  forall a b, 0 <= a < 10 ^ Z.of_nat w -> 0 <= b < 10 ^ Z.of_nat w ->
    String.compare (Str.digits w a) (Str.digits w b) = (a ?= b).
Proof.
  induction w as [|w IH]; intros a b Ha Hb.
  - simpl in *. assert (a = 0) by lia. assert (b = 0) by lia. now subst.
  - rewrite Nat2Z.inj_succ, Z.pow_succ_r in Ha, Hb by lia.
    cbn [Str.digits]. rewrite compare_append by now rewrite !digits_length.
    rewrite IH by (Z.div_mod_to_equations; lia).
    cbn [String.compare].
    rewrite compare_digit by (Z.div_mod_to_equations; lia).
    replace (match a mod 10 ?= b mod 10 with Eq => Eq | Lt => Lt | Gt => Gt end)
      with (a mod 10 ?= b mod 10) by now destruct (a mod 10 ?= b mod 10).
    rewrite (lex_step 10) by (Z.div_mod_to_equations; lia).
    f_equal; Z.div_mod_to_equations; lia.
Qed.

Lemma compare_field (w : nat) (c : ascii) (a b : Z) (x y : string) :
  0 <= a < 10 ^ Z.of_nat w -> 0 <= b < 10 ^ Z.of_nat w ->
  String.compare (Str.digits w a ++ String c x) (Str.digits w b ++ String c y) =
  match a ?= b with
  | Eq => String.compare x y
  | r => r
  end.
Proof.
  intros Ha Hb. rewrite compare_append by now rewrite !digits_length.
  rewrite compare_digits by assumption. cbn [String.compare].
  unfold Ascii.compare. now rewrite N.compare_refl.
Qed.

Lemma isoText_compare (a b : Z) :
  fourDigitYear a -> fourDigitYear b ->
  String.compare (JSDate.isoText a) (JSDate.isoText b) = (a ?= b).
Proof.
  intros Ha Hb. rewrite <- instantKey_compare.
  pose proof (fourDigitYear_civil a Ha) as Ya.
  pose proof (fourDigitYear_civil b Hb) as Yb.
  pose proof (civil_range (JSDate.Day a)) as Ra.
  pose proof (civil_range (JSDate.Day b)) as Rb.
  unfold JSDate.isoText, instantKey.
  destruct (JSDate.civil (JSDate.Day a)) as [[y1 m1] d1].
  destruct (JSDate.civil (JSDate.Day b)) as [[y2 m2] d2].
  cbn [fst] in Ya, Yb. unfold JSDate.yearString.
  replace ((0 <=? y1) && (y1 <=? 9999)) with true by (symmetry; apply andb_true_iff; lia).
  replace ((0 <=? y2) && (y2 <=? 9999)) with true by (symmetry; apply andb_true_iff; lia).
  unfold JSDate.HourFromTime, JSDate.MinFromTime, JSDate.SecFromTime, JSDate.msFromTime,
    JSDate.msPerHour, JSDate.msPerMinute, JSDate.msPerSecond, JSDate.msPerDay, dateKey.
  set (h1 := (a / 3600000) mod 24). set (h2 := (b / 3600000) mod 24).
  set (n1 := (a / 60000) mod 60). set (n2 := (b / 60000) mod 60).
  set (s1 := (a / 1000) mod 60). set (s2 := (b / 1000) mod 60).
  set (u1 := a mod 1000). set (u2 := b mod 1000).
  assert (0 <= h1 < 24 /\ 0 <= n1 < 60 /\ 0 <= s1 < 60 /\ 0 <= u1 < 1000 /\
          a mod 86400000 = ((h1 * 60 + n1) * 60 + s1) * 1000 + u1) as (Hh1 & Hn1 & Hs1 & Hu1 & E1)
    by (subst h1 n1 s1 u1; Z.div_mod_to_equations; lia).
  assert (0 <= h2 < 24 /\ 0 <= n2 < 60 /\ 0 <= s2 < 60 /\ 0 <= u2 < 1000 /\
          b mod 86400000 = ((h2 * 60 + n2) * 60 + s2) * 1000 + u2) as (Hh2 & Hn2 & Hs2 & Hu2 & E2)
    by (subst h2 n2 s2 u2; Z.div_mod_to_equations; lia).
  rewrite E1, E2. clearbody h1 h2 n1 n2 s1 s2 u1 u2. clear E1 E2.
  cbn [String.append].
  repeat (rewrite compare_field by (simpl; lia)).
  replace (String.compare "" "") with Eq by reflexivity.
  replace (match u1 ?= u2 with Eq => Eq | Lt => Lt | Gt => Gt end)
    with (u1 ?= u2) by now destruct (u1 ?= u2).
  rewrite (lex_step 1000 s1 s2) by lia.
  rewrite (lex_step 60000 n1 n2) by lia.
  rewrite (lex_step 3600000 h1 h2) by lia.
  rewrite (lex_step 86400000 d1 d2) by lia.
  rewrite (lex_step (32 * 86400000) m1 m2) by lia.
  rewrite (lex_step (13 * 32 * 86400000) y1 y2) by lia.
  f_equal; lia.
Qed.

Lemma isoText_leb (a b : Z) :
  fourDigitYear a -> fourDigitYear b ->
  String.leb (JSDate.isoText a) (JSDate.isoText b) = (a <=? b).
Proof.
  intros Ha Hb. unfold String.leb, Z.leb. now rewrite isoText_compare.
Qed.

(** X20.  The due query follows the clock.  The query compares the
    text of [scheduled_time] with the text of now; for a post whose
    [scheduled_time] was written by [toISOString] (a retry, a member of
    a series) and a year of four digits on both sides, that is the
    comparison of the instants: the post is among the due posts at
    [now] exactly when it is [scheduled] and its instant is at or
    before [now]. *)
Theorem the_due_query_follows_the_clock (now T : Z) (s : Store) (p : Post) :
  fourDigitYear now ->
  fourDigitYear T ->
  In p (posts s) ->
  scheduled_time p = JSDate.isoText T ->
  (In p (Sql.select_due (JSDate.isoText now) s) <-> post_status p = scheduled /\ T <= now).
Proof.
  intros Hnow HT Hin Htime. rewrite select_due_In, Htime, isoText_leb by assumption.
  rewrite Z.leb_le. tauto.
Qed.

Lemma the_due_query_follows_the_clock_witness :
  In Sample.early
     (Sql.select_due (JSDate.isoText Sample.ten)
        (Sample.storeOf [Sample.early; Sample.notYet])) <->
  post_status Sample.early = scheduled /\ 1709283600000 <= Sample.ten.
Proof.
  apply the_due_query_follows_the_clock.
  - unfold fourDigitYear, Sample.ten. lia.
  - unfold fourDigitYear. lia.
  - simpl. auto.
  - reflexivity.
Defined.

(** X21.  A retried post waits for the delay.  On a working store,
    the row [scheduleRetry] leaves for a post at clock time [c] is due
    at a later query time [t] exactly when [c + RETRY_DELAY <= t]
    (years of four digits): no tick before the delay is over picks the
    post up again, and the first tick after it does. *)
Theorem a_retried_post_waits_for_the_delay (self : Scheduler) (env : Env)
    (post row : Post) (w : World) (t : Z) :
  healthy self w ->
  fourDigitYear (clock (net w) + retryDelay env) ->
  fourDigitYear t ->
  find_post (id post) (store (snd (scheduleRetry self env post w))) = Some row ->
  Sql.is_due (JSDate.isoText t) row = (clock (net w) + retryDelay env <=? t).
Proof.
  intros Hw Hc Ht Hrow.
  assert (JSDate.ofTime (clock (net w) + retryDelay env) =
          Some (clock (net w) + retryDelay env)) as Hvalid.
  { unfold JSDate.ofTime, JSDate.TimeClip, fourDigitYear, JSDate.maxTime in *.
    destruct (Z.leb_spec (Z.abs (clock (net w) + retryDelay env)) 8640000000000000);
      [reflexivity|lia]. }
  unfold scheduleRetry, bind at 1, liftNet, Date_now, gets in Hrow. cbn [fst snd] in Hrow.
  rewrite World_eta in Hrow. unfold bind at 1 in Hrow.
  cbn [clock net] in Hrow. rewrite Hvalid in Hrow. cbn [toISOString ret] in Hrow.
  destruct (dbRun_healthy self
              (fun _ => Sql.update_retry (JSDate.isoText (clock (net w) + retryDelay env))
                          ("Retry " ++ Str.ofZ (retry_count post + 1)) (id post)) w Hw)
    as (w' & Hrun & Hstore & _).
  rewrite Hrun in Hrow. cbn [snd] in Hrow. rewrite Hstore, find_post_update_retry in Hrow.
  rewrite Z.eqb_refl in Hrow.
  destruct (find_post (id post) (store w)) as [p|]; [|discriminate].
  inversion Hrow; subst row. unfold Sql.is_due. cbn [post_status scheduled_time Status_eqb].
  now rewrite isoText_leb.
Qed.

Lemma a_retried_post_waits_for_the_delay_witness :
  Sql.is_due (JSDate.isoText (Sample.ten + 300000))
    (rescheduled Sample.env Sample.early Sample.ten) = true.
Proof.
  apply (a_retried_post_waits_for_the_delay Sample.scheduler Sample.env Sample.early
           (rescheduled Sample.env Sample.early Sample.ten)
           (Sample.worldOf [Sample.early] [] []) (Sample.ten + 300000)).
  - split; [reflexivity|constructor].
  - vm_compute. split; discriminate.
  - vm_compute. split; discriminate.
  - reflexivity.
Defined.

(** ** Where the requests of a tick go *)

Lemma sendsToTwitter_refl (n : Net) : sendsToTwitter n n.
Proof. exists []. split; [now rewrite app_nil_r|constructor]. Qed.

Lemma sendsToTwitter_trans (a b c : Net) :
  sendsToTwitter a b -> sendsToTwitter b c -> sendsToTwitter a c.
Proof.
  intros (x & Hx & Fx) (y & Hy & Fy). exists (x ++ y)%list.
  split; [now rewrite Hy, Hx, app_assoc|now apply Forall_app].
Qed.

Lemma twitter_axios (req : Request) : toTwitter req -> keeps sendsToTwitter (axios req).
Proof.
  intros Hreq n. exists [req]. split; [|constructor; [exact Hreq|constructor]].
  unfold axios. destruct (net_script n) as [|x rest]; [reflexivity|].
  destruct (reply x) as [st d|reason]; [destruct ((200 <=? st) && (st <? 300))|];
    reflexivity.
Qed.

Lemma twitter_readFileSync (path : string) : keeps sendsToTwitter (readFileSync path).
Proof.
  intros n. unfold readFileSync.
  destruct (find _ (files n)); simpl; apply sendsToTwitter_refl.
Qed.

Ltac twitter_step :=
  first
    [ apply keeps_ret; exact sendsToTwitter_refl
    | apply keeps_throw; exact sendsToTwitter_refl
    | apply keeps_gets; exact sendsToTwitter_refl
    | apply keeps_getProp; exact sendsToTwitter_refl
    | apply twitter_readFileSync
    | apply twitter_axios; unfold toTwitter; simpl; tauto
    | apply keeps_bind; [exact sendsToTwitter_trans | | intros ]
    | apply keeps_tryCatch; [exact sendsToTwitter_trans | | intros ]
    | match goal with
      | |- keeps _ (if ?c then _ else _) => destruct c
      | |- keeps _ (match ?x with _ => _ end) => destruct x
      end ].

Lemma twitter_uploadMedia (self : Twitter.TwitterService) (path : string) :
  keeps sendsToTwitter (Twitter.uploadMedia self path).
Proof.
  unfold Twitter.uploadMedia, existsSync, Twitter.authHeader. repeat twitter_step.
Qed.

Lemma twitter_postTweet (self : Twitter.TwitterService) (text : string)
    (mediaPath : option string) :
  keeps sendsToTwitter (Twitter.postTweet self text mediaPath).
Proof.
  unfold Twitter.postTweet, Twitter.authHeader.
  repeat first [apply twitter_uploadMedia | twitter_step].
Qed.

Section FreshScheduler.

Variable c : Credentials.

Let onTheWire (w w' : World) : Prop := sendsToTwitter (net w) (net w').

Lemma wire_refl (w : World) : onTheWire w w.
Proof. apply sendsToTwitter_refl. Qed.

Lemma wire_trans (a b d : World) : onTheWire a b -> onTheWire b d -> onTheWire a d.
Proof. apply sendsToTwitter_trans. Qed.

Lemma wire_dbRun {A : Type} (isOpen : bool) (stmt : Z -> Store -> A * Store) :
  keeps onTheWire (dbRun isOpen stmt).
Proof.
  intros w. unfold onTheWire, dbRun. destruct (negb isOpen); [apply sendsToTwitter_refl|].
  destruct (faults w) as [|[msg|] rest]; simpl; try apply sendsToTwitter_refl;
    destruct (stmt (clock (net w)) (store w)); apply sendsToTwitter_refl.
Qed.

Lemma wire_liftNet {A : Type} (m : Eff Net A) :
  keeps sendsToTwitter m -> keeps onTheWire (liftNet m).
Proof. intros H w. unfold liftNet. specialize (H (net w)). now destruct (m (net w)). Qed.

Ltac wire_step :=
  first
    [ apply keeps_ret; exact wire_refl
    | apply keeps_throw; exact wire_refl
    | apply keeps_toISOString; exact wire_refl
    | apply wire_dbRun
    | apply wire_liftNet; first [apply twitter_postTweet | repeat twitter_step]
    | apply keeps_bind; [exact wire_trans | | intros ]
    | apply keeps_tryCatch; [exact wire_trans | | intros ]
    | match goal with
      | |- keeps _ (if ?b then _ else _) => destruct b
      | |- keeps _ (match ?x with _ => _ end) => destruct x
      end ].

Lemma wire_postToPlatform (post : Post) (platform : string) :
  keeps onTheWire (postToPlatform (newScheduler c) post platform).
Proof.
  unfold postToPlatform. destruct (String.eqb platform "twitter"); [repeat wire_step|].
  destruct (String.eqb platform "linkedin"); [|repeat wire_step].
  apply wire_liftNet. unfold LinkedIn.postUpdate. simpl. twitter_step.
Qed.

Lemma wire_attemptPlatform (post : Post) (platform : string) :
  keeps onTheWire (attemptPlatform (newScheduler c) post platform).
Proof.
  unfold attemptPlatform, logPostingHistory.
  repeat first [apply wire_postToPlatform | wire_step].
Qed.

Lemma wire_forEachPlatform (post : Post) (rest : list string) :
  forall successCount errors,
    keeps onTheWire (forEachPlatform (newScheduler c) post rest successCount errors).
Proof.
  induction rest as [|platform rest IH]; intros successCount errors; simpl.
  - apply keeps_ret. exact wire_refl.
  - apply keeps_bind; [exact wire_trans | apply wire_attemptPlatform |].
    intros [e|]; apply IH.
Qed.

Lemma wire_processPost (env : Env) (post : Post) :
  keeps onTheWire (processPost (newScheduler c) env post).
Proof.
  unfold processPost, updatePostStatus, scheduleRetry, nowISOString, Date_now.
  repeat first [apply wire_forEachPlatform | wire_step].
Qed.

Lemma wire_forEachPost (env : Env) (batch : list Post) :
  keeps onTheWire (forEachPost (newScheduler c) env batch).
Proof.
  induction batch as [|post rest IH]; simpl.
  - apply keeps_ret. exact wire_refl.
  - apply keeps_bind; [exact wire_trans | apply wire_processPost | intros; apply IH].
Qed.

Lemma wire_tick (env : Env) :
  keeps onTheWire (checkAndPostScheduledPosts (newScheduler c) env).
Proof.
  unfold checkAndPostScheduledPosts, nowISOString, getScheduledPosts, Date_now.
  repeat first [apply wire_forEachPost | wire_step].
  intros w. apply sendsToTwitter_refl.
Qed.

End FreshScheduler.

(** X22.  A scheduler as [new Scheduler()] builds it never contacts
    LinkedIn.  Whatever the credentials in the environment, the posts
    in the table, the answers of the network and the failures of the
    store, every request a tick puts on the wire goes to one of the
    two Twitter endpoints (the tweet and the media upload): for a post
    that names linkedin nothing is sent at all. *)
Theorem a_new_scheduler_never_contacts_linkedin (c : Credentials) (env : Env) (w : World) :
  exists added,
    sent (net (snd (checkAndPostScheduledPosts (newScheduler c) env w))) =
      (sent (net w) ++ added)%list /\
    Forall toTwitter added.
Proof. exact (wire_tick c env w). Qed.

(** ** A post to a company page *)


